(** * A feed-forward network on a hand-written dense matrix engine

    Shallow embedding of [network.js] (class [NNetwork], [sigmoid],
    [sigPrime]) and of [matrix.js] (class [Matrix]).

    Arithmetic model.  A JavaScript Number is modelled as a real number:
    [+], [-], [*], [/] and [Math.exp] are the exact operations of [R], so
    rounding, overflow and underflow are idealised away.  The two values
    that are not real numbers but do flow through the arithmetic of the
    program, [undefined] (an array slot that was never written) and [NaN]
    (what arithmetic makes of [undefined]), are kept: see [value].
    Results are stated operation for operation, in the order in which the
    code evaluates (up to the commutativity of [+] and [*]), so that they
    read the same on the Numbers an engine computes with, the IEEE-754
    binary64 numbers.  Where the exact reading and the engine part ways,
    Module [Double] gives the code a second reading on binary64 numbers:
    [sigmoid], [sigPrime], an entry of the parameter update and the
    cost.

    Effects.  [Math.random()] is a stream of reals chosen by the host; the
    state that is threaded through the program is the number of draws made
    so far.  A thrown [TypeError] (a property read on [undefined], a method
    call on [false]) aborts the computation.  No two slots of the program
    ever hold the same [Matrix] object ([clone] copies row by row, every
    operation returns a fresh object), so objects are modelled by their
    contents.

    Data.  The methods of [NNetwork] read the module-level arrays
    [imgData] and [labels], here two variables.  [getTrainingData], which
    fills them, is modelled on its own, as a function of the contents of
    the two files it reads.

    Left out: [console.log] and the two [show] methods, which only print;
    [scalarDiv], which the network never calls and whose quotient by zero
    is an infinity, a value this model of Numbers does not have; the
    reading of the two files from disk; and the script at the end of
    [network.js]. *)

From Stdlib Require Import List Arith ZArith Lia Bool.
From Stdlib Require Import Reals Lra.
From Stdlib Require Import Floats.
From Stdlib Require Strings.Byte.
Import ListNotations.

Set Implicit Arguments.

(* ================================================================== *)
(** * Numbers and values *)

(** What a slot of a row can hold. *)
Inductive value : Type :=
| Undefined
| NaN
| Num (x : R).

(** Binary arithmetic: both operands are converted with ToNumber, which
    sends [undefined] to [NaN], and [NaN] is absorbing. *)
Definition arith2 (f : R -> R -> R) (a b : value) : value :=
  match a, b with
  | Num x, Num y => Num (f x y)
  | _, _ => NaN
  end.

Definition vadd : value -> value -> value := arith2 Rplus.
Definition vsub : value -> value -> value := arith2 Rminus.
Definition vmul : value -> value -> value := arith2 Rmult.

(** [a / b].  A quotient by zero is not a real number (JavaScript gives
    [NaN] for [0/0] and an infinity otherwise); the model answers [NaN].
    The only quotient by zero the modelled program can form is [0/0]. *)
Definition vdiv (a b : value) : value :=
  match a, b with
  | Num x, Num y => if Req_dec_T y 0 then NaN else Num (x / y)
  | _, _ => NaN
  end.

Definition vneg (a : value) : value :=
  match a with
  | Num x => Num (- x)
  | _ => NaN
  end.

Definition Math_exp (a : value) : value :=
  match a with
  | Num x => Num (exp x)
  | _ => NaN
  end.

(** [function sigmoid(x) { return 1 / (1 + Math.exp(-x)); }] *)
Definition sigmoid (x : value) : value :=
  vdiv (Num 1) (vadd (Num 1) (Math_exp (vneg x))).

(** [function sigPrime(x)]: [exponent / ((exponent + 1) * (exponent + 1))]. *)
Definition sigPrime (x : value) : value :=
  let exponent := Math_exp (vneg x) in
  vdiv exponent (vmul (vadd exponent (Num 1)) (vadd exponent (Num 1))).

(* ================================================================== *)
(** * The computation monad: a random stream position and TypeError *)

Inductive result (A : Type) : Type :=
| Ok (a : A) (draws : nat)
| TypeError.
Arguments TypeError {A}.

(** A computation reads the number of [Math.random()] draws made so far
    and either returns a value with the new count or throws. *)
Definition M (A : Type) : Type := nat -> result A.

Definition ret {A} (a : A) : M A := fun s => Ok a s.
Definition throw {A} : M A := fun _ => TypeError.
Definition bind {A B} (m : M A) (k : A -> M B) : M B :=
  fun s => match m s with
           | Ok a s' => k a s'
           | TypeError => TypeError
           end.

Notation "x <- c1 ;; c2" := (bind c1 (fun x => c2))
  (at level 61, c1 at next level, right associativity).
Notation "' pat <- c1 ;; c2" := (bind c1 (fun x => match x with pat => c2 end))
  (at level 61, pat pattern, c1 at next level, right associativity).

(** [for (let i = i0; i < i0 + n; i++) st = body(i, st)]: the locals and
    objects a loop body mutates are threaded as [st]. *)
Fixpoint for_ {St} (n i : nat) (body : nat -> St -> M St) (st : St) : M St :=
  match n with
  | 0 => ret st
  | S n' => st' <- body i st ;; for_ n' (S i) body st'
  end.

(** [for (let l = n - 1; l >= 0; l--) st = body(l, st)]. *)
Fixpoint for_down {St} (n : nat) (body : nat -> St -> M St) (st : St) : M St :=
  match n with
  | 0 => ret st
  | S l => st' <- body l st ;; for_down l body st'
  end.

(* ================================================================== *)
(** * JavaScript arrays *)

(** [a[i] = v]: replaces slot [i], or extends the array up to [i], the
    slots in between being holes that read as [hole]. *)
Fixpoint array_store {A} (hole : A) (a : list A) (i : nat) (v : A) : list A :=
  match i, a with
  | 0, [] => [v]
  | 0, _ :: t => v :: t
  | S i', [] => hole :: array_store hole [] i' v
  | S i', h :: t => h :: array_store hole t i' v
  end.

(* ================================================================== *)
(** * class Matrix *)

Record Matrix : Type := mkMatrix { data : list (list value) }.

(** What a variable or an array slot of the program can hold: a matrix
    operation answers a [Matrix] or [false], an array slot may be
    [undefined]. *)
Inductive jsval : Type :=
| VUndef
| VFalse
| VMat (m : Matrix).

(** Reading [.data], or calling a method, on something that is not a
    Matrix throws. *)
Definition as_mat (v : jsval) : M Matrix :=
  match v with
  | VMat m => ret m
  | _ => throw
  end.

(** [arr[i]] on an array of objects. *)
Definition aref (arr : list jsval) (i : nat) : jsval := nth i arr VUndef.

(** [size() { return [this.data.length, this.data[0].length]; }] *)
Definition size (this : Matrix) : M (nat * nat) :=
  match data this with
  | [] => throw
  | row0 :: _ => ret (length (data this), length row0)
  end.

(** [set(row, column, value) { this.data[row][column] = value; }] *)
Definition set (this : Matrix) (row column : nat) (v : value) : M Matrix :=
  match nth_error (data this) row with
  | None => throw
  | Some r => ret (mkMatrix (array_store [] (data this) row
                                         (array_store Undefined r column v)))
  end.

(** [get(row, column) { return this.data[row][column]; }] *)
Definition get (this : Matrix) (row column : nat) : M value :=
  match nth_error (data this) row with
  | None => throw
  | Some r => ret (nth column r Undefined)
  end.

(* ================================================================== *)
(** * [sigmoid] on IEEE-754 binary64 numbers *)

Module Double.

(** [sigmoid] as the engine evaluates it: [1], [+], [/] and unary minus
    are the binary64 operations, and [Math_exp] is the engine's
    [Math.exp] (ECMAScript fixes its value at [+0], [-0], the infinities
    and [NaN], and leaves it implementation-approximated elsewhere). *)
Definition sigmoid (Math_exp : float -> float) (x : float) : float :=
  (1 / (1 + Math_exp (- x)))%float.

(** [0 < y < 1] on binary64 numbers. *)
Definition strictly_inside (y : float) : bool :=
  (PrimFloat.ltb 0 y && PrimFloat.ltb y 1)%bool.

(** What the development relies on about the engine's [Math.exp]: its
    value at [-0], which ECMAScript fixes, and that it rounds to nearest,
    so that it underflows to [+0] from [-746] down ([e^(-746)] is below
    [2^(-1075)], half the least positive binary64 number) and overflows
    to [+Infinity] from [710] up ([e^710] is above the largest one). *)
Definition conforming (Math_exp : float -> float) : Prop :=
  Math_exp (- 0)%float = 1%float /\
  (forall x, PrimFloat.leb x (-746)%float = true -> Math_exp x = 0%float) /\
  (forall x, PrimFloat.leb 710%float x = true -> Math_exp x = infinity).

(** An engine that conforms: the values above where they are fixed, and
    [1] elsewhere, a range no statement below reads. *)
Definition coarse_exp (x : float) : float :=
  if PrimFloat.leb x (-746)%float then 0%float
  else if PrimFloat.leb 710%float x then infinity
  else 1%float.

(** [sigPrime] as the engine evaluates it, on the same terms. *)
Definition sigPrime (Math_exp : float -> float) (x : float) : float :=
  let exponent := Math_exp (- x)%float in
  (exponent / ((exponent + 1) * (exponent + 1)))%float.

(** [Math.exp] returns no negative number: whatever its argument, if it
    is not [NaN] the result is at least [0] ([+0] at [-Infinity],
    [+Infinity] at [+Infinity]). *)
Definition nonnegative (Math_exp : float -> float) : Prop :=
  forall x, PrimFloat.is_nan x = false ->
            PrimFloat.leb 0 (Math_exp x) = true.



(** A count as a Number. *)
Definition of_nat (n : nat) : float :=
  PrimFloat.of_uint63 (Uint63.of_Z (Z.of_nat n)).

(** What the loop of [getCost] leaves in [cost]: row [n] of [rows] holds
    the entry [a_n] of the last layer and the entry [y_n] of the target,
    and [cost += (a_n - y_n) * (a_n - y_n)] for [n] from [0] up. *)
Definition summed_squares (rows : list (float * float)) : float :=
  fold_left (fun cost p =>
               let value := (fst p - snd p)%float in
               let value := (value * value)%float in
               (cost + value)%float)
            rows 0%float.

(** [getCost] as the engine evaluates it: the sum divided by [nCount],
    the number of rows. *)
Definition getCost (rows : list (float * float)) : float :=
  (summed_squares rows / of_nat (length rows))%float.


End Double.

(* ================================================================== *)
(** * Rounding in binary64, after [SpecFloat] *)

(** Whether a shift to the right has dropped a bit that was set. *)
Definition lost (mrs : shr_record) : bool := shr_r mrs || shr_s mrs.

(** [y] is [x] after [k] shifts to the right: the mantissa is divided by
    [2 ^ k], and nothing is recorded as lost exactly when nothing was
    lost before and the division is exact. *)
Definition steps (k : BinNums.Z) (x y : shr_record) : Prop :=
  shr_m y = (shr_m x / 2 ^ k)%Z /\
  (lost y = false <-> lost x = false /\ (shr_m x mod 2 ^ k)%Z = 0%Z).

(** [1] when the location says that the mantissa is a truncation. *)
Definition inexact (l : location) : BinNums.Z :=
  match l with
  | loc_Exact => 0%Z
  | loc_Inexact _ => 1%Z
  end.

(** The binary64 number [1]: [2^52 * 2^(-52)]. *)
Definition SFone : spec_float := S754_finite false 4503599627370496 (-52).

Section Program.

(** The host's random stream: [Math_random k] is what the [k]-th call of
    [Math.random()] returns. *)
Variable Math_random : nat -> R.

(** The module-level arrays filled by [getTrainingData()]. *)
Variable imgData : list (list value).
Variable labels : list nat.

Definition Math_random_call : M value :=
  fun s => Ok (Num (Math_random s)) (S s).

(** [randomise()]: every slot becomes [Math.random() * 10 - 5]. *)
Definition randomise (this : Matrix) : M Matrix :=
  '(rows, columns) <- size this ;;
  for_ rows 0 (fun r this =>
    for_ columns 0 (fun c this =>
      v <- (x <- Math_random_call ;; ret (vsub (vmul x (Num 10)) (Num 5))) ;;
      set this r c v) this) this.

(** [constructor(rows, columns, val)]: [rows] copies of a row of [columns]
    times [val]; an omitted [val] is [undefined] and the matrix is then
    randomised. *)
Definition Matrix_new (rows columns : nat) (val : value) : M Matrix :=
  let row := repeat val columns in
  let this := mkMatrix (repeat row rows) in
  match val with
  | Undefined => randomise this
  | _ => ret this
  end.

(** [mult(matB)] *)
Definition mult (this matB : Matrix) : M jsval :=
  match data this with
  | [] => throw
  | row0 :: _ =>
    if negb (length row0 =? length (data matB)) then ret VFalse else
    let r := length (data this) in
    match data matB with
    | [] => throw
    | rowB0 :: _ =>
      let c := length rowB0 in
      let n := length row0 in
      result <- Matrix_new r c Undefined ;;
      result <- for_ r 0 (fun i result =>
        for_ c 0 (fun j result =>
          total <- for_ n 0 (fun k total =>
                     a <- get this i k ;;
                     b <- get matB k j ;;
                     ret (vadd total (vmul a b))) (Num 0) ;;
          set result i j total) result) result ;;
      ret (VMat result)
    end
  end.

(** The common shape of [add], [subtract] and [hadamard]. *)
Definition elementwise (op : value -> value -> value) (this matB : Matrix)
  : M jsval :=
  '(rows, columns) <- size this ;;
  '(bRows, bColumns) <- size matB ;;
  if negb (rows =? bRows) || negb (columns =? bColumns) then ret VFalse else
  result <- Matrix_new rows columns Undefined ;;
  result <- for_ rows 0 (fun i result =>
    for_ columns 0 (fun j result =>
      v <- (a <- get this i j ;; b <- get matB i j ;; ret (op a b)) ;;
      set result i j v) result) result ;;
  ret (VMat result).

Definition add : Matrix -> Matrix -> M jsval := elementwise vadd.
Definition subtract : Matrix -> Matrix -> M jsval := elementwise vsub.
Definition hadamard : Matrix -> Matrix -> M jsval := elementwise vmul.

(** [apply(f)]: in place. *)
Definition apply (this : Matrix) (f : value -> value) : M Matrix :=
  '(rows, columns) <- size this ;;
  for_ rows 0 (fun r this =>
    for_ columns 0 (fun c this =>
      v <- (x <- get this r c ;; ret (f x)) ;;
      set this r c v) this) this.

(** [scalarMult(multiplier)]: in place. *)
Definition scalarMult (this : Matrix) (multiplier : value) : M Matrix :=
  '(rows, columns) <- size this ;;
  for_ rows 0 (fun r this =>
    for_ columns 0 (fun c this =>
      v <- (x <- get this r c ;; ret (vmul x multiplier)) ;;
      set this r c v) this) this.

(** [transpose()]: fills a [columns] by [rows] matrix of zeros and takes
    its [data]. *)
Definition transpose (this : Matrix) : M Matrix :=
  '(rows, columns) <- size this ;;
  other <- Matrix_new columns rows (Num 0) ;;
  for_ rows 0 (fun r other =>
    for_ columns 0 (fun c other =>
      x <- get this r c ;;
      set other c r x) other) other.

(** [clone(matB)]: [this.data] becomes a row-by-row copy of [matB.data]. *)
Definition clone (this matB : Matrix) : M Matrix :=
  ret (mkMatrix (map (fun row => row) (data matB))).

(* ================================================================== *)
(** * class NNetwork *)

Record NNetwork : Type := mkNNetwork {
  weights : list jsval;
  activations : list jsval;
  Z : list jsval;
  biases : list jsval;
  layerCount : nat;
  structure : list nat;
  α : R
}.

Definition with_weights (this : NNetwork) (w : list jsval) : NNetwork :=
  mkNNetwork w (activations this) (Z this) (biases this)
             (layerCount this) (structure this) (α this).
Definition with_activations (this : NNetwork) (a : list jsval) : NNetwork :=
  mkNNetwork (weights this) a (Z this) (biases this)
             (layerCount this) (structure this) (α this).
Definition with_Z (this : NNetwork) (z : list jsval) : NNetwork :=
  mkNNetwork (weights this) (activations this) z (biases this)
             (layerCount this) (structure this) (α this).
Definition with_biases (this : NNetwork) (b : list jsval) : NNetwork :=
  mkNNetwork (weights this) (activations this) (Z this) b
             (layerCount this) (structure this) (α this).

(** [sizes[l]]; an index past the end reads [undefined], which as a loop
    bound means no iteration, like [0]. *)
Definition size_at (sizes : list nat) (l : nat) : nat := nth l sizes 0.

(** One round of the loop of the constructor. *)
Definition NNetwork_new_layer (sizes : list nat) (l : nat) (this : NNetwork)
  : M NNetwork :=
  this <- (if l <? length sizes - 1
           then w <- Matrix_new (size_at sizes (l + 1)) (size_at sizes l) Undefined ;;
                ret (with_weights this (weights this ++ [VMat w]))
           else ret this) ;;
  a <- Matrix_new (size_at sizes l) 1 (Num 0) ;;
  let this := with_activations this (activations this ++ [VMat a]) in
  z <- Matrix_new (size_at sizes l) 1 (Num 0) ;;
  let this := with_Z this (Z this ++ [VMat z]) in
  if 0 <? l
  then b <- Matrix_new (size_at sizes l) 1 Undefined ;;
       ret (with_biases this (biases this ++ [VMat b]))
  else ret this.

(** [constructor(sizes)] *)
Definition NNetwork_new (sizes : list nat) : M NNetwork :=
  let this := mkNNetwork [] [] [] [] (length sizes) sizes (1 / 100) in
  for_ (length sizes) 0 (NNetwork_new_layer sizes) this.

(** [calculate(l)]: the guard answers [false]; the normal path falls off
    the end and answers [undefined]. *)
Definition calculate (this : NNetwork) (l : BinNums.Z) : M (jsval * NNetwork) :=
  if (l <? 1)%Z then ret (VFalse, this) else
  let l := Z.to_nat l in
  W <- as_mat (aref (weights this) (l - 1)) ;;
  a <- as_mat (aref (activations this) (l - 1)) ;;
  wa0 <- mult W a ;;
  wa0 <- as_mat wa0 ;;
  b <- as_mat (aref (biases this) (l - 1)) ;;
  wab <- add wa0 b ;;
  Zl <- as_mat (aref (Z this) l) ;;
  wab <- as_mat wab ;;
  Zl <- clone Zl wab ;;
  let this := with_Z this (array_store VUndef (Z this) l (VMat Zl)) in
  wab <- apply wab sigmoid ;;
  ret (VUndef,
       with_activations this (array_store VUndef (activations this) l (VMat wab))).

(** [forwardProp(input)].  The bound [this.activations.length] of the
    second loop does not change while the loop runs. *)
Definition forwardProp (this : NNetwork) (input : nat) : M NNetwork :=
  a0 <- as_mat (aref (activations this) 0) ;;
  '(l0Length, _) <- size a0 ;;
  this <- for_ l0Length 0 (fun i this =>
    a0 <- as_mat (aref (activations this) 0) ;;
    px <- match nth_error imgData input with
          | None => throw
          | Some pixels => ret (nth i pixels Undefined)
          end ;;
    a0 <- set a0 i 0 px ;;
    ret (with_activations this (array_store VUndef (activations this) 0 (VMat a0))))
    this ;;
  for_ (length (activations this) - 1) 1 (fun l this =>
    '(_, this) <- calculate this (Z.of_nat l) ;;
    ret this) this.

(** [getCost(y)] *)
Definition getCost (this : NNetwork) (y : Matrix) : M value :=
  let layer := length (structure this) - 1 in
  let nCount := size_at (structure this) (length (structure this) - 1) in
  cost <- for_ nCount 0 (fun n cost =>
    A <- as_mat (aref (activations this) layer) ;;
    a <- get A n 0 ;;
    b <- get y n 0 ;;
    let value := vsub a b in
    let value := vmul value value in
    ret (vadd cost value)) (Num 0) ;;
  ret (vdiv cost (Num (INR nCount))).

(** The locals [CW], [CB], [AZ] and [X] of [backProp]. *)
Record gradients : Type := mkGradients {
  CW : list jsval;
  CB : list jsval;
  AZ : list jsval;
  X : list jsval
}.

(** One round of the loop of [backProp] that allocates the lists: it
    pushes onto [CW], [CB], [AZ] and [X]. *)
Definition backProp_allocate (this : NNetwork) (dCdA : Matrix) (i : nat)
           (g : gradients) : M gradients :=
  let s := structure this in
  cw <- Matrix_new (size_at s i) (size_at s (i - 1)) (Num 1) ;;
  cw <- clone cw dCdA ;;
  cb <- Matrix_new (size_at s i) 1 (Num 1) ;;
  cb <- clone cb dCdA ;;
  az <- Matrix_new (size_at s i) 1 (Num 1) ;;
  Zi <- as_mat (aref (Z this) i) ;;
  az <- clone az Zi ;;
  az <- apply az sigPrime ;;
  ret (mkGradients (CW g ++ [VMat cw]) (CB g ++ [VMat cb])
                   (AZ g ++ [VMat az]) (X g ++ [VUndef])).

(** One round of the loop of [backProp] that runs [l] from [layers - 1]
    down to [0]. *)
Definition backProp_layer (this : NNetwork) (Y : Matrix) (l : nat)
           (g : gradients) : M gradients :=
  let layers := length (structure this) in
  if l =? layers - 1 then
    Al <- as_mat (aref (activations this) l) ;;
    x <- subtract Al Y ;;
    x <- as_mat x ;;
    x <- scalarMult x (Num 2) ;;
    AZl <- as_mat (aref (AZ g) l) ;;
    x <- hadamard x AZl ;;
    ret (mkGradients (CW g) (CB g) (AZ g) (array_store VUndef (X g) l x))
  else
    x <- Matrix_new 1 1 (Num 1) ;;
    Wl <- as_mat (aref (weights this) l) ;;
    x <- clone x Wl ;;
    x <- transpose x ;;
    Xn <- as_mat (aref (X g) (l + 1)) ;;
    x <- mult x Xn ;;
    x <- as_mat x ;;
    AZl <- as_mat (aref (AZ g) l) ;;
    x <- hadamard x AZl ;;
    let X' := array_store VUndef (X g) l x in
    aTranspose <- Matrix_new 1 1 (Num 1) ;;
    Al <- as_mat (aref (activations this) l) ;;
    aTranspose <- clone aTranspose Al ;;
    aTranspose <- transpose aTranspose ;;
    Xn <- as_mat (aref X' (l + 1)) ;;
    cw <- mult Xn aTranspose ;;
    bTranspose <- Matrix_new 1 1 (Num 1) ;;
    Bl <- as_mat (aref (biases this) l) ;;
    bTranspose <- clone bTranspose Bl ;;
    cb <- hadamard Xn bTranspose ;;
    ret (mkGradients (array_store VUndef (CW g) l cw)
                     (array_store VUndef (CB g) l cb) (AZ g) X').

(** [backProp(index)], from its first line to the end of the loop that
    runs [l] from [layers - 1] down to [0].  With an empty [structure] the
    call [Y.set(desired, 0, 1)] throws, so [layers - 1] is never read as
    [-1]. *)
Definition backProp_gradients (this : NNetwork) (index : nat) : M gradients :=
  let s := structure this in
  Y <- Matrix_new (size_at s (length s - 1)) 1 (Num 0) ;;
  Y <- match nth_error labels index with
       | None => throw
       | Some desired => set Y desired 0 (Num 1)
       end ;;
  cost <- getCost this Y ;;
  let layers := length s in
  AL <- as_mat (aref (activations this) (layers - 1)) ;;
  dCdA <- subtract AL Y ;;
  dCdA <- as_mat dCdA ;;
  dCdA <- scalarMult dCdA (Num 2) ;;
  az0 <- Matrix_new (size_at s 0) 1 (Num 1) ;;
  Z0 <- as_mat (aref (Z this) 0) ;;
  az0 <- clone az0 Z0 ;;
  az0 <- apply az0 sigPrime ;;
  g <- for_ (layers - 1) 1 (backProp_allocate this dCdA)
            (mkGradients [] [] [VMat az0] [VUndef]) ;;
  for_down layers (backProp_layer this Y) g.

(** One round of the last loop of [backProp]: the update of layer [l]. *)
Definition backProp_update_layer (g : gradients) (l : nat) (this : NNetwork)
  : M NNetwork :=
  scaledW <- Matrix_new 1 1 (Num 1) ;;
  Wl <- as_mat (aref (weights this) l) ;;
  scaledW <- clone scaledW Wl ;;
  scaledW <- scalarMult scaledW (Num (α this)) ;;
  cw <- as_mat (aref (CW g) l) ;;
  scaledW <- hadamard scaledW cw ;;
  scaledW <- as_mat scaledW ;;
  newW <- subtract Wl scaledW ;;
  let this := with_weights this (array_store VUndef (weights this) l newW) in
  scaledB <- Matrix_new 1 1 (Num 1) ;;
  Bl <- as_mat (aref (biases this) l) ;;
  scaledB <- clone scaledB Bl ;;
  scaledB <- scalarMult scaledB (Num (α this)) ;;
  cb <- as_mat (aref (CB g) l) ;;
  scaledCB <- hadamard scaledB cb ;;
  scaledCB <- as_mat scaledCB ;;
  newB <- subtract Bl scaledCB ;;
  ret (with_biases this (array_store VUndef (biases this) l newB)).

(** [backProp(index)], the last loop: the parameter update. *)
Definition backProp_update (this : NNetwork) (g : gradients) : M NNetwork :=
  let layers := length (structure this) in
  for_ (layers - 1) 0 (backProp_update_layer g) this.

Definition backProp (this : NNetwork) (index : nat) : M NNetwork :=
  g <- backProp_gradients this index ;;
  backProp_update this g.

(** [train(count)]: every round is [forwardProp(0); backProp(0)]. *)
Definition train (this : NNetwork) (count : nat) : M NNetwork :=
  for_ count 0 (fun index this =>
    this <- forwardProp this 0 ;;
    backProp this 0) this.

(* ================================================================== *)
(** * Matrix algebra, as the specification writes it *)

(** Entry [(i, j)], as [get] reads it when row [i] exists. *)
Definition cell (m : Matrix) (i j : nat) : value :=
  nth j (nth i (data m) []) Undefined.

(** The matrix that [set(i, j, v)] leaves behind when row [i] exists. *)
Definition stored (m : Matrix) (i j : nat) (v : value) : Matrix :=
  mkMatrix (array_store [] (data m) i
                        (array_store Undefined (nth i (data m) []) j v)).

(** Entry [(i', j')] comes before [(i, j)] in the order in which two
    nested loops, rows outside and columns inside, visit the entries. *)
Definition written (i j i' j' : nat) : bool :=
  (i' <? i) || ((i' =? i) && (j' <? j)).

(** The [r] by [c] matrix whose entry [(i, j)] is [F i j]. *)
Definition tab (r c : nat) (F : nat -> nat -> value) : Matrix :=
  mkMatrix (map (fun i => map (F i) (seq 0 c)) (seq 0 r)).

Definition nrows (m : Matrix) : nat := length (data m).
Definition ncols (m : Matrix) : nat := length (nth 0 (data m) []).

(** [m] has [r] rows, each of [c] entries. *)
Definition rect (r c : nat) (m : Matrix) : Prop :=
  length (data m) = r /\ forall i, i < r -> length (nth i (data m) []) = c.

(** The slot holds a Matrix of [r] rows and [c] columns. *)
Definition shape (r c : nat) (v : jsval) : Prop :=
  exists m, v = VMat m /\ rect r c m.

(** [f 0 + f 1 + ... + f (n - 1)]. *)
Definition sum_upto (n : nat) (f : nat -> value) : value :=
  fold_left (fun total k => vadd total (f k)) (seq 0 n) (Num 0).

(** The matrix product [A . B]. *)
Definition mat_mul (A B : Matrix) : Matrix :=
  tab (nrows A) (ncols B)
      (fun i j => sum_upto (ncols A) (fun k => vmul (cell A i k) (cell B k j))).

Definition mat_zip (op : value -> value -> value) (A B : Matrix) : Matrix :=
  tab (nrows A) (ncols A) (fun i j => op (cell A i j) (cell B i j)).

(** [A + B], [A - B] and the Hadamard product. *)
Definition mat_add : Matrix -> Matrix -> Matrix := mat_zip vadd.
Definition mat_sub : Matrix -> Matrix -> Matrix := mat_zip vsub.
Definition mat_hadamard : Matrix -> Matrix -> Matrix := mat_zip vmul.

Definition mat_map (f : value -> value) (A : Matrix) : Matrix :=
  tab (nrows A) (ncols A) (fun i j => f (cell A i j)).

(** [k * A] for a scalar [k]. *)
Definition mat_scale (k : R) (A : Matrix) : Matrix :=
  mat_map (fun x => vmul (Num k) x) A.

(** [A] with every entry multiplied by [k] on the right, as
    [A.scalarMult(k)] leaves it. *)
Definition mat_times (A : Matrix) (k : R) : Matrix :=
  mat_map (fun x => vmul x (Num k)) A.

Definition mat_transpose (A : Matrix) : Matrix :=
  tab (ncols A) (nrows A) (fun i j => cell A j i).

(** A column vector. *)
Definition column (xs : list value) : Matrix :=
  mkMatrix (map (fun x => [x]) xs).

(** The one-hot column of length [n] with its [1] at [desired]. *)
Definition one_hot (n desired : nat) : Matrix :=
  tab n 1 (fun i _ => if i =? desired then Num 1 else Num 0).

(** What [Math.random() * 10 - 5] is at draw [k]. *)
Definition random_entry (k : nat) : value :=
  Num (Math_random k * 10 - 5).

(** Every entry of the matrix in slot [v] satisfies [P]. *)
Definition all_entries (P : value -> Prop) (v : jsval) : Prop :=
  exists m, v = VMat m /\
    forall i j, i < nrows m -> j < ncols m -> P (cell m i j).

(** The value is one that [randomise] writes. *)
Definition is_random_entry (v : value) : Prop := exists k, v = random_entry k.

(** The value is the number [x]. *)
Definition is_number (x : R) (v : value) : Prop := v = Num x.

(** The shape invariant of the weights and biases. *)
Definition shape_inv (net : NNetwork) : Prop :=
  forall l, l + 1 < length (structure net) ->
    shape (size_at (structure net) (l + 1)) (size_at (structure net) l)
          (aref (weights net) l) /\
    shape (size_at (structure net) (l + 1)) 1 (aref (biases net) l).

(** A network as the constructor builds it and as every method leaves
    it: at least one layer, no empty layer, and every slot of the four
    arrays a Matrix of the shape [structure] prescribes. *)
Definition well_formed (net : NNetwork) : Prop :=
  structure net <> [] /\
  (forall l, l < length (structure net) -> 1 <= size_at (structure net) l) /\
  length (activations net) = length (structure net) /\
  shape_inv net /\
  forall l, l < length (structure net) ->
    shape (size_at (structure net) l) 1 (aref (activations net) l) /\
    shape (size_at (structure net) l) 1 (aref (Z net) l).

(* ================================================================== *)
(** * The properties the claims speak of *)

(** A matrix operation answered [false]. *)
Definition answers_false (r : result jsval) : Prop :=
  exists s', r = Ok VFalse s'.

(** A matrix operation answered a Matrix of [r] rows and [c] columns. *)
Definition answers_matrix (r c : nat) (res : result jsval) : Prop :=
  exists C s', res = Ok (VMat C) s' /\ rect r c C.

(** Layer [l] of [net'] holds what one forward step computes from the
    parameters of [net] and from layer [l - 1] of [net'] itself. *)
Definition layer_computed (net net' : NNetwork) (l : nat) : Prop :=
  exists W a b,
    aref (weights net) (l - 1) = VMat W /\
    aref (activations net') (l - 1) = VMat a /\
    aref (biases net) (l - 1) = VMat b /\
    aref (Z net') l = VMat (mat_add (mat_mul W a) b) /\
    aref (activations net') l = VMat (mat_map sigmoid (mat_add (mat_mul W a) b)).

(** The input column: [imgData[input][i]] for [i] below the width of
    layer 0. *)
Definition input_column (net : NNetwork) (pixels : list value) : Matrix :=
  tab (size_at (structure net) 0) 1 (fun i _ => nth i pixels Undefined).

(** The error signal of the last layer. *)
Definition error_signal_top (net : NNetwork) (Y : Matrix) (g : gradients) : Prop :=
  let top := length (structure net) - 1 in
  exists a z,
    aref (activations net) top = VMat a /\
    aref (Z net) top = VMat z /\
    aref (X g) top
      = VMat (mat_hadamard (mat_scale 2 (mat_sub a Y)) (mat_map sigPrime z)).

(** The error signal of a layer [l] below the last. *)
Definition error_signal_at (net : NNetwork) (g : gradients) (l : nat) : Prop :=
  exists W xn z,
    aref (weights net) l = VMat W /\
    aref (X g) (l + 1) = VMat xn /\
    aref (Z net) l = VMat z /\
    aref (X g) l
      = VMat (mat_hadamard (mat_mul (mat_transpose W) xn) (mat_map sigPrime z)).

Definition weight_gradient_at (net : NNetwork) (g : gradients) (l : nat) : Prop :=
  exists xn a,
    aref (X g) (l + 1) = VMat xn /\
    aref (activations net) l = VMat a /\
    aref (CW g) l = VMat (mat_mul xn (mat_transpose a)).

Definition bias_gradient_at (net : NNetwork) (g : gradients) (l : nat) : Prop :=
  exists xn b,
    aref (X g) (l + 1) = VMat xn /\
    aref (biases net) l = VMat b /\
    aref (CB g) l = VMat (mat_hadamard xn b).

(** What the gradient part of [backProp] leaves in [X], [CW] and [CB]
    for a layer [l] below the last. *)
Definition gradients_at (net : NNetwork) (g : gradients) (l : nat) : Prop :=
  error_signal_at net g l /\ weight_gradient_at net g l /\
  bias_gradient_at net g l /\
  shape (size_at (structure net) (l + 1)) (size_at (structure net) l)
        (aref (CW g) l) /\
  shape (size_at (structure net) (l + 1)) 1 (aref (CB g) l).

(** Layer [l] of [net'] is layer [l] of [net] after the update with the
    gradients [g], operation for operation: the parameter is scaled by
    [alpha] ([scalarMult]), multiplied entry by entry with its gradient
    ([hadamard]) and the product taken from the parameter ([subtract]). *)
Definition updated_at (net : NNetwork) (g : gradients) (net' : NNetwork) (l : nat)
  : Prop :=
  exists W cw b cb,
    aref (weights net) l = VMat W /\ aref (CW g) l = VMat cw /\
    aref (biases net) l = VMat b /\ aref (CB g) l = VMat cb /\
    aref (weights net') l
      = VMat (mat_sub W (mat_hadamard (mat_times W (α net)) cw)) /\
    aref (biases net') l
      = VMat (mat_sub b (mat_hadamard (mat_times b (α net)) cb)).

(** Nothing but the weights and the biases differs. *)
Definition same_but_parameters (net net' : NNetwork) : Prop :=
  activations net' = activations net /\ Z net' = Z net /\
  layerCount net' = layerCount net /\ structure net' = structure net /\
  α net' = α net.

(** Nothing but the activations and the cache [Z] differs. *)
Definition same_parameters (net net' : NNetwork) : Prop :=
  weights net' = weights net /\ biases net' = biases net /\
  layerCount net' = layerCount net /\ structure net' = structure net /\
  α net' = α net.

(** What the loop of [getCost] leaves in [cost], operation for operation
    and in its order: [((0 + d_0 * d_0) + d_1 * d_1) + ...] with
    [d_i = a_i - y_i]. *)
Definition summed_squares (a y : list R) : value :=
  fold_left (fun cost p =>
               let value := vsub (Num (fst p)) (Num (snd p)) in
               let value := vmul value value in
               vadd cost value)
            (combine a y) (Num 0).

(** [x_1 + ... + x_n] for real numbers. *)
Definition Rsum (xs : list R) : R := fold_right Rplus 0%R xs.

(** The squared differences [(a_i - y_i)^2]. *)
Definition squared_errors (a y : list R) : list R :=
  map (fun p => ((fst p - snd p) * (fst p - snd p))%R) (combine a y).

(** A sample the training step can run on: the image exists, the label
    exists and names a neuron of the last layer. *)
Definition sample_ok (net : NNetwork) (index : nat) : Prop :=
  index < length imgData /\
  exists desired, nth_error labels index = Some desired /\
    desired < size_at (structure net) (length (structure net) - 1).

(* ================================================================== *)
(** * A two-layer network with one neuron per layer, for the examples *)

(** A host whose every draw of [Math.random()] is [0.9]. *)
Definition sample_random : nat -> R := fun _ => (9 / 10)%R.

Definition sample_imgData : list (list value) := [[Num 1]].
Definition sample_labels : list nat := [0].

Definition sample_net : NNetwork :=
  mkNNetwork [VMat (mkMatrix [[Num 1]])]
             [VMat (mkMatrix [[Num 0]]); VMat (mkMatrix [[Num 0]])]
             [VMat (mkMatrix [[Num 0]]); VMat (mkMatrix [[Num 0]])]
             [VMat (mkMatrix [[Num 0]])]
             2 [1; 1] (1 / 100).

(* ================================================================== *)
(** * Runs that answer alike *)

(** Two runs answer alike: both throw, or both return the same value;
    the draw counts they end with may differ. *)
Definition same_answer {A} (r1 r2 : result A) : Prop :=
  match r1, r2 with
  | Ok a _, Ok b _ => a = b
  | TypeError, TypeError => True
  | _, _ => False
  end.

(** Two computations answer alike from any two draw counts. *)
Definition alike {A} (m1 m2 : M A) : Prop :=
  forall s1 s2, same_answer (m1 s1) (m2 s2).

(* ================================================================== *)
(** * [getTrainingData] *)

(** [for (let i = i0; i < i0 + n; i++) st = body(i, st)] for a body that
    neither draws nor throws. *)
Fixpoint loop {St} (n i : nat) (body : nat -> St -> St) (st : St) : St :=
  match n with
  | 0 => st
  | S n' => loop n' (S i) body (body i st)
  end.

(** [buf[i]] on a [Buffer]: the byte as a number, [undefined] past the
    end. *)
Definition buffer_at (buf : list Init.Byte.byte) (i : nat) : value :=
  match nth_error buf i with
  | Some b => Num (INR (Strings.Byte.to_nat b))
  | None => Undefined
  end.

(** [getTrainingData()], given the contents of the two files and the
    module-level arrays [imgData] and [labels] it pushes onto.  A label
    is kept as the array slot holds it: a byte, or [undefined]. *)
#[warnings="-abstract-large-number"]
Definition getTrainingData (trainingImages trainingLabels : list Init.Byte.byte)
           (arrays : list (list value) * list value)
  : list (list value) * list value :=
  loop 60000 0 (fun i arrays =>
    let pixels :=
      loop (28 * 28) 0 (fun j pixels =>
        let imgOffset := i * 28 * 28 + 16 in
        pixels ++ [vdiv (buffer_at trainingImages (j + imgOffset)) (Num 255)])
        [] in
    let labelOffset := 8 in
    (fst arrays ++ [pixels],
     snd arrays ++ [buffer_at trainingLabels (i + labelOffset)])) arrays.

Unset Implicit Arguments.

(* ================================================================== *)
(** * Running computations *)

Lemma bind_Ok A B (m : M A) (k : A -> M B) s a s' :
  m s = Ok a s' -> bind m k s = k a s'.
Proof. intros H. unfold bind. now rewrite H. Qed.

Lemma bind_TypeError_l A B (m : M A) (k : A -> M B) s :
  m s = TypeError -> bind m k s = TypeError.
Proof. intros H. unfold bind. now rewrite H. Qed.

(** Runs the first computation of a [bind] with an equation for it. *)
Ltac run_with H := rewrite (bind_Ok _ _ _ _ _ _ _ H).

(** The loop rule: an invariant kept by every round holds at the end,
    and the loop does return. *)
Lemma for__inv St (P : nat -> St -> nat -> Prop) (body : nat -> St -> M St) n :
  forall i st s,
    P i st s ->
    (forall k st s, i <= k < i + n -> P k st s ->
       exists st' s', body k st s = Ok st' s' /\ P (S k) st' s') ->
    exists st' s', for_ n i body st s = Ok st' s' /\ P (i + n) st' s'.
Proof.
  induction n as [|n IH]; intros i st s HP Hstep; simpl.
  - exists st, s. rewrite Nat.add_0_r. now split.
  - destruct (Hstep i st s) as (st1 & s1 & Hb & HP1); [lia|assumption|].
    run_with Hb.
    destruct (IH (S i) st1 s1 HP1) as (st2 & s2 & Hf & HP2).
    + intros k st' s' Hk. apply Hstep. lia.
    + exists st2, s2. split; [assumption|].
      now replace (i + S n) with (S i + n) by lia.
Qed.

(** The same for a loop that counts down. *)
Lemma for_down_inv St (P : nat -> St -> nat -> Prop) (body : nat -> St -> M St) n :
  forall st s,
    P n st s ->
    (forall k st s, k < n -> P (S k) st s ->
       exists st' s', body k st s = Ok st' s' /\ P k st' s') ->
    exists st' s', for_down n body st s = Ok st' s' /\ P 0 st' s'.
Proof.
  induction n as [|n IH]; intros st s HP Hstep; simpl.
  - now exists st, s.
  - destruct (Hstep n st s) as (st1 & s1 & Hb & HP1); [lia|assumption|].
    run_with Hb.
    apply IH; [assumption|]. intros k st' s' Hk. apply Hstep. lia.
Qed.

(* ================================================================== *)
(** * Arrays *)

Lemma array_store_length A (h : A) a : forall i v,
  i < length a -> length (array_store h a i v) = length a.
Proof.
  induction a as [|x a IH]; intros [|i] v Hi; simpl in *; try lia.
  now rewrite IH by lia.
Qed.

Lemma nth_array_store_same A (h : A) : forall i a v d,
  nth i (array_store h a i v) d = v.
Proof.
  induction i as [|i IH]; intros [|x a] v d; simpl; auto.
Qed.

Lemma nth_array_store_other A (h : A) : forall i a j v,
  i <> j -> nth j (array_store h a i v) h = nth j a h.
Proof.
  induction i as [|i IH]; intros [|x a] [|j] v Hij; simpl; try congruence.
  - now destruct j.
  - rewrite IH by congruence. now destruct j.
  - apply IH. congruence.
Qed.

Lemma aref_store_same arr l v : aref (array_store VUndef arr l v) l = v.
Proof. apply nth_array_store_same. Qed.

Lemma aref_store_other arr l k v :
  l <> k -> aref (array_store VUndef arr l v) k = aref arr k.
Proof. apply nth_array_store_other. Qed.

Lemma aref_app_l arr v l : l < length arr -> aref (arr ++ [v]) l = aref arr l.
Proof. intros H. unfold aref. now rewrite app_nth1. Qed.

Lemma aref_app_last arr v : aref (arr ++ [v]) (length arr) = v.
Proof. unfold aref. rewrite app_nth2, Nat.sub_diag by lia. reflexivity. Qed.

(* ================================================================== *)
(** * Rectangular matrices *)

Lemma seq_nth_map A (F : nat -> A) d : forall n k i,
  i < n -> nth i (map F (seq k n)) d = F (k + i).
Proof.
  induction n as [|n IH]; intros k i Hi; [lia|].
  destruct i as [|i]; simpl.
  - now rewrite Nat.add_0_r.
  - rewrite IH by lia. f_equal. lia.
Qed.

Lemma cell_tab r c F i j : i < r -> j < c -> cell (tab r c F) i j = F i j.
Proof.
  intros Hi Hj. unfold cell, tab. simpl.
  rewrite (seq_nth_map _ (fun i => map (F i) (seq 0 c)) [] r 0 i Hi). simpl.
  now rewrite (seq_nth_map _ (F i) Undefined c 0 j Hj).
Qed.

Lemma rect_tab r c F : rect r c (tab r c F).
Proof.
  split; simpl.
  - now rewrite length_map, length_seq.
  - intros i Hi. rewrite (seq_nth_map _ (fun i => map (F i) (seq 0 c)) [] r 0 i Hi).
    now rewrite length_map, length_seq.
Qed.

Lemma nrows_tab r c F : nrows (tab r c F) = r.
Proof. unfold nrows. simpl. now rewrite length_map, length_seq. Qed.

Lemma ncols_tab r c F : 1 <= r -> ncols (tab r c F) = c.
Proof. intros Hr. unfold ncols. apply rect_tab. lia. Qed.

Lemma rect_nrows r c m : rect r c m -> nrows m = r.
Proof. now intros [H _]. Qed.

Lemma rect_ncols r c m : rect r c m -> 1 <= r -> ncols m = c.
Proof. intros [_ H] Hr. apply H. lia. Qed.

(** Two matrices of one shape with the same entries are the same. *)
Lemma rect_ext r c m m' :
  rect r c m -> rect r c m' ->
  (forall i j, i < r -> j < c -> cell m i j = cell m' i j) ->
  m = m'.
Proof.
  destruct m as [d], m' as [d']. unfold rect, cell. simpl.
  intros [Hr Hc] [Hr' Hc'] Hcell. f_equal.
  apply (nth_ext d d' [] []); [congruence|].
  intros i Hi.
  apply (nth_ext _ _ Undefined Undefined).
  - rewrite Hc, Hc' by lia. reflexivity.
  - intros j Hj. apply Hcell; [lia|]. rewrite Hc in Hj by lia. exact Hj.
Qed.

Lemma tab_ext r c F G :
  (forall i j, i < r -> j < c -> F i j = G i j) -> tab r c F = tab r c G.
Proof.
  intros H. apply (rect_ext r c _ _ (rect_tab r c F) (rect_tab r c G)).
  intros i j Hi Hj. rewrite !cell_tab by assumption. now apply H.
Qed.

Lemma repeat_is_tab r c v :
  mkMatrix (repeat (repeat v c) r) = tab r c (fun _ _ => v).
Proof.
  apply (rect_ext r c); [|apply rect_tab|].
  - split; simpl; [apply repeat_length|].
    intros i Hi. rewrite nth_repeat_lt by assumption. apply repeat_length.
  - intros i j Hi Hj. rewrite cell_tab by assumption. unfold cell. simpl.
    rewrite nth_repeat_lt by assumption. now rewrite nth_repeat_lt.
Qed.

Lemma column_is_tab xs :
  column xs = tab (length xs) 1 (fun i _ => nth i xs Undefined).
Proof.
  apply (rect_ext (length xs) 1); [|apply rect_tab|].
  - split; simpl; [apply length_map|].
    intros i Hi. rewrite (nth_indep _ [] [Undefined]) by now rewrite length_map.
    now rewrite (map_nth (fun x => [x])).
  - intros i j Hi Hj. rewrite cell_tab by assumption. unfold cell. simpl.
    rewrite (nth_indep _ [] [Undefined]) by now rewrite length_map.
    rewrite (map_nth (fun x => [x])). now replace j with 0 by lia.
Qed.

(** [size], [get] and [set] on a matrix that has the row. *)
Lemma size_rect r c m s : rect r c m -> 1 <= r -> size m s = Ok (r, c) s.
Proof.
  intros [Hr Hc] H1. unfold size. specialize (Hc 0 ltac:(lia)).
  destruct (data m) as [|row0 rest]; simpl in *; [lia|].
  unfold ret. now subst.
Qed.

Lemma size_nonempty m s :
  data m <> [] -> size m s = Ok (nrows m, ncols m) s.
Proof.
  unfold size, nrows, ncols. destruct (data m); [congruence|reflexivity].
Qed.

Lemma size_empty m s : data m = [] -> size m s = TypeError.
Proof. unfold size. now intros ->. Qed.

Lemma get_cell m i j s : i < nrows m -> get m i j s = Ok (cell m i j) s.
Proof.
  intros Hi. unfold get, cell, nrows in *.
  destruct (nth_error (data m) i) as [row|] eqn:E.
  - now rewrite (nth_error_nth _ _ [] E).
  - apply nth_error_None in E. lia.
Qed.

Lemma set_stored m i j v s : i < nrows m -> set m i j v s = Ok (stored m i j v) s.
Proof.
  intros Hi. unfold set, stored, nrows in *.
  destruct (nth_error (data m) i) as [row|] eqn:E.
  - now rewrite (nth_error_nth _ _ [] E).
  - apply nth_error_None in E. lia.
Qed.

Lemma rect_stored r c m i j v :
  rect r c m -> i < r -> j < c -> rect r c (stored m i j v).
Proof.
  intros [Hr Hc] Hi Hj. split; simpl.
  - rewrite array_store_length; lia.
  - intros k Hk. destruct (Nat.eq_dec i k) as [->|Hne].
    + rewrite nth_array_store_same, array_store_length; rewrite Hc; lia.
    + rewrite nth_array_store_other by assumption. now apply Hc.
Qed.

Lemma cell_stored m i j v a b :
  cell (stored m i j v) a b =
  if (a =? i) && (b =? j) then v else cell m a b.
Proof.
  unfold cell. simpl.
  destruct (Nat.eqb_spec a i) as [->|Hne]; simpl.
  - rewrite nth_array_store_same.
    destruct (Nat.eqb_spec b j) as [->|Hne].
    + apply nth_array_store_same.
    + apply nth_array_store_other. congruence.
  - rewrite nth_array_store_other by congruence. reflexivity.
Qed.

(* ================================================================== *)
(** * The two nested loops that write every entry *)

(** Rounds [i < r], [j < c] compute a value and store it at [(i, j)], or
    at [(j, i)] when [tr] is set.  Round [(i, j)] may read the entry it
    is about to overwrite and advances the random stream by [d]. *)
Lemma fill_loops (tr : bool) r c (g : nat -> nat -> Matrix -> M value)
      (V : nat -> nat -> nat -> value) d m0 s0 :
  rect (if tr then c else r) (if tr then r else c) m0 ->
  (forall i j m s, i < r -> j < c ->
     rect (if tr then c else r) (if tr then r else c) m ->
     cell m (if tr then j else i) (if tr then i else j)
       = cell m0 (if tr then j else i) (if tr then i else j) ->
     g i j m s = Ok (V s i j) (s + d)) ->
  for_ r 0 (fun i m =>
    for_ c 0 (fun j m =>
      v <- g i j m ;; set m (if tr then j else i) (if tr then i else j) v) m)
    m0 s0
  = Ok (tab (if tr then c else r) (if tr then r else c)
            (fun a b =>
               V (s0 + d * ((if tr then b else a) * c + (if tr then a else b)))
                 (if tr then b else a) (if tr then a else b)))
       (s0 + d * (r * c)).
Proof.
  intros Hrect Hg.
  set (R := if tr then c else r) in *. set (C := if tr then r else c) in *.
  set (sa := fun a b : nat => if tr then b else a).
  set (sb := fun a b : nat => if tr then a else b).
  assert (Hrange : forall a b, a < R -> b < C -> sa a b < r /\ sb a b < c).
  { intros a b. unfold sa, sb, R, C. destruct tr; lia. }
  set (Inv := fun i j (m : Matrix) (s : nat) =>
    rect R C m /\ s = s0 + d * (i * c + j) /\
    forall a b, a < R -> b < C ->
      cell m a b = if written i j (sa a b) (sb a b)
                   then V (s0 + d * (sa a b * c + sb a b)) (sa a b) (sb a b)
                   else cell m0 a b).
  assert (Hinner : forall i m s, i < r -> Inv i 0 m s ->
            exists m' s',
              for_ c 0 (fun j m => v <- g i j m ;;
                 set m (if tr then j else i) (if tr then i else j) v) m s
              = Ok m' s' /\ Inv (S i) 0 m' s').
  { intros i m s Hi HI.
    destruct (for__inv Matrix (fun j m s => Inv i j m s)
               (fun j m => v <- g i j m ;;
                  set m (if tr then j else i) (if tr then i else j) v)
               c 0 m s HI) as (m' & s' & Hf & HI').
    - intros j m1 s1 Hj (Hr1 & Hs1 & Hc1).
      assert (Hti : (if tr then j else i) < R /\ (if tr then i else j) < C).
      { unfold R, C. destruct tr; lia. }
      assert (Hsrc : sa (if tr then j else i) (if tr then i else j) = i /\
                     sb (if tr then j else i) (if tr then i else j) = j).
      { unfold sa, sb. destruct tr; auto. }
      rewrite (bind_Ok _ _ (g i j m1) _ s1 (V s1 i j) (s1 + d)).
      + rewrite set_stored by (rewrite (rect_nrows _ _ _ Hr1); lia).
        eexists _, _. split; [reflexivity|]. split; [|split].
        * apply rect_stored; tauto.
        * subst s1. lia.
        * intros a b Ha Hb. rewrite cell_stored, Hc1 by assumption.
          destruct (Hrange a b Ha Hb) as [Ha' Hb'].
          destruct ((a =? if tr then j else i) && (b =? if tr then i else j)) eqn:E.
          -- apply andb_true_iff in E. destruct E as [Ea Eb].
             apply Nat.eqb_eq in Ea, Eb. subst a b.
             destruct Hsrc as [-> ->]. unfold written.
             rewrite Nat.eqb_refl. replace (j <? S j) with true
               by (symmetry; apply Nat.ltb_lt; lia).
             rewrite orb_true_r. now subst s1.
          -- assert (Hne : ~ (sa a b = i /\ sb a b = j)).
             { intros [E1 E2]. apply andb_false_iff in E.
               unfold sa, sb in E1, E2.
               destruct E as [E|E]; apply Nat.eqb_neq in E; destruct tr; congruence. }
             assert (Hw : written i (S j) (sa a b) (sb a b)
                          = written i j (sa a b) (sb a b)).
             { unfold written. f_equal.
               destruct (Nat.eqb_spec (sa a b) i) as [Ei|Ei]; simpl; [|reflexivity].
               destruct (Nat.ltb_spec (sb a b) (S j)), (Nat.ltb_spec (sb a b) j);
                 try reflexivity; exfalso;
                 first [lia | apply Hne; split; [assumption|lia]]. }
             now rewrite Hw.
      + apply Hg; try lia; try assumption.
        rewrite Hc1 by tauto. destruct Hsrc as [-> ->].
        unfold written. rewrite Nat.ltb_irrefl, Nat.eqb_refl, Nat.ltb_irrefl.
        reflexivity.
    - exists m', s'. split; [exact Hf|].
      destruct HI' as (Hr' & Hs' & Hc'). split; [assumption|]. split; [lia|].
      intros a b Ha Hb. rewrite Hc' by assumption.
      destruct (Hrange a b Ha Hb) as [Ha' Hb'].
      replace (written (S i) 0 (sa a b) (sb a b))
        with (written i (0 + c) (sa a b) (sb a b)); [reflexivity|].
      unfold written. simpl.
      destruct (Nat.ltb_spec (sa a b) i), (Nat.eqb_spec (sa a b) i),
        (Nat.ltb_spec (sb a b) c), (Nat.ltb_spec (sa a b) (S i)),
        (Nat.eqb_spec (sa a b) (S i)); simpl; try reflexivity; lia. }
  destruct (for__inv Matrix (fun i m s => Inv i 0 m s)
             (fun i m => for_ c 0 (fun j m => v <- g i j m ;;
                set m (if tr then j else i) (if tr then i else j) v) m)
             r 0 m0 s0) as (m' & s' & Hf & (Hr' & Hs' & Hc')).
  - split; [assumption|]. split; [lia|]. intros a b Ha Hb.
    unfold written. simpl. now rewrite andb_false_r.
  - intros i m s Hi HI. apply Hinner; [lia|assumption].
  - rewrite Hf. f_equal; [|lia].
    apply (rect_ext R C _ _ Hr' (rect_tab R C _)).
    intros a b Ha Hb. rewrite Hc', cell_tab by assumption.
    destruct (Hrange a b Ha Hb) as [Ha' Hb'].
    unfold written. simpl.
    replace (sa a b <? r) with true by (symmetry; apply Nat.ltb_lt; lia).
    reflexivity.
Qed.

(* ================================================================== *)
(** * What each Matrix method returns *)

Lemma nonempty_rows m : data m <> [] <-> 1 <= nrows m.
Proof. unfold nrows. destruct (data m); simpl; split; intros; try congruence; lia. Qed.

Lemma rect_nonempty r c m : rect r c m -> 1 <= r -> data m <> [].
Proof. intros [H _] Hr. apply nonempty_rows. unfold nrows. lia. Qed.

Lemma randomise_spec r c m s :
  rect r c m -> 1 <= r ->
  randomise m s
  = Ok (tab r c (fun i j => random_entry (s + (i * c + j)))) (s + r * c).
Proof.
  intros Hm Hr. unfold randomise.
  run_with (size_rect _ _ _ s Hm Hr).
  rewrite (fill_loops false r c
             (fun _ _ _ => x <- Math_random_call ;;
                           ret (vsub (vmul x (Num 10)) (Num 5)))
             (fun s _ _ => random_entry s) 1 m s Hm).
  - f_equal; [|lia]. apply tab_ext. intros i j _ _. f_equal. lia.
  - intros i j m' s' _ _ _ _. unfold bind, Math_random_call, ret. simpl.
    unfold random_entry. f_equal. lia.
Qed.

Lemma Matrix_new_random r c s :
  1 <= r ->
  Matrix_new r c Undefined s
  = Ok (tab r c (fun i j => random_entry (s + (i * c + j)))) (s + r * c).
Proof.
  intros Hr. unfold Matrix_new. rewrite repeat_is_tab.
  apply randomise_spec; [apply rect_tab|assumption].
Qed.

Lemma Matrix_new_random_empty c s : Matrix_new 0 c Undefined s = TypeError.
Proof. reflexivity. Qed.

Lemma Matrix_new_fill r c x s :
  Matrix_new r c (Num x) s = Ok (tab r c (fun _ _ => Num x)) s.
Proof. unfold Matrix_new. now rewrite repeat_is_tab. Qed.

Lemma clone_spec this matB s : clone this matB s = Ok matB s.
Proof. unfold clone, ret. rewrite map_id. now destruct matB. Qed.

Lemma elementwise_spec op A B s :
  data A <> [] -> data B <> [] ->
  nrows A = nrows B -> ncols A = ncols B ->
  elementwise op A B s = Ok (VMat (mat_zip op A B)) (s + nrows A * ncols A).
Proof.
  intros HA HB Hr Hc. unfold elementwise.
  run_with (size_nonempty A s HA). run_with (size_nonempty B s HB).
  rewrite <- Hr, <- Hc, !Nat.eqb_refl. simpl.
  assert (H1 : 1 <= nrows A) by now apply nonempty_rows.
  run_with (Matrix_new_random _ (ncols A) s H1).
  rewrite (bind_Ok _ _ _ _ _ (mat_zip op A B) (s + nrows A * ncols A));
    [reflexivity|].
  rewrite (fill_loops false (nrows A) (ncols A)
             (fun i j _ => a <- get A i j ;; b <- get B i j ;; ret (op a b))
             (fun _ i j => op (cell A i j) (cell B i j)) 0 _ _ (rect_tab _ _ _)).
  - f_equal. lia.
  - intros i j m' s' Hi Hj _ _.
    rewrite (bind_Ok _ _ _ _ _ _ _ (get_cell A i j s' Hi)).
    rewrite (bind_Ok _ _ _ _ _ (cell B i j) s') by (apply get_cell; lia).
    unfold ret. f_equal. lia.
Qed.

Lemma elementwise_false op A B s :
  data A <> [] -> data B <> [] ->
  nrows A <> nrows B \/ ncols A <> ncols B ->
  elementwise op A B s = Ok VFalse s.
Proof.
  intros HA HB Hne. unfold elementwise.
  run_with (size_nonempty A s HA). run_with (size_nonempty B s HB).
  destruct (Nat.eqb_spec (nrows A) (nrows B)), (Nat.eqb_spec (ncols A) (ncols B));
    simpl; try reflexivity. tauto.
Qed.

(** On a matrix without rows the binary operations throw: [size] and
    [mult] read [this.data[0].length]. *)
Lemma binary_operations_need_a_row op A B s :
  data A = [] -> elementwise op A B s = TypeError /\ mult A B s = TypeError.
Proof.
  intros HA. split.
  - unfold elementwise, bind. now rewrite (size_empty A s HA).
  - unfold mult. now rewrite HA.
Qed.

Lemma sum_loop A B i j n : forall k total s,
  i < nrows A -> k + n <= nrows B ->
  for_ n k (fun k total =>
              a <- get A i k ;; b <- get B k j ;; ret (vadd total (vmul a b)))
       total s
  = Ok (fold_left (fun total k => vadd total (vmul (cell A i k) (cell B k j)))
                  (seq k n) total) s.
Proof.
  induction n as [|n IH]; intros k total s Hi Hk; simpl; [reflexivity|].
  rewrite (bind_Ok _ _ _ _ _ (vadd total (vmul (cell A i k) (cell B k j))) s).
  - apply IH; [assumption|lia].
  - rewrite (bind_Ok _ _ _ _ _ _ _ (get_cell A i k s Hi)).
    rewrite (bind_Ok _ _ _ _ _ (cell B k j) s) by (apply get_cell; lia).
    reflexivity.
Qed.

Lemma mult_spec A B s :
  data A <> [] -> data B <> [] -> ncols A = nrows B ->
  mult A B s = Ok (VMat (mat_mul A B)) (s + nrows A * ncols B).
Proof.
  intros HA HB Hc. unfold mult.
  assert (H1 : 1 <= nrows A) by now apply nonempty_rows.
  unfold ncols, nrows in *.
  destruct (data A) as [|row0 rowsA] eqn:EA; [congruence|].
  destruct (data B) as [|rowB0 rowsB] eqn:EB; [congruence|].
  simpl in Hc.
  replace (length row0 =? length (rowB0 :: rowsB)) with true
    by (symmetry; apply Nat.eqb_eq; exact Hc).
  cbn [negb].
  run_with (Matrix_new_random _ (length rowB0) s H1).
  rewrite (bind_Ok _ _ _ _ _ (mat_mul A B)
             (s + length (row0 :: rowsA) * length rowB0)); [reflexivity|].
  rewrite (fill_loops false (length (row0 :: rowsA)) (length rowB0)
             (fun i j _ => for_ (length row0) 0 (fun k total =>
                a <- get A i k ;; b <- get B k j ;; ret (vadd total (vmul a b)))
                (Num 0))
             (fun _ i j => sum_upto (length row0)
                (fun k => vmul (cell A i k) (cell B k j)))
             0 _ _ (rect_tab _ _ _)).
  - f_equal; [|lia]. unfold mat_mul, nrows, ncols. rewrite EA, EB. reflexivity.
  - intros i j m' s' Hi Hj _ _. rewrite sum_loop.
    + unfold sum_upto. f_equal. lia.
    + unfold nrows. now rewrite EA.
    + unfold nrows. rewrite EB, Hc. simpl. lia.
Qed.

Lemma mult_false A B s :
  data A <> [] -> ncols A <> nrows B -> mult A B s = Ok VFalse s.
Proof.
  intros HA Hc. unfold mult, ncols, nrows in *.
  destruct (data A) as [|row0 rowsA]; [congruence|]. simpl in Hc.
  apply Nat.eqb_neq in Hc. now rewrite Hc.
Qed.

Lemma in_place_spec (f : value -> value) r c m s :
  rect r c m -> 1 <= r ->
  for_ r 0 (fun i this =>
    for_ c 0 (fun j this =>
      v <- (x <- get this i j ;; ret (f x)) ;; set this i j v) this) m s
  = Ok (mat_map f m) s.
Proof.
  intros Hm Hr.
  rewrite (fill_loops false r c
             (fun i j this => x <- get this i j ;; ret (f x))
             (fun _ i j => f (cell m i j)) 0 m s Hm).
  - f_equal; [|lia]. unfold mat_map.
    now rewrite (rect_nrows _ _ _ Hm), (rect_ncols _ _ _ Hm Hr).
  - intros i j m' s' Hi Hj Hm' Hcell.
    rewrite (bind_Ok _ _ _ _ _ (cell m' i j) s')
      by (apply get_cell; rewrite (rect_nrows _ _ _ Hm'); lia).
    unfold ret. rewrite Hcell. f_equal. lia.
Qed.

Lemma apply_spec f r c m s :
  rect r c m -> 1 <= r -> apply m f s = Ok (mat_map f m) s.
Proof.
  intros Hm Hr. unfold apply. run_with (size_rect _ _ _ s Hm Hr).
  now apply in_place_spec.
Qed.

Lemma scalarMult_spec k r c m s :
  rect r c m -> 1 <= r ->
  scalarMult m k s = Ok (mat_map (fun x => vmul x k) m) s.
Proof.
  intros Hm Hr. unfold scalarMult. run_with (size_rect _ _ _ s Hm Hr).
  now apply (in_place_spec (fun x => vmul x k)).
Qed.

Lemma transpose_spec m s :
  data m <> [] -> transpose m s = Ok (mat_transpose m) s.
Proof.
  intros Hm. unfold transpose. run_with (size_nonempty m s Hm).
  run_with (Matrix_new_fill (ncols m) (nrows m) 0 s).
  rewrite (fill_loops true (nrows m) (ncols m)
             (fun i j _ => get m i j) (fun _ i j => cell m i j) 0 _ s
             (rect_tab _ _ _)).
  - f_equal. lia.
  - intros i j m' s' Hi Hj _ _. rewrite get_cell by assumption. f_equal. lia.
Qed.

(* ================================================================== *)
(** * Shapes of the algebraic operations *)

Lemma rect_mat_zip op r c A B : rect r c A -> 1 <= r -> rect r c (mat_zip op A B).
Proof.
  intros HA Hr. unfold mat_zip.
  rewrite (rect_nrows _ _ _ HA), (rect_ncols _ _ _ HA Hr). apply rect_tab.
Qed.

Lemma rect_mat_map f r c A : rect r c A -> 1 <= r -> rect r c (mat_map f A).
Proof.
  intros HA Hr. unfold mat_map.
  rewrite (rect_nrows _ _ _ HA), (rect_ncols _ _ _ HA Hr). apply rect_tab.
Qed.

Lemma rect_mat_mul r n c A B :
  rect r n A -> rect n c B -> 1 <= n -> rect r c (mat_mul A B).
Proof.
  intros HA HB Hn. unfold mat_mul.
  rewrite (rect_nrows _ _ _ HA), (rect_ncols _ _ _ HB Hn). apply rect_tab.
Qed.

Lemma rect_mat_transpose r c A :
  rect r c A -> 1 <= r -> rect c r (mat_transpose A).
Proof.
  intros HA Hr. unfold mat_transpose.
  rewrite (rect_nrows _ _ _ HA), (rect_ncols _ _ _ HA Hr). apply rect_tab.
Qed.

Lemma vmul_comm a b : vmul a b = vmul b a.
Proof.
  destruct a, b; simpl; try reflexivity. unfold vmul. simpl. f_equal. ring.
Qed.

Lemma mat_scale_right k A : mat_map (fun x => vmul x (Num k)) A = mat_scale k A.
Proof.
  unfold mat_scale, mat_map. apply tab_ext. intros. apply vmul_comm.
Qed.

Lemma cell_mat_zip op r c A B i j :
  rect r c A -> i < r -> j < c ->
  cell (mat_zip op A B) i j = op (cell A i j) (cell B i j).
Proof.
  intros HA Hi Hj. unfold mat_zip.
  rewrite (rect_nrows _ _ _ HA), (rect_ncols _ _ _ HA ltac:(lia)).
  now rewrite cell_tab.
Qed.

Lemma cell_mat_map f r c A i j :
  rect r c A -> i < r -> j < c -> cell (mat_map f A) i j = f (cell A i j).
Proof.
  intros HA Hi Hj. unfold mat_map.
  rewrite (rect_nrows _ _ _ HA), (rect_ncols _ _ _ HA ltac:(lia)).
  now rewrite cell_tab.
Qed.

(** The one-hot target that [backProp] builds with [new Matrix] and
    [set]. *)
Lemma stored_one_hot n desired :
  desired < n ->
  stored (tab n 1 (fun _ _ => Num 0)) desired 0 (Num 1) = one_hot n desired.
Proof.
  intros Hd. apply (rect_ext n 1).
  - apply rect_stored; [apply rect_tab|assumption|lia].
  - apply rect_tab.
  - intros i j Hi Hj. unfold one_hot.
    rewrite cell_stored, !cell_tab by assumption.
    replace j with 0 by lia. rewrite Nat.eqb_refl, andb_true_r. reflexivity.
Qed.

(* ================================================================== *)
(** * [calculate] and [forwardProp] *)

Lemma as_mat_VMat m s : as_mat (VMat m) s = Ok m s.
Proof. reflexivity. Qed.

Lemma calculate_spec net l n k W a b z s :
  1 <= l -> 1 <= n -> 1 <= k ->
  aref (weights net) (l - 1) = VMat W -> rect n k W ->
  aref (activations net) (l - 1) = VMat a -> rect k 1 a ->
  aref (biases net) (l - 1) = VMat b -> rect n 1 b ->
  aref (Z net) l = VMat z ->
  calculate net (Z.of_nat l) s
  = Ok (VUndef,
        with_activations
          (with_Z net (array_store VUndef (Z net) l
                                   (VMat (mat_add (mat_mul W a) b))))
          (array_store VUndef (activations net) l
             (VMat (mat_map sigmoid (mat_add (mat_mul W a) b)))))
       (s + 2 * n).
Proof.
  intros Hl Hn Hk HW HrW Ha Hra Hb Hrb Hz. unfold calculate.
  replace (Z.of_nat l <? 1)%Z with false by (symmetry; apply Z.ltb_ge; lia).
  rewrite Nat2Z.id, HW, Ha, Hb, Hz.
  assert (Hmul : rect n 1 (mat_mul W a)) by (apply (rect_mat_mul n k 1); assumption).
  assert (Hadd : rect n 1 (mat_add (mat_mul W a) b)) by now apply rect_mat_zip.
  run_with (as_mat_VMat W s). run_with (as_mat_VMat a s).
  rewrite (bind_Ok _ _ _ _ _ (VMat (mat_mul W a)) (s + n * 1)).
  2:{ rewrite mult_spec.
      - now rewrite (rect_nrows _ _ _ HrW), (rect_ncols _ _ _ Hra Hk).
      - now apply (rect_nonempty n k).
      - now apply (rect_nonempty k 1).
      - now rewrite (rect_ncols _ _ _ HrW Hn), (rect_nrows _ _ _ Hra). }
  run_with (as_mat_VMat (mat_mul W a) (s + n * 1)).
  run_with (as_mat_VMat b (s + n * 1)).
  rewrite (bind_Ok _ _ _ _ _ (VMat (mat_add (mat_mul W a) b)) (s + 2 * n)).
  2:{ unfold add. rewrite elementwise_spec.
      - rewrite (rect_nrows _ _ _ Hmul), (rect_ncols _ _ _ Hmul Hn). f_equal. lia.
      - now apply (rect_nonempty n 1).
      - now apply (rect_nonempty n 1).
      - now rewrite (rect_nrows _ _ _ Hmul), (rect_nrows _ _ _ Hrb).
      - now rewrite (rect_ncols _ _ _ Hmul Hn), (rect_ncols _ _ _ Hrb Hn). }
  run_with (as_mat_VMat z (s + 2 * n)).
  run_with (as_mat_VMat (mat_add (mat_mul W a) b) (s + 2 * n)).
  run_with (clone_spec z (mat_add (mat_mul W a) b) (s + 2 * n)).
  run_with (apply_spec sigmoid n 1 _ (s + 2 * n) Hadd Hn).
  reflexivity.
Qed.

Lemma shape_VMat r c m : rect r c m -> shape r c (VMat m).
Proof. intros H. now exists m. Qed.

(** Reduces the field reads of an updated network. *)
Ltac fields :=
  cbn [weights activations Z biases layerCount structure α
       with_weights with_activations with_Z with_biases CW CB AZ X] in *.

Lemma aref_store_length arr l v :
  l < length arr -> length (array_store VUndef arr l v) = length arr.
Proof. apply array_store_length. Qed.

(** The first loop of [forwardProp]: layer 0 receives the pixels. *)
Lemma forwardProp_input net pixels input a0 n s :
  nth_error imgData input = Some pixels ->
  aref (activations net) 0 = VMat a0 -> rect n 1 a0 ->
  exists this,
    for_ n 0 (fun i this =>
      a0 <- as_mat (aref (activations this) 0) ;;
      px <- match nth_error imgData input with
            | None => throw
            | Some pixels => ret (nth i pixels Undefined)
            end ;;
      a0 <- set a0 i 0 px ;;
      ret (with_activations this
             (array_store VUndef (activations this) 0 (VMat a0)))) net s
    = Ok this s /\
    this = with_activations net
             (array_store VUndef (activations net) 0
                (VMat (tab n 1 (fun i _ => nth i pixels Undefined)))).
Proof.
  intros Hpx Ha0 Hr0.
  destruct (for__inv NNetwork
    (fun i this s' =>
       s' = s /\ exists m,
         this = with_activations net
                  (array_store VUndef (activations net) 0 (VMat m)) /\
         rect n 1 m /\
         forall k, k < n ->
           cell m k 0 = if k <? i then nth k pixels Undefined else cell a0 k 0)
    (fun i this =>
      a0 <- as_mat (aref (activations this) 0) ;;
      px <- match nth_error imgData input with
            | None => throw
            | Some pixels => ret (nth i pixels Undefined)
            end ;;
      a0 <- set a0 i 0 px ;;
      ret (with_activations this
             (array_store VUndef (activations this) 0 (VMat a0))))
    n 0 net s) as (this & s' & Hf & Hs' & m & Hthis & Hm & Hcells).
  - split; [reflexivity|]. exists a0. split; [|split; [assumption|]].
    + destruct net as [w a z b lc st al]. unfold with_activations. simpl in *.
      f_equal. unfold aref in Ha0. destruct a as [|x a]; simpl in *.
      * discriminate.
      * now subst x.
    + intros k Hk. reflexivity.
  - intros i this s1 Hi (-> & m & -> & Hm & Hcells). fields.
    rewrite aref_store_same, Hpx.
    run_with (as_mat_VMat m s).
    rewrite (bind_Ok _ _ _ _ _ (nth i pixels Undefined) s) by reflexivity.
    rewrite (bind_Ok _ _ _ _ _ (stored m i 0 (nth i pixels Undefined)) s)
      by (apply set_stored; rewrite (rect_nrows _ _ _ Hm); lia).
    eexists _, _. split; [reflexivity|]. split; [reflexivity|].
    exists (stored m i 0 (nth i pixels Undefined)). split; [|split].
    + unfold with_activations. simpl. f_equal.
      destruct (activations net); reflexivity.
    + apply rect_stored; [assumption|lia|lia].
    + intros k Hk. rewrite cell_stored, Hcells by assumption. simpl.
      rewrite andb_true_r.
      destruct (Nat.eqb_spec k i) as [->|Hne].
      * replace (i <? S i) with true by (symmetry; apply Nat.ltb_lt; lia).
        reflexivity.
      * destruct (Nat.ltb_spec k (S i)), (Nat.ltb_spec k i); try reflexivity; lia.
  - subst s'. exists this. split; [assumption|]. rewrite Hthis. do 3 f_equal.
    apply (rect_ext n 1); [assumption|apply rect_tab|].
    intros i j Hi Hj. replace j with 0 by lia.
    rewrite Hcells, cell_tab by lia.
    now replace (i <? 0 + n) with true by (symmetry; apply Nat.ltb_lt; lia).
Qed.

Lemma forwardProp_spec net input pixels s :
  well_formed net -> nth_error imgData input = Some pixels ->
  exists net' s',
    forwardProp net input s = Ok net' s' /\
    same_parameters net net' /\ well_formed net' /\
    aref (activations net') 0 = VMat (input_column net pixels) /\
    forall l, 1 <= l < length (structure net) -> layer_computed net net' l.
Proof.
  intros (Hne & Hpos & Hlen & Hsh & Hact) Hpx.
  assert (HL : 1 <= length (structure net))
    by (destruct (structure net); simpl; [congruence|lia]).
  destruct (Hact 0 HL) as [(a0 & Ha0 & Hra0) _].
  unfold forwardProp. rewrite Ha0. run_with (as_mat_VMat a0 s).
  run_with (size_rect _ _ _ s Hra0 (Hpos 0 HL)).
  destruct (forwardProp_input net pixels input a0 _ s Hpx Ha0 Hra0)
    as (this & Hloop & Hthis).
  run_with Hloop.
  assert (Hlen' : length (activations this) = length (structure net)).
  { rewrite Hthis. fields. rewrite aref_store_length; lia. }
  rewrite Hlen'.
  set (Q := fun k net' (s' : nat) =>
    same_parameters net net' /\
    length (activations net') = length (structure net) /\
    aref (activations net') 0 = VMat (input_column net pixels) /\
    (forall l, l < length (structure net) ->
       shape (size_at (structure net) l) 1 (aref (activations net') l) /\
       shape (size_at (structure net) l) 1 (aref (Z net') l)) /\
    forall l, 1 <= l < k -> layer_computed net net' l).
  destruct (for__inv NNetwork Q
    (fun l this => '(_, this) <- calculate this (Z.of_nat l) ;; ret this)
    (length (structure net) - 1) 1 this s)
    as (net' & s' & Hf & HQ).
  - rewrite Hthis. unfold Q. fields. split; [repeat split|].
    split; [rewrite aref_store_length; lia|].
    split; [apply aref_store_same|]. split; [|intros l Hl; lia].
    intros l Hl. destruct (Nat.eq_dec l 0) as [->|Hl0].
    + rewrite aref_store_same. split; [|apply Hact; lia].
      apply shape_VMat, rect_tab.
    + rewrite aref_store_other by lia. now apply Hact.
  - intros k cur s1 Hk (Hsame & Hlenk & Hin & Hshapes & Hdone).
    destruct Hsame as (Hw & Hb & Hlc & Hst & Hal).
    destruct (Hsh (k - 1) ltac:(lia)) as [(W & HW & HrW) (b & Hbk & Hrb)].
    replace (k - 1 + 1) with k in * by lia.
    destruct (Hshapes (k - 1) ltac:(lia)) as [(a & Ha & Hra) _].
    destruct (Hshapes k ltac:(lia)) as [_ (z & Hz & Hrz)].
    rewrite <- Hw in HW. rewrite <- Hb in Hbk.
    rewrite (bind_Ok _ _ _ _ _ _ _
               (calculate_spec cur k _ _ W a b z s1 ltac:(lia)
                  (Hpos k ltac:(lia)) (Hpos (k - 1) ltac:(lia))
                  HW HrW Ha Hra Hbk Hrb Hz)).
    eexists _, _. split; [reflexivity|].
    assert (Hmul : rect (size_at (structure net) k) 1 (mat_mul W a)).
    { apply (rect_mat_mul _ (size_at (structure net) (k - 1)) 1); try assumption.
      apply Hpos. lia. }
    assert (Hadd : rect (size_at (structure net) k) 1 (mat_add (mat_mul W a) b)).
    { apply rect_mat_zip; [assumption|]. apply Hpos. lia. }
    unfold Q. fields. split; [repeat split; assumption|].
    split; [rewrite aref_store_length; lia|].
    split; [rewrite aref_store_other by lia; assumption|]. split.
    + intros l Hl. destruct (Nat.eq_dec l k) as [->|Hlk].
      * rewrite !aref_store_same. split; apply shape_VMat; [|assumption].
        apply rect_mat_map; [assumption|]. apply Hpos. lia.
      * rewrite !aref_store_other by lia. now apply Hshapes.
    + intros l Hl. destruct (Nat.eq_dec l k) as [->|Hlk].
      * exists W, a, b. rewrite Hw in HW. rewrite Hb in Hbk. fields.
        rewrite !aref_store_same, aref_store_other by lia. tauto.
      * destruct (Hdone l ltac:(lia)) as (W' & a' & b' & H1 & H2 & H3 & H4 & H5).
        exists W', a', b'. fields. rewrite !aref_store_other by lia. tauto.
  - exists net', s'. split; [exact Hf|].
    destruct HQ as (Hsame & Hlenk & Hin & Hshapes & Hdone).
    split; [assumption|].
    destruct Hsame as (Hw & Hb & Hlc & Hst & Hal).
    split; [|split; [assumption|]].
    + unfold well_formed, shape_inv. rewrite Hst, Hw, Hb. tauto.
    + intros l Hl. apply Hdone. lia.
Qed.

(* ================================================================== *)
(** * [getCost] *)

(** The cost of one neuron: [(a - y) * (a - y)]. *)
Lemma cost_loop A y n : forall k cost s,
  k + n <= nrows A -> k + n <= nrows y ->
  for_ n k (fun n cost =>
              a <- get A n 0 ;;
              b <- get y n 0 ;;
              let value := vsub a b in
              let value := vmul value value in
              ret (vadd cost value)) cost s
  = Ok (fold_left
          (fun cost n => vadd cost (vmul (vsub (cell A n 0) (cell y n 0))
                                         (vsub (cell A n 0) (cell y n 0))))
          (seq k n) cost) s.
Proof.
  induction n as [|n IH]; intros k cost s HA Hy; simpl; [reflexivity|].
  rewrite (bind_Ok _ _ _ _ _
             (vadd cost (vmul (vsub (cell A k 0) (cell y k 0))
                              (vsub (cell A k 0) (cell y k 0)))) s).
  - apply IH; lia.
  - rewrite (bind_Ok _ _ _ _ _ (cell A k 0) s) by (apply get_cell; lia).
    rewrite (bind_Ok _ _ _ _ _ (cell y k 0) s) by (apply get_cell; lia).
    reflexivity.
Qed.

Lemma getCost_spec net A y s :
  let n := size_at (structure net) (length (structure net) - 1) in
  aref (activations net) (length (structure net) - 1) = VMat A ->
  n <= nrows A -> n <= nrows y ->
  getCost net y s
  = Ok (vdiv (fold_left
                (fun cost n => vadd cost (vmul (vsub (cell A n 0) (cell y n 0))
                                               (vsub (cell A n 0) (cell y n 0))))
                (seq 0 n) (Num 0))
             (Num (INR n))) s.
Proof.
  intros n HA HnA Hny. unfold getCost. fold n. rewrite HA.
  change (as_mat (VMat A)) with (@ret Matrix A).
  rewrite (bind_Ok _ _ _ _ _ _ s (cost_loop A y n 0 (Num 0) s HnA Hny)).
  reflexivity.
Qed.

Lemma cell_column_Num xs k :
  k < length xs -> cell (column (map Num xs)) k 0 = Num (nth k xs 0%R).
Proof.
  intros Hk. rewrite column_is_tab, cell_tab; rewrite ?length_map; try lia.
  rewrite (nth_indep _ Undefined (Num 0)) by now rewrite length_map.
  apply (map_nth Num).
Qed.

Lemma fold_squared_errors (F : nat -> value) : forall a y k t,
  length a = length y ->
  (forall i, i < length a ->
     F (k + i) = Num ((nth i a 0 - nth i y 0) * (nth i a 0 - nth i y 0))%R) ->
  fold_left (fun cost n => vadd cost (F n)) (seq k (length a)) (Num t)
  = Num (t + Rsum (squared_errors a y)).
Proof.
  induction a as [|x a IH]; intros [|x' y] k t Hlen HF; simpl in *; try lia.
  - f_equal. unfold Rsum. simpl. ring.
  - assert (H0 := HF 0 ltac:(lia)). rewrite Nat.add_0_r in H0. rewrite H0. simpl.
    rewrite (IH y (S k)).
    + f_equal. unfold Rsum, squared_errors. simpl. ring.
    + lia.
    + intros i Hi. replace (S k + i) with (k + S i) by lia.
      rewrite HF by lia. reflexivity.
Qed.


(* ================================================================== *)
(** * The Matrix methods on matrices of known shape *)

Lemma elementwise_rect op r c A B s :
  rect r c A -> rect r c B -> 1 <= r ->
  elementwise op A B s = Ok (VMat (mat_zip op A B)) (s + r * c).
Proof.
  intros HA HB Hr. rewrite elementwise_spec.
  - now rewrite (rect_nrows _ _ _ HA), (rect_ncols _ _ _ HA Hr).
  - now apply (rect_nonempty r c).
  - now apply (rect_nonempty r c).
  - now rewrite (rect_nrows _ _ _ HA), (rect_nrows _ _ _ HB).
  - now rewrite (rect_ncols _ _ _ HA Hr), (rect_ncols _ _ _ HB Hr).
Qed.

Lemma mult_rect r n c A B s :
  rect r n A -> rect n c B -> 1 <= r -> 1 <= n ->
  mult A B s = Ok (VMat (mat_mul A B)) (s + r * c).
Proof.
  intros HA HB Hr Hn. rewrite mult_spec.
  - now rewrite (rect_nrows _ _ _ HA), (rect_ncols _ _ _ HB Hn).
  - now apply (rect_nonempty r n).
  - now apply (rect_nonempty n c).
  - now rewrite (rect_ncols _ _ _ HA Hr), (rect_nrows _ _ _ HB).
Qed.

Lemma transpose_rect r c A s :
  rect r c A -> 1 <= r -> transpose A s = Ok (mat_transpose A) s.
Proof. intros HA Hr. apply transpose_spec. now apply (rect_nonempty r c). Qed.

(* ================================================================== *)
(** * [backProp]: the error signals and the gradients *)

(** The top round: [X[L] = 2 (A[L] - Y) o sigPrime(Z[L])]. *)
Lemma backProp_layer_top net Y g a z n s :
  let top := length (structure net) - 1 in
  1 <= n -> rect n 1 Y ->
  aref (activations net) top = VMat a -> rect n 1 a ->
  aref (AZ g) top = VMat (mat_map sigPrime z) -> rect n 1 z ->
  backProp_layer net Y top g s
  = Ok (mkGradients (CW g) (CB g) (AZ g)
          (array_store VUndef (X g) top
             (VMat (mat_hadamard (mat_scale 2 (mat_sub a Y))
                                 (mat_map sigPrime z)))))
       (s + 2 * n).
Proof.
  intros top Hn HY Ha Hra HAZ Hrz. unfold backProp_layer. fold top.
  rewrite Nat.eqb_refl, Ha, HAZ.
  assert (Hsub : rect n 1 (mat_sub a Y)) by now apply rect_mat_zip.
  run_with (as_mat_VMat a s).
  run_with (elementwise_rect vsub n 1 a Y s Hra HY Hn).
  run_with (as_mat_VMat (mat_sub a Y) (s + n * 1)).
  run_with (scalarMult_spec (Num 2) n 1 _ (s + n * 1) Hsub Hn).
  run_with (as_mat_VMat (mat_map sigPrime z) (s + n * 1)).
  rewrite mat_scale_right.
  assert (Hsc : rect n 1 (mat_scale 2 (mat_sub a Y))) by now apply rect_mat_map.
  assert (Hsp : rect n 1 (mat_map sigPrime z)) by now apply rect_mat_map.
  run_with (elementwise_rect vmul n 1 _ _ (s + n * 1) Hsc Hsp Hn).
  unfold ret. f_equal. lia.
Qed.

(** A round below the top: [X[l]], [CW[l]] and [CB[l]]. *)
Lemma backProp_layer_below net Y g l W xn z a b n k s :
  l <> length (structure net) - 1 ->
  1 <= n -> 1 <= k ->
  aref (weights net) l = VMat W -> rect n k W ->
  aref (X g) (l + 1) = VMat xn -> rect n 1 xn ->
  aref (AZ g) l = VMat (mat_map sigPrime z) -> rect k 1 z ->
  aref (activations net) l = VMat a -> rect k 1 a ->
  aref (biases net) l = VMat b -> rect n 1 b ->
  exists s',
    backProp_layer net Y l g s
    = Ok (mkGradients
            (array_store VUndef (CW g) l (VMat (mat_mul xn (mat_transpose a))))
            (array_store VUndef (CB g) l (VMat (mat_hadamard xn b)))
            (AZ g)
            (array_store VUndef (X g) l
               (VMat (mat_hadamard (mat_mul (mat_transpose W) xn)
                                   (mat_map sigPrime z))))) s'.
Proof.
  intros Hl Hn Hk HW HrW HX Hrx HAZ Hrz Ha Hra Hb Hrb.
  unfold backProp_layer.
  replace (l =? length (structure net) - 1) with false
    by (symmetry; now apply Nat.eqb_neq).
  rewrite HW, HX, HAZ, Ha, Hb.
  assert (HWt : rect k n (mat_transpose W)) by now apply rect_mat_transpose.
  assert (Hat : rect 1 k (mat_transpose a)) by now apply rect_mat_transpose.
  assert (Hmul : rect k 1 (mat_mul (mat_transpose W) xn))
    by now apply (rect_mat_mul k n 1).
  assert (Hsp : rect k 1 (mat_map sigPrime z)) by now apply rect_mat_map.
  run_with (Matrix_new_fill 1 1 1 s).
  run_with (as_mat_VMat W s).
  run_with (clone_spec (tab 1 1 (fun _ _ => Num 1)) W s).
  run_with (transpose_rect n k W s HrW Hn).
  run_with (as_mat_VMat xn s).
  run_with (mult_rect k n 1 _ _ s HWt Hrx Hk Hn).
  run_with (as_mat_VMat (mat_mul (mat_transpose W) xn) (s + k * 1)).
  run_with (as_mat_VMat (mat_map sigPrime z) (s + k * 1)).
  run_with (elementwise_rect vmul k 1 _ _ (s + k * 1) Hmul Hsp Hk).
  set (s1 := s + k * 1 + k * 1).
  run_with (Matrix_new_fill 1 1 1 s1).
  run_with (as_mat_VMat a s1).
  run_with (clone_spec (tab 1 1 (fun _ _ => Num 1)) a s1).
  run_with (transpose_rect k 1 a s1 Hra Hk).
  rewrite aref_store_other by lia. rewrite HX.
  run_with (as_mat_VMat xn s1).
  run_with (mult_rect n 1 k _ _ s1 Hrx Hat Hn (le_n 1)).
  set (s2 := s1 + n * k).
  run_with (Matrix_new_fill 1 1 1 s2).
  run_with (as_mat_VMat b s2).
  run_with (clone_spec (tab 1 1 (fun _ _ => Num 1)) b s2).
  run_with (elementwise_rect vmul n 1 _ _ s2 Hrx Hrb Hn).
  eexists. reflexivity.
Qed.

Lemma well_formed_layers net : well_formed net -> 1 <= length (structure net).
Proof.
  intros (Hne & _). destruct (structure net); simpl; [congruence|lia].
Qed.

(** The loop that allocates [CW], [CB], [AZ] and [X]: afterwards [AZ[l]]
    is [sigPrime] of [Z[l]] for every layer. *)
Lemma backProp_allocate_loop net dCdA z0 s :
  well_formed net ->
  aref (Z net) 0 = VMat z0 ->
  exists g,
    for_ (length (structure net) - 1) 1 (backProp_allocate net dCdA)
         (mkGradients [] [] [VMat (mat_map sigPrime z0)] [VUndef]) s
    = Ok g s /\
    forall l, l < length (structure net) ->
      exists z, aref (Z net) l = VMat z /\
                aref (AZ g) l = VMat (mat_map sigPrime z).
Proof.
  intros Hwf Hz0. pose proof (well_formed_layers net Hwf) as HL.
  destruct Hwf as (Hne & Hpos & Hlen & Hsh & Hact).
  destruct (for__inv gradients
    (fun i g s' =>
       s' = s /\ length (AZ g) = i /\
       forall l, l < i ->
         exists z, aref (Z net) l = VMat z /\
                   aref (AZ g) l = VMat (mat_map sigPrime z))
    (backProp_allocate net dCdA) (length (structure net) - 1) 1
    (mkGradients [] [] [VMat (mat_map sigPrime z0)] [VUndef]) s)
    as (g & s' & Hf & -> & _ & HAZ).
  - split; [reflexivity|]. split; [reflexivity|].
    intros l Hl. replace l with 0 by lia. now exists z0.
  - intros i g s1 Hi (-> & HlenAZ & HAZ).
    destruct (Hact i ltac:(lia)) as [_ (z & Hz & Hrz)].
    unfold backProp_allocate. rewrite Hz.
    run_with (Matrix_new_fill (size_at (structure net) i)
                (size_at (structure net) (i - 1)) 1 s).
    run_with (clone_spec (tab (size_at (structure net) i)
                (size_at (structure net) (i - 1)) (fun _ _ => Num 1)) dCdA s).
    run_with (Matrix_new_fill (size_at (structure net) i) 1 1 s).
    run_with (clone_spec (tab (size_at (structure net) i) 1
                (fun _ _ => Num 1)) dCdA s).
    run_with (Matrix_new_fill (size_at (structure net) i) 1 1 s).
    run_with (as_mat_VMat z s).
    run_with (clone_spec (tab (size_at (structure net) i) 1
                (fun _ _ => Num 1)) z s).
    run_with (apply_spec sigPrime _ 1 z s Hrz (Hpos i ltac:(lia))).
    eexists _, _. split; [reflexivity|]. fields.
    split; [reflexivity|]. split; [rewrite length_app; simpl; lia|].
    intros l Hl. destruct (Nat.eq_dec l i) as [->|Hli].
    + exists z. split; [assumption|]. rewrite <- HlenAZ. apply aref_app_last.
    + destruct (HAZ l ltac:(lia)) as (z' & Hz' & HAZ').
      exists z'. split; [assumption|]. rewrite aref_app_l by lia. assumption.
  - exists g. split; [assumption|].
    intros l Hl. apply HAZ. lia.
Qed.


Lemma backProp_gradients_spec net index desired s :
  let top := length (structure net) - 1 in
  well_formed net ->
  nth_error labels index = Some desired ->
  desired < size_at (structure net) top ->
  exists g s',
    backProp_gradients net index s = Ok g s' /\
    error_signal_top net (one_hot (size_at (structure net) top) desired) g /\
    forall l, l < top -> gradients_at net g l.
Proof.
  intros top Hwf Hlab Hdes. pose proof (well_formed_layers net Hwf) as HL.
  pose proof Hwf as (Hne & Hpos & Hlen & Hsh & Hact).
  set (n := size_at (structure net) top) in *.
  set (Y := one_hot n desired).
  assert (Hn : 1 <= n) by (apply Hpos; unfold top; lia).
  assert (HY : rect n 1 Y) by apply rect_tab.
  destruct (Hact top ltac:(unfold top; lia)) as [(a & Ha & Hra) (zt & Hzt & Hrzt)].
  destruct (Hact 0 HL) as [_ (z0 & Hz0 & Hrz0)].
  unfold backProp_gradients. fold top. fold n. rewrite Hlab, Ha, Hz0.
  run_with (Matrix_new_fill n 1 0 s).
  rewrite (bind_Ok _ _ _ _ _ Y s).
  2:{ rewrite set_stored by (rewrite nrows_tab; lia).
      now rewrite stored_one_hot. }
  rewrite (bind_Ok _ _ _ _ _ _ s
             (getCost_spec net a Y s Ha
                ltac:(fold top; fold n; rewrite (rect_nrows _ _ _ Hra); lia)
                ltac:(fold top; fold n; rewrite (rect_nrows _ _ _ HY); lia))).
  run_with (as_mat_VMat a s).
  run_with (elementwise_rect vsub n 1 a Y s Hra HY Hn).
  run_with (as_mat_VMat (mat_sub a Y) (s + n * 1)).
  run_with (scalarMult_spec (Num 2) n 1 (mat_sub a Y) (s + n * 1)
              (rect_mat_zip vsub n 1 a Y Hra Hn) Hn).
  set (s1 := s + n * 1).
  run_with (Matrix_new_fill (size_at (structure net) 0) 1 1 s1).
  run_with (as_mat_VMat z0 s1).
  run_with (clone_spec (tab (size_at (structure net) 0) 1 (fun _ _ => Num 1)) z0 s1).
  run_with (apply_spec sigPrime _ 1 z0 s1 Hrz0 (Hpos 0 HL)).
  destruct (backProp_allocate_loop net
              (mat_map (fun x => vmul x (Num 2)) (mat_sub a Y)) z0 s1 Hwf Hz0)
    as (g0 & Halloc & HAZ0).
  run_with Halloc.
  set (P := fun k g (s' : nat) =>
    AZ g = AZ g0 /\
    (forall l, k <= l < length (structure net) ->
       shape (size_at (structure net) l) 1 (aref (X g) l)) /\
    (k <= top -> error_signal_top net Y g) /\
    forall l, k <= l -> l < top -> gradients_at net g l).
  destruct (for_down_inv gradients P (backProp_layer net Y)
              (length (structure net)) g0 s1) as (g & s' & Hf & HP).
  - unfold P. split; [reflexivity|]. split; [intros l Hl; lia|].
    split; [unfold top; lia|]. intros l H1 H2. unfold top in H2. lia.
  - intros k g s2 Hk (HAZ & HX & Htop & Hbelow).
    destruct (Nat.eq_dec k top) as [->|Hktop].
    + destruct (HAZ0 top ltac:(unfold top; lia)) as (z & Hz & HAZt).
      rewrite Hzt in Hz. injection Hz as <-. rewrite <- HAZ in HAZt.
      pose proof (backProp_layer_top net Y g a zt n s2 Hn HY Ha Hra HAZt Hrzt)
        as Hstep.
      cbv zeta in Hstep. fold top in Hstep. rewrite Hstep.
      eexists _, _. split; [reflexivity|]. unfold P. fields.
      split; [assumption|]. split; [|split].
      * intros l Hl. replace l with top by (unfold top in *; lia).
        rewrite aref_store_same. apply shape_VMat.
        apply rect_mat_zip; [|assumption].
        apply rect_mat_map; [|assumption]. now apply rect_mat_zip.
      * intros _. exists a, zt. fields. rewrite aref_store_same. tauto.
      * intros l H1 H2. lia.
    + assert (Hk' : k < top) by (unfold top in *; lia).
      destruct (Hsh k ltac:(unfold top in *; lia))
        as [(W & HW & HrW) (b & Hb & Hrb)].
      destruct (HX (k + 1) ltac:(unfold top in *; lia)) as (xn & Hxn & Hrxn).
      destruct (HAZ0 k ltac:(lia)) as (z & Hz & HAZk). rewrite <- HAZ in HAZk.
      destruct (Hact k ltac:(lia)) as [(ak & Hak & Hrak) (z' & Hz' & Hrz)].
      rewrite Hz in Hz'. injection Hz' as <-.
      destruct (backProp_layer_below net Y g k W xn z ak b _ _ s2
                  ltac:(fold top; lia)
                  (Hpos (k + 1) ltac:(unfold top in *; lia)) (Hpos k ltac:(lia))
                  HW HrW Hxn Hrxn HAZk Hrz Hak Hrak Hb Hrb) as (s3 & Hstep).
      rewrite Hstep. eexists _, _. split; [reflexivity|]. unfold P. fields.
      assert (Hk1 : 1 <= size_at (structure net) (k + 1))
        by (apply Hpos; unfold top in *; lia).
      assert (Hk0 : 1 <= size_at (structure net) k) by (apply Hpos; lia).
      split; [assumption|]. split; [|split].
      * intros l Hl. destruct (Nat.eq_dec l k) as [->|Hlk].
        -- rewrite aref_store_same. apply shape_VMat.
           apply rect_mat_zip; [|assumption].
           apply (rect_mat_mul _ (size_at (structure net) (k + 1)) 1);
             try assumption.
           now apply rect_mat_transpose.
        -- rewrite aref_store_other by lia. apply HX. lia.
      * intros _. destruct (Htop ltac:(lia)) as (a' & z'' & H1 & H2 & H3).
        exists a', z''. fields. fold top.
        rewrite aref_store_other by lia. tauto.
      * intros l H1 H2. destruct (Nat.eq_dec l k) as [->|Hlk].
        -- repeat split.
           ++ exists W, xn, z. fields.
              rewrite aref_store_same, aref_store_other by lia. tauto.
           ++ exists xn, ak. fields.
              rewrite aref_store_same, aref_store_other by lia. tauto.
           ++ exists xn, b. fields.
              rewrite aref_store_same, aref_store_other by lia. tauto.
           ++ fields. rewrite aref_store_same. apply shape_VMat.
              apply (rect_mat_mul _ 1 _); try assumption; [|lia].
              now apply rect_mat_transpose.
           ++ fields. rewrite aref_store_same. apply shape_VMat.
              now apply rect_mat_zip.
        -- destruct (Hbelow l ltac:(lia) H2)
             as ((W' & xn' & z'' & E1 & E2 & E3 & E4) &
                 (xn2 & a2 & F1 & F2 & F3) &
                 (xn3 & b3 & G1 & G2 & G3) & S1 & S2).
           repeat split.
           ++ exists W', xn', z''. fields. rewrite !aref_store_other by lia. tauto.
           ++ exists xn2, a2. fields. rewrite !aref_store_other by lia. tauto.
           ++ exists xn3, b3. fields. rewrite !aref_store_other by lia. tauto.
           ++ fields. rewrite aref_store_other by lia. assumption.
           ++ fields. rewrite aref_store_other by lia. assumption.
  - exists g, s'. split; [assumption|].
    destruct HP as (_ & _ & Htop & Hbelow).
    split; [apply Htop; lia|]. intros l Hl. apply Hbelow; [lia|assumption].
Qed.

(* ================================================================== *)
(** * [backProp]: the update *)

Lemma backProp_update_layer_spec g l cur W cw b cb n k s :
  1 <= n ->
  aref (weights cur) l = VMat W -> rect n k W ->
  aref (CW g) l = VMat cw -> rect n k cw ->
  aref (biases cur) l = VMat b -> rect n 1 b ->
  aref (CB g) l = VMat cb -> rect n 1 cb ->
  exists s',
    backProp_update_layer g l cur s
    = Ok (with_biases
            (with_weights cur
               (array_store VUndef (weights cur) l
                  (VMat (mat_sub W (mat_hadamard (mat_times W (α cur)) cw)))))
            (array_store VUndef (biases cur) l
               (VMat (mat_sub b (mat_hadamard (mat_times b (α cur)) cb)))))
         s'.
Proof.
  intros Hn HW HrW Hcw Hrcw Hb Hrb Hcb Hrcb. unfold backProp_update_layer.
  rewrite HW, Hcw. fields. rewrite Hb, Hcb.
  assert (HsW : rect n k (mat_map (fun x => vmul x (Num (α cur))) W))
    by now apply rect_mat_map.
  assert (HsB : rect n 1 (mat_map (fun x => vmul x (Num (α cur))) b))
    by now apply rect_mat_map.
  run_with (Matrix_new_fill 1 1 1 s).
  run_with (as_mat_VMat W s).
  run_with (clone_spec (tab 1 1 (fun _ _ => Num 1)) W s).
  run_with (scalarMult_spec (Num (α cur)) n k W s HrW Hn).
  run_with (as_mat_VMat cw s).
  run_with (elementwise_rect vmul n k _ cw s HsW Hrcw Hn).
  fold mat_hadamard. fold (mat_times W (α cur)).
  set (s1 := s + n * k).
  run_with (as_mat_VMat (mat_hadamard (mat_times W (α cur)) cw) s1).
  assert (HscW : rect n k (mat_hadamard (mat_times W (α cur)) cw))
    by now apply rect_mat_zip.
  run_with (elementwise_rect vsub n k W _ s1 HrW HscW Hn).
  set (s2 := s1 + n * k).
  run_with (Matrix_new_fill 1 1 1 s2).
  run_with (as_mat_VMat b s2).
  run_with (clone_spec (tab 1 1 (fun _ _ => Num 1)) b s2).
  run_with (scalarMult_spec (Num (α cur)) n 1 b s2 Hrb Hn).
  run_with (as_mat_VMat cb s2).
  run_with (elementwise_rect vmul n 1 _ cb s2 HsB Hrcb Hn).
  fold mat_hadamard. fold (mat_times b (α cur)).
  set (s3 := s2 + n * 1).
  run_with (as_mat_VMat (mat_hadamard (mat_times b (α cur)) cb) s3).
  assert (HscB : rect n 1 (mat_hadamard (mat_times b (α cur)) cb))
    by now apply rect_mat_zip.
  run_with (elementwise_rect vsub n 1 b _ s3 Hrb HscB Hn).
  eexists. reflexivity.
Qed.

Lemma backProp_update_spec net g s :
  well_formed net ->
  (forall l, l + 1 < length (structure net) ->
     shape (size_at (structure net) (l + 1)) (size_at (structure net) l)
           (aref (CW g) l) /\
     shape (size_at (structure net) (l + 1)) 1 (aref (CB g) l)) ->
  exists net' s',
    backProp_update net g s = Ok net' s' /\
    same_but_parameters net net' /\ well_formed net' /\
    forall l, l + 1 < length (structure net) -> updated_at net g net' l.
Proof.
  intros Hwf Hg. pose proof (well_formed_layers net Hwf) as HL.
  destruct Hwf as (Hne & Hpos & Hlen & Hsh & Hact).
  set (I := fun k cur (s' : nat) =>
    same_but_parameters net cur /\
    (forall l, l + 1 < length (structure net) ->
       shape (size_at (structure net) (l + 1)) (size_at (structure net) l)
             (aref (weights cur) l) /\
       shape (size_at (structure net) (l + 1)) 1 (aref (biases cur) l)) /\
    (forall l, l < k -> updated_at net g cur l) /\
    (forall l, k <= l -> aref (weights cur) l = aref (weights net) l /\
                         aref (biases cur) l = aref (biases net) l)).
  unfold backProp_update.
  destruct (for__inv NNetwork I (backProp_update_layer g)
              (length (structure net) - 1) 0 net s) as (net' & s' & Hf & HI).
  - unfold I. split; [repeat split|]. split; [exact Hsh|].
    split; [intros l Hl; lia|]. intros; split; reflexivity.
  - intros k cur s1 Hk (Hsame & Hshapes & Hdone & Hrest).
    destruct Hsame as (Ha & Hz & Hlc & Hst & Hal).
    destruct (Hshapes k ltac:(lia)) as [(W & HW & HrW) (b & Hb & Hrb)].
    destruct (Hg k ltac:(lia)) as [(cw & Hcw & Hrcw) (cb & Hcb & Hrcb)].
    destruct (backProp_update_layer_spec g k cur W cw b cb _ _ s1
                (Hpos (k + 1) ltac:(lia)) HW HrW Hcw Hrcw Hb Hrb Hcb Hrcb)
      as (s2 & Hstep).
    rewrite Hstep. eexists _, _. split; [reflexivity|]. unfold I. fields.
    assert (Hk1 : 1 <= size_at (structure net) (k + 1)) by (apply Hpos; lia).
    split; [repeat split; assumption|]. split; [|split].
    + intros l Hl. destruct (Nat.eq_dec l k) as [->|Hlk].
      * rewrite !aref_store_same. split; apply shape_VMat;
          now apply rect_mat_zip.
      * rewrite !aref_store_other by lia. now apply Hshapes.
    + intros l Hl. destruct (Nat.eq_dec l k) as [->|Hlk].
      * destruct (Hrest k (le_n k)) as [EW EB].
        exists W, cw, b, cb. fields. rewrite !aref_store_same.
        rewrite <- EW, <- EB, <- Hal. tauto.
      * destruct (Hdone l ltac:(lia)) as (W' & cw' & b' & cb' & H).
        exists W', cw', b', cb'. fields. rewrite !aref_store_other by lia.
        exact H.
    + intros l Hl. rewrite !aref_store_other by lia. apply Hrest. lia.
  - exists net', s'. split; [exact Hf|].
    destruct HI as (Hsame & Hshapes & Hdone & _).
    split; [assumption|]. destruct Hsame as (Ha & Hz & Hlc & Hst & Hal).
    split.
    + unfold well_formed, shape_inv. rewrite Hst, Ha, Hz. tauto.
    + intros l Hl. apply Hdone. lia.
Qed.

(* ================================================================== *)
(** * The constructor *)

Lemma aref_app_at arr v k : length arr = k -> aref (arr ++ [v]) k = v.
Proof. intros <-. apply aref_app_last. Qed.

Lemma all_entries_random r c s :
  all_entries is_random_entry
    (VMat (tab r c (fun i j => random_entry (s + (i * c + j))))).
Proof.
  eexists. split; [reflexivity|]. intros i j Hi Hj.
  rewrite nrows_tab in Hi.
  rewrite ncols_tab in Hj by lia. rewrite cell_tab by assumption.
  now eexists.
Qed.

Lemma NNetwork_new_spec sizes s :
  (forall l, l < length sizes -> 1 <= size_at sizes l) ->
  exists net s',
    NNetwork_new sizes s = Ok net s' /\
    structure net = sizes /\ α net = (1 / 100)%R /\
    layerCount net = length sizes /\
    length (activations net) = length sizes /\
    (forall l, l < length sizes ->
       shape (size_at sizes l) 1 (aref (activations net) l) /\
       shape (size_at sizes l) 1 (aref (Z net) l) /\
       all_entries (is_number 0) (aref (activations net) l)) /\
    (forall l, l + 1 < length sizes ->
       shape (size_at sizes (l + 1)) (size_at sizes l) (aref (weights net) l) /\
       all_entries is_random_entry (aref (weights net) l) /\
       shape (size_at sizes (l + 1)) 1 (aref (biases net) l) /\
       all_entries is_random_entry (aref (biases net) l)).
Proof.
  intros Hpos. unfold NNetwork_new.
  set (L := length sizes) in *.
  set (J := fun k net (s' : nat) =>
    structure net = sizes /\ α net = (1 / 100)%R /\ layerCount net = L /\
    length (activations net) = k /\ length (Z net) = k /\
    length (weights net) = Nat.min k (L - 1) /\
    length (biases net) = k - 1 /\
    (forall l, l < k ->
       shape (size_at sizes l) 1 (aref (activations net) l) /\
       shape (size_at sizes l) 1 (aref (Z net) l) /\
       all_entries (is_number 0) (aref (activations net) l)) /\
    (forall l, l < k -> l + 1 < L ->
       shape (size_at sizes (l + 1)) (size_at sizes l) (aref (weights net) l) /\
       all_entries is_random_entry (aref (weights net) l)) /\
    (forall l, l + 1 < k ->
       shape (size_at sizes (l + 1)) 1 (aref (biases net) l) /\
       all_entries is_random_entry (aref (biases net) l))).
  destruct (for__inv NNetwork J (NNetwork_new_layer sizes) L 0
              (mkNNetwork [] [] [] [] L sizes (1 / 100)) s)
    as (net & s' & Hf & HJ).
  - unfold J. simpl. repeat split; try reflexivity; intros; lia.
  - intros k cur s1 Hk (Hst & Hal & Hlc & Hla & Hlz & Hlw & Hlb & Haz & Hw & Hb).
    unfold NNetwork_new_layer. fold L.
    assert (Hzero : forall r, all_entries (is_number 0)
                      (VMat (tab r 1 (fun _ _ => Num 0)))).
    { intros r. eexists. split; [reflexivity|]. intros i j Hi Hj.
      rewrite nrows_tab in Hi. rewrite ncols_tab in Hj by lia.
      rewrite cell_tab by assumption. reflexivity. }
    (* the weights of layer k, when k is not the last layer *)
    assert (Hfirst : exists cur1 s2,
      (if k <? L - 1
       then w <- Matrix_new (size_at sizes (k + 1)) (size_at sizes k) Undefined ;;
            ret (with_weights cur (weights cur ++ [VMat w]))
       else ret cur) s1 = Ok cur1 s2 /\
      activations cur1 = activations cur /\ Z cur1 = Z cur /\
      biases cur1 = biases cur /\ structure cur1 = sizes /\
      α cur1 = (1 / 100)%R /\ layerCount cur1 = L /\
      length (weights cur1) = Nat.min (S k) (L - 1) /\
      (forall l, l < S k -> l + 1 < L ->
         shape (size_at sizes (l + 1)) (size_at sizes l) (aref (weights cur1) l) /\
         all_entries is_random_entry (aref (weights cur1) l))).
    { destruct (Nat.ltb_spec k (L - 1)) as [Hlt|Hge].
      - run_with (Matrix_new_random (size_at sizes (k + 1)) (size_at sizes k) s1
                    (Hpos (k + 1) ltac:(lia))).
        eexists _, _. split; [reflexivity|]. fields.
        repeat split; try assumption.
        + rewrite length_app, Hlw. cbn [length]. lia.
        + destruct (Nat.eq_dec l k) as [->|Hlk].
          * rewrite aref_app_at by lia. apply shape_VMat, rect_tab.
          * rewrite aref_app_l by lia. apply Hw; lia.
        + destruct (Nat.eq_dec l k) as [->|Hlk].
          * rewrite aref_app_at by lia. apply all_entries_random.
          * rewrite aref_app_l by lia. apply Hw; lia.
      - exists cur, s1. split; [reflexivity|].
        repeat split; try assumption; try lia; apply Hw; lia. }
    destruct Hfirst as (cur1 & s2 & Hrun & Ea & Ez & Eb & Est & Eal & Elc & Elw & Hw1).
    run_with Hrun.
    run_with (Matrix_new_fill (size_at sizes k) 1 0 s2).
    run_with (Matrix_new_fill (size_at sizes k) 1 0 s2).
    fields. rewrite Ea, Ez.
    assert (Hlayers : forall l, l < S k ->
      shape (size_at sizes l) 1
        (aref (activations cur ++ [VMat (tab (size_at sizes k) 1 (fun _ _ => Num 0))]) l) /\
      shape (size_at sizes l) 1
        (aref (Z cur ++ [VMat (tab (size_at sizes k) 1 (fun _ _ => Num 0))]) l) /\
      all_entries (is_number 0)
        (aref (activations cur ++ [VMat (tab (size_at sizes k) 1 (fun _ _ => Num 0))]) l)).
    { intros l Hl. destruct (Nat.eq_dec l k) as [->|Hlk].
      - rewrite !aref_app_at by lia.
        split; [apply shape_VMat, rect_tab|].
        split; [apply shape_VMat, rect_tab|apply Hzero].
      - rewrite !aref_app_l by lia. apply Haz. lia. }
    destruct (Nat.ltb_spec 0 k) as [Hk0|Hk0].
    + run_with (Matrix_new_random (size_at sizes k) 1 s2 (Hpos k ltac:(lia))).
      eexists _, _. split; [reflexivity|]. unfold J. fields.
      rewrite !length_app. cbn [length]. rewrite Eb.
      repeat split; try assumption; try lia; try (apply Hlayers; lia);
        try (apply Hw1; lia).
      * destruct (Nat.eq_dec (l + 1) k) as [E|E].
        -- rewrite aref_app_at by lia.
           replace (l + 1) with k by lia. apply shape_VMat, rect_tab.
        -- rewrite aref_app_l by lia. apply Hb. lia.
      * destruct (Nat.eq_dec (l + 1) k) as [E|E].
        -- rewrite aref_app_at by lia. apply all_entries_random.
        -- rewrite aref_app_l by lia. apply Hb. lia.
    + eexists _, _. split; [reflexivity|]. unfold J. fields.
      rewrite !length_app. cbn [length]. rewrite Eb.
      repeat split; try assumption; try lia; try (apply Hlayers; lia);
        try (apply Hw1; lia); apply Hb; lia.
  - exists net, s'. split; [exact Hf|].
    destruct HJ as (Hst & Hal & Hlc & Hla & Hlz & Hlw & Hlb & Haz & Hw & Hb).
    repeat split; try assumption; try (apply Haz; lia);
      try (apply Hw; lia); try (apply Hb; lia).
Qed.

(* ================================================================== *)
(** * The nonlinearity *)

Lemma one_plus_exp_pos x : (0 < 1 + exp (- x))%R.
Proof. pose proof (exp_pos (- x)). lra. Qed.

Lemma sigmoid_Num x : sigmoid (Num x) = Num (1 / (1 + exp (- x))).
Proof.
  unfold sigmoid. simpl. pose proof (one_plus_exp_pos x).
  destruct (Req_dec_T (1 + exp (- x)) 0); [lra|reflexivity].
Qed.

Lemma sigPrime_Num x :
  sigPrime (Num x) = Num (exp (- x) / (1 + exp (- x)) ^ 2).
Proof.
  unfold sigPrime. simpl. pose proof (one_plus_exp_pos x).
  destruct (Req_dec_T ((exp (- x) + 1) * (exp (- x) + 1)) 0) as [E|_].
  - exfalso. assert (0 < (exp (- x) + 1) * (exp (- x) + 1))%R by nra. lra.
  - f_equal. f_equal. ring.
Qed.

(* ================================================================== *)
(** * The claims *)

Lemma elementwise_answers op A B s :
  data A <> [] -> data B <> [] ->
  (answers_false (elementwise op A B s)
   <-> (nrows A <> nrows B \/ ncols A <> ncols B)) /\
  (nrows A = nrows B -> ncols A = ncols B ->
   answers_matrix (nrows A) (ncols A) (elementwise op A B s)).
Proof.
  intros HA HB. split; [split|].
  - intros [s' H].
    destruct (Nat.eq_dec (nrows A) (nrows B)) as [Er|Er]; [|now left].
    destruct (Nat.eq_dec (ncols A) (ncols B)) as [Ec|Ec]; [|now right].
    rewrite (elementwise_spec op A B s HA HB Er Ec) in H. discriminate.
  - intros H. exists s. now apply elementwise_false.
  - intros Er Ec. eexists _, _. split.
    + now apply elementwise_spec.
    + apply rect_tab.
Qed.

(** C2.  For matrices [A] and [B] that have a row: [add], [subtract] and
    [hadamard] answer [false] exactly when the row counts or the column
    counts differ, and a matrix of the shape of [A] otherwise; [mult]
    answers [false] exactly when the column count of [A] differs from
    the row count of [B], and otherwise a matrix with the rows of [A]
    and the columns of [B]. *)
Theorem binary_operations_check_shapes (A B : Matrix) (s : nat) :
  data A <> [] -> data B <> [] ->
  ((answers_false (add A B s)
    <-> (nrows A <> nrows B \/ ncols A <> ncols B)) /\
   (nrows A = nrows B -> ncols A = ncols B ->
    answers_matrix (nrows A) (ncols A) (add A B s))) /\
  ((answers_false (subtract A B s)
    <-> (nrows A <> nrows B \/ ncols A <> ncols B)) /\
   (nrows A = nrows B -> ncols A = ncols B ->
    answers_matrix (nrows A) (ncols A) (subtract A B s))) /\
  ((answers_false (hadamard A B s)
    <-> (nrows A <> nrows B \/ ncols A <> ncols B)) /\
   (nrows A = nrows B -> ncols A = ncols B ->
    answers_matrix (nrows A) (ncols A) (hadamard A B s))) /\
  (answers_false (mult A B s) <-> ncols A <> nrows B) /\
  (ncols A = nrows B -> answers_matrix (nrows A) (ncols B) (mult A B s)).
Proof.
  intros HA HB.
  split; [now apply elementwise_answers|].
  split; [now apply elementwise_answers|].
  split; [now apply elementwise_answers|].
  split; [split|].
  - intros [s' H]. intros Hc. rewrite (mult_spec A B s HA HB Hc) in H.
    discriminate.
  - intros Hc. exists s. now apply mult_false.
  - intros Hc. eexists _, _. split.
    + now apply mult_spec.
    + apply rect_tab.
Qed.

(** C3.  On a well-formed network, [forwardProp(input)] returns, layer 0
    then holds the pixels of the sample as they are, and for every layer
    [l] from 1 to the last, [Z[l]] is
    [weights[l-1] . activations[l-1] + biases[l-1]] for the
    [activations[l-1]] of this very pass and [activations[l]] is the
    elementwise [sigmoid] of [Z[l]]; [sigmoid(x)] is [1 / (1 + e^(-x))]. *)
Theorem forwardProp_computes_layers
        (net : NNetwork) (input : nat) (pixels : list value) (s : nat) :
  well_formed net ->
  nth_error imgData input = Some pixels ->
  exists net' s',
    forwardProp net input s = Ok net' s' /\
    aref (activations net') 0 = VMat (input_column net pixels) /\
    (forall l, 1 <= l < length (structure net) -> layer_computed net net' l) /\
    (forall x, sigmoid (Num x) = Num (1 / (1 + exp (- x)))).
Proof.
  intros Hwf Hpx.
  destruct (forwardProp_spec net input pixels s Hwf Hpx)
    as (net' & s' & Hrun & _ & _ & Hin & Hlayers).
  exists net', s'. split; [assumption|]. split; [assumption|].
  split; [assumption|]. apply sigmoid_Num.
Qed.

(** C4.  On a well-formed network and a label that names a neuron of the
    last layer, the first part of [backProp] returns, and with [Y] the
    one-hot target: [X] of the last layer is
    [2 (activations - Y) o sigPrime(Z)], and for every layer [l] below
    the last, [X[l]] is [(weights[l]^T . X[l+1]) o sigPrime(Z[l])];
    [sigPrime(x)] is [e^(-x) / (1 + e^(-x))^2]. *)
Theorem backProp_error_signals
        (net : NNetwork) (index desired : nat) (s : nat) :
  well_formed net ->
  nth_error labels index = Some desired ->
  desired < size_at (structure net) (length (structure net) - 1) ->
  exists g s',
    backProp_gradients net index s = Ok g s' /\
    backProp net index s = backProp_update net g s' /\
    error_signal_top net
      (one_hot (size_at (structure net) (length (structure net) - 1)) desired) g /\
    (forall l, l < length (structure net) - 1 -> error_signal_at net g l) /\
    (forall x, sigPrime (Num x) = Num (exp (- x) / (1 + exp (- x)) ^ 2)).
Proof.
  intros Hwf Hlab Hdes.
  destruct (backProp_gradients_spec net index desired s Hwf Hlab Hdes)
    as (g & s' & Hrun & Htop & Hbelow).
  exists g, s'. split; [assumption|]. split; [|split; [assumption|split]].
  - unfold backProp. now run_with Hrun.
  - intros l Hl. now apply Hbelow.
  - apply sigPrime_Num.
Qed.

(** C5.  In the same run, for every layer [l] from 0 to the one before
    the last, [CW[l]] is [X[l+1] . activations[l]^T], of the shape of
    [weights[l]], and [CB[l]] is the Hadamard product of [X[l+1]] with
    the current [biases[l]]. *)
Theorem backProp_parameter_gradients
        (net : NNetwork) (index desired : nat) (s : nat) :
  well_formed net ->
  nth_error labels index = Some desired ->
  desired < size_at (structure net) (length (structure net) - 1) ->
  exists g s',
    backProp_gradients net index s = Ok g s' /\
    backProp net index s = backProp_update net g s' /\
    forall l, l + 1 < length (structure net) ->
      weight_gradient_at net g l /\
      shape (size_at (structure net) (l + 1)) (size_at (structure net) l)
            (aref (CW g) l) /\
      shape (size_at (structure net) (l + 1)) (size_at (structure net) l)
            (aref (weights net) l) /\
      bias_gradient_at net g l.
Proof.
  intros Hwf Hlab Hdes.
  destruct (backProp_gradients_spec net index desired s Hwf Hlab Hdes)
    as (g & s' & Hrun & Htop & Hbelow).
  exists g, s'. split; [assumption|]. split.
  - unfold backProp. now run_with Hrun.
  - intros l Hl.
    destruct (Hbelow l ltac:(lia)) as (_ & HCW & HCB & HsW & _).
    destruct Hwf as (_ & _ & _ & Hsh & _).
    repeat split; try assumption. now apply Hsh.
Qed.


Lemma nrows_column xs : nrows (column xs) = length xs.
Proof. unfold nrows, column. simpl. apply length_map. Qed.



Lemma well_formed_shape_inv net : well_formed net -> shape_inv net.
Proof. now intros (_ & _ & _ & H & _). Qed.

(** One round of training keeps the network well formed. *)
Lemma cycle_spec net index s :
  well_formed net -> sample_ok net index ->
  exists net1 s1 net2 s2,
    forwardProp net index s = Ok net1 s1 /\
    backProp net1 index s1 = Ok net2 s2 /\
    structure net2 = structure net /\ well_formed net2.
Proof.
  intros Hwf (Himg & desired & Hlab & Hdes).
  destruct (nth_error imgData index) as [pixels|] eqn:Hpx.
  2:{ apply nth_error_None in Hpx. lia. }
  destruct (forwardProp_spec net index pixels s Hwf Hpx)
    as (net1 & s1 & Hfwd & (_ & _ & _ & Hst & _) & Hwf1 & _).
  rewrite <- Hst in Hdes.
  destruct (backProp_gradients_spec net1 index desired s1 Hwf1 Hlab Hdes)
    as (g & s2 & Hgrad & _ & Hbelow).
  destruct (backProp_update_spec net1 g s2 Hwf1)
    as (net2 & s3 & Hup & (_ & _ & _ & Hst2 & _) & Hwf2 & _).
  - intros l Hl. destruct (Hbelow l ltac:(lia)) as (_ & _ & _ & H1 & H2).
    now split.
  - exists net1, s1, net2, s3. split; [assumption|]. split.
    + unfold backProp. now run_with Hgrad.
    + split; [congruence|assumption].
Qed.

(** C9.  The constructor, given sizes without an empty layer, returns a
    network on which the shape invariant holds: [weights[l]] has
    [structure[l+1]] rows and [structure[l]] columns, [biases[l]] has
    [structure[l+1]] rows and one column; with at least one layer the
    network is well formed.  One round of [forwardProp] then [backProp]
    on a well-formed network returns a well-formed network, so the
    invariant still holds; and so does [train(count)]. *)
Theorem shape_invariant_kept :
  (forall sizes s,
     (forall l, l < length sizes -> 1 <= size_at sizes l) ->
     exists net s',
       NNetwork_new sizes s = Ok net s' /\ structure net = sizes /\
       shape_inv net /\ (sizes <> [] -> well_formed net)) /\
  (forall net index s,
     well_formed net -> sample_ok net index ->
     exists net1 s1 net2 s2,
       forwardProp net index s = Ok net1 s1 /\
       backProp net1 index s1 = Ok net2 s2 /\
       structure net2 = structure net /\
       well_formed net2 /\ shape_inv net2) /\
  (forall net count s,
     well_formed net -> sample_ok net 0 ->
     exists net' s',
       train net count s = Ok net' s' /\
       structure net' = structure net /\
       well_formed net' /\ shape_inv net').
Proof.
  split; [|split].
  - intros sizes s Hpos.
    destruct (NNetwork_new_spec sizes s Hpos)
      as (net & s' & Hrun & Hst & _ & _ & Hlen & Hlayers & Hparams).
    assert (Hsh : shape_inv net).
    { intros l Hl. rewrite Hst in *.
      destruct (Hparams l Hl) as (H1 & _ & H2 & _). now split. }
    exists net, s'. split; [assumption|]. split; [assumption|].
    split; [assumption|]. intros Hne. unfold well_formed. rewrite Hst.
    split; [assumption|]. split; [assumption|]. split; [assumption|].
    split; [assumption|].
    intros l Hl. destruct (Hlayers l Hl) as (H1 & H2 & _). now split.
  - intros net index s Hwf Hok.
    destruct (cycle_spec net index s Hwf Hok)
      as (net1 & s1 & net2 & s2 & H1 & H2 & H3 & H4).
    exists net1, s1, net2, s2. split; [assumption|]. split; [assumption|].
    split; [assumption|]. split; [assumption|].
    now apply well_formed_shape_inv.
  - intros net count s Hwf Hok. unfold train.
    destruct (for__inv NNetwork
      (fun _ cur _ => structure cur = structure net /\ well_formed cur)
      (fun _ this => this <- forwardProp this 0 ;; backProp this 0)
      count 0 net s) as (net' & s' & Hf & Hst & Hwf').
    + now split.
    + intros k cur s1 _ (Hst & Hwfc).
      assert (Hokc : sample_ok cur 0).
      { unfold sample_ok in *. now rewrite Hst. }
      destruct (cycle_spec cur 0 s1 Hwfc Hokc)
        as (net1 & s2 & net2 & s3 & H1 & H2 & H3 & H4).
      run_with H1. exists net2, s3. split; [assumption|].
      split; [congruence|assumption].
    + exists net', s'. split; [assumption|]. split; [assumption|].
      split; [assumption|]. now apply well_formed_shape_inv.
Qed.

(** C10.  [calculate(l)] with [l < 1] answers [false] and leaves the
    network, and the random stream, as they were. *)
Theorem calculate_below_first_layer (net : NNetwork) (l : BinNums.Z) (s : nat) :
  (l < 1)%Z -> calculate net l s = Ok (VFalse, net) s.
Proof.
  intros Hl. unfold calculate.
  now replace (l <? 1)%Z with true by (symmetry; apply Z.ltb_lt; exact Hl).
Qed.

(* ================================================================== *)
(** * Further properties of the Matrix methods *)

Lemma array_store_length_max A (h : A) : forall i a v,
  length (array_store h a i v) = Nat.max (length a) (S i).
Proof.
  induction i as [|i IH]; intros [|x a] v; simpl; try reflexivity.
  - now rewrite Nat.max_comm.
  - now rewrite IH.
  - now rewrite IH.
Qed.

Lemma get_row_missing m i j s : nrows m <= i -> get m i j s = TypeError.
Proof.
  intros Hi. unfold get.
  now replace (nth_error (data m) i) with (@None (list value))
    by (symmetry; apply nth_error_None; exact Hi).
Qed.

Lemma set_row_missing m i j v s : nrows m <= i -> set m i j v s = TypeError.
Proof.
  intros Hi. unfold set.
  now replace (nth_error (data m) i) with (@None (list value))
    by (symmetry; apply nth_error_None; exact Hi).
Qed.

(** X1.  [set(i, j, v)] on an existing row, then [get(i, j)], reads [v]
    back, also when [j] is past the end of the row, which is then
    extended to [j + 1] entries; every other entry reads as before and
    the row count stays.  A column past the end of a row reads
    [undefined].  On a missing row [set] and [get] throw. *)
Theorem set_then_get (m : Matrix) (i j : nat) (v : value) (s : nat) :
  (i < nrows m ->
   exists m',
     set m i j v s = Ok m' s /\
     get m' i j s = Ok v s /\
     (forall a b, a < nrows m -> a <> i \/ b <> j ->
        get m' a b s = get m a b s) /\
     nrows m' = nrows m /\
     length (nth i (data m') []) = Nat.max (length (nth i (data m) [])) (S j)) /\
  (i < nrows m -> length (nth i (data m) []) <= j ->
   get m i j s = Ok Undefined s) /\
  (nrows m <= i -> set m i j v s = TypeError /\ get m i j s = TypeError).
Proof.
  split; [|split].
  - intros Hi. exists (stored m i j v).
    assert (Hrows : nrows (stored m i j v) = nrows m).
    { unfold nrows, stored. simpl. rewrite array_store_length_max.
      unfold nrows in Hi. lia. }
    split; [now apply set_stored|]. split; [|split; [|split]].
    + rewrite get_cell by lia. rewrite cell_stored, !Nat.eqb_refl. reflexivity.
    + intros a b Ha Hab. rewrite !get_cell by lia. rewrite cell_stored.
      destruct (Nat.eqb_spec a i), (Nat.eqb_spec b j); simpl; try reflexivity.
      lia.
    + exact Hrows.
    + unfold stored. simpl. rewrite nth_array_store_same.
      apply array_store_length_max.
  - intros Hi Hj. rewrite get_cell by assumption. unfold cell.
    now rewrite nth_overflow.
  - intros Hi. split; [now apply set_row_missing|now apply get_row_missing].
Qed.

(** X2.  [new Matrix(rows, columns, x)] with a number [x] makes no draw
    and returns the [rows] by [columns] matrix filled with [x].  Without
    the third argument and with at least one row it makes exactly
    [rows * columns] draws and entry [(i, j)] is draw number
    [i * columns + j] of them, times 10 minus 5, so it lies in
    [[-5, 5)] when the draws lie in [[0, 1)].  Without the third
    argument and without rows it throws: [randomise] calls [size]. *)
Theorem Matrix_constructor (rows columns : nat) (s : nat) :
  (forall x,
     Matrix_new rows columns (Num x) s
     = Ok (tab rows columns (fun _ _ => Num x)) s) /\
  (1 <= rows ->
   Matrix_new rows columns Undefined s
   = Ok (tab rows columns (fun i j => random_entry (s + (i * columns + j))))
        (s + rows * columns)) /\
  (rows = 0 -> Matrix_new rows columns Undefined s = TypeError) /\
  ((forall k, 0 <= Math_random k < 1)%R ->
   forall k, exists x, random_entry k = Num x /\ (-5 <= x < 5)%R).
Proof.
  split; [|split; [|split]].
  - intros x. apply Matrix_new_fill.
  - intros Hr. now apply Matrix_new_random.
  - intros ->. reflexivity.
  - intros Hrange k. unfold random_entry. eexists. split; [reflexivity|].
    specialize (Hrange k). lra.
Qed.

Lemma vadd_comm a b : vadd a b = vadd b a.
Proof.
  destruct a, b; simpl; try reflexivity. unfold vadd. simpl. f_equal. ring.
Qed.

Lemma elementwise_comm op A B s :
  (forall a b, op a b = op b a) ->
  elementwise op A B s = elementwise op B A s.
Proof.
  intros Hop.
  destruct (data A) as [|ra da] eqn:EA.
  - unfold elementwise at 1. rewrite (bind_TypeError_l _ _ _ _ s (size_empty A s EA)).
    destruct (data B) as [|rb db] eqn:EB.
    + unfold elementwise. now rewrite (bind_TypeError_l _ _ _ _ s (size_empty B s EB)).
    + assert (HB : data B <> []) by (rewrite EB; discriminate).
      unfold elementwise. run_with (size_nonempty B s HB).
      now rewrite (bind_TypeError_l _ _ _ _ s (size_empty A s EA)).
  - assert (HA : data A <> []) by (rewrite EA; discriminate).
    destruct (data B) as [|rb db] eqn:EB.
    + unfold elementwise at 1. run_with (size_nonempty A s HA).
      rewrite (bind_TypeError_l _ _ _ _ s (size_empty B s EB)).
      unfold elementwise. now rewrite (bind_TypeError_l _ _ _ _ s (size_empty B s EB)).
    + assert (HB : data B <> []) by (rewrite EB; discriminate).
      destruct (Nat.eq_dec (nrows A) (nrows B)) as [Er|Er];
        [destruct (Nat.eq_dec (ncols A) (ncols B)) as [Ec|Ec]|].
      * rewrite (elementwise_spec op A B s HA HB Er Ec).
        rewrite (elementwise_spec op B A s HB HA (eq_sym Er) (eq_sym Ec)).
        rewrite Er, Ec. do 2 f_equal. unfold mat_zip. rewrite Er, Ec.
        apply tab_ext. intros. apply Hop.
      * rewrite !elementwise_false; auto.
      * rewrite !elementwise_false; auto.
Qed.

(** X3.  [A.add(B)] and [B.add(A)] answer the same, and so do
    [A.hadamard(B)] and [B.hadamard(A)]: the same matrix after the same
    draws, [false] both, or a TypeError both, whatever [A] and [B]
    are. *)
Theorem add_and_hadamard_commute (A B : Matrix) (s : nat) :
  add A B s = add B A s /\ hadamard A B s = hadamard B A s.
Proof.
  split; apply elementwise_comm; [apply vadd_comm|apply vmul_comm].
Qed.

Lemma transpose_involutive r c A :
  rect r c A -> 1 <= r -> 1 <= c -> mat_transpose (mat_transpose A) = A.
Proof.
  intros HA Hr Hc.
  assert (Ht : rect c r (mat_transpose A)) by now apply rect_mat_transpose.
  apply (rect_ext r c); [now apply rect_mat_transpose|assumption|].
  intros i j Hi Hj. unfold mat_transpose at 1.
  rewrite (rect_nrows _ _ _ Ht), (rect_ncols _ _ _ Ht Hc), cell_tab by assumption.
  unfold mat_transpose.
  rewrite (rect_nrows _ _ _ HA), (rect_ncols _ _ _ HA Hr), cell_tab by assumption.
  reflexivity.
Qed.

(** X4.  [transpose()] of a matrix of [r >= 1] rows and [c] columns
    returns the [c] by [r] matrix with the entries mirrored, without a
    draw.  Transposing again gives the matrix back when [c >= 1]; when
    [c = 0] the first transpose leaves a matrix without rows, on which
    the second throws. *)
Theorem transpose_twice (A : Matrix) (r c : nat) (s : nat) :
  rect r c A -> 1 <= r ->
  exists At,
    transpose A s = Ok At s /\ rect c r At /\
    (forall i j, i < r -> j < c -> cell At j i = cell A i j) /\
    (1 <= c -> transpose At s = Ok A s) /\
    (c = 0 -> data At = [] /\ transpose At s = TypeError).
Proof.
  intros HA Hr. exists (mat_transpose A).
  assert (Ht : rect c r (mat_transpose A)) by now apply rect_mat_transpose.
  split; [now apply (transpose_rect r c)|]. split; [assumption|].
  split; [|split].
  - intros i j Hi Hj. unfold mat_transpose.
    rewrite (rect_nrows _ _ _ HA), (rect_ncols _ _ _ HA Hr), cell_tab by assumption.
    reflexivity.
  - intros Hc. rewrite (transpose_rect c r _ s Ht Hc).
    now rewrite (transpose_involutive r c A HA Hr Hc).
  - intros ->. assert (E : data (mat_transpose A) = []).
    { destruct Ht as [Hlen _]. now apply length_zero_iff_nil. }
    split; [assumption|]. unfold transpose.
    now rewrite (bind_TypeError_l _ _ _ _ s (size_empty _ s E)).
Qed.

Lemma sum_upto_ext n f g :
  (forall k, k < n -> f k = g k) -> sum_upto n f = sum_upto n g.
Proof.
  unfold sum_upto. generalize (Num 0).
  assert (H : forall m k0 v, (forall k, k0 <= k < k0 + m -> f k = g k) ->
    fold_left (fun total k => vadd total (f k)) (seq k0 m) v
    = fold_left (fun total k => vadd total (g k)) (seq k0 m) v).
  { induction m as [|m IH]; intros k0 v Hfg; simpl; [reflexivity|].
    rewrite (Hfg k0) by lia. apply IH. intros k Hk. apply Hfg. lia. }
  intros v Hfg. apply H. intros k Hk. apply Hfg. lia.
Qed.

Lemma cell_mat_mul r n c A B i j :
  rect r n A -> rect n c B -> 1 <= r -> 1 <= n -> i < r -> j < c ->
  cell (mat_mul A B) i j
  = sum_upto n (fun k => vmul (cell A i k) (cell B k j)).
Proof.
  intros HA HB Hr Hn Hi Hj. unfold mat_mul.
  rewrite (rect_nrows _ _ _ HA), (rect_ncols _ _ _ HB Hn),
    (rect_ncols _ _ _ HA Hr), cell_tab by assumption.
  reflexivity.
Qed.

Lemma cell_mat_transpose r c A i j :
  rect r c A -> 1 <= r -> i < r -> j < c -> cell (mat_transpose A) j i = cell A i j.
Proof.
  intros HA Hr Hi Hj. unfold mat_transpose.
  rewrite (rect_nrows _ _ _ HA), (rect_ncols _ _ _ HA Hr), cell_tab by assumption.
  reflexivity.
Qed.

Lemma transpose_mat_mul r n c A B :
  rect r n A -> rect n c B -> 1 <= r -> 1 <= n -> 1 <= c ->
  mat_transpose (mat_mul A B) = mat_mul (mat_transpose B) (mat_transpose A).
Proof.
  intros HA HB Hr Hn Hc.
  assert (HAB : rect r c (mat_mul A B)) by now apply (rect_mat_mul r n c).
  assert (HAt : rect n r (mat_transpose A)) by now apply rect_mat_transpose.
  assert (HBt : rect c n (mat_transpose B)) by now apply rect_mat_transpose.
  apply (rect_ext c r).
  - now apply rect_mat_transpose.
  - now apply (rect_mat_mul c n r).
  - intros j i Hj Hi.
    rewrite (cell_mat_transpose r c _ i j HAB Hr Hi Hj).
    rewrite (cell_mat_mul r n c A B i j HA HB Hr Hn Hi Hj).
    rewrite (cell_mat_mul c n r _ _ j i HBt HAt Hc Hn Hj Hi).
    apply sum_upto_ext. intros k Hk.
    rewrite (cell_mat_transpose n c B k j HB Hn Hk Hj).
    rewrite (cell_mat_transpose r n A i k HA Hr Hi Hk).
    apply vmul_comm.
Qed.

(** X6.  The transpose of a product is the product of the transposes in
    the other order: for [A] of [r] by [n] and [B] of [n] by [c], none of
    the three zero, [A.mult(B)] transposed is the matrix that
    [B] transposed [.mult(]A transposed[)] returns. *)
Theorem transpose_of_product (A B : Matrix) (r n c : nat) (s : nat) :
  rect r n A -> rect n c B -> 1 <= r -> 1 <= n -> 1 <= c ->
  exists AB ABt At Bt s1 s2,
    mult A B s = Ok (VMat AB) s1 /\ transpose AB s1 = Ok ABt s1 /\
    transpose A s = Ok At s /\ transpose B s = Ok Bt s /\
    mult Bt At s = Ok (VMat ABt) s2.
Proof.
  intros HA HB Hr Hn Hc.
  assert (HAB : rect r c (mat_mul A B)) by now apply (rect_mat_mul r n c).
  assert (HAt : rect n r (mat_transpose A)) by now apply rect_mat_transpose.
  assert (HBt : rect c n (mat_transpose B)) by now apply rect_mat_transpose.
  exists (mat_mul A B), (mat_transpose (mat_mul A B)),
    (mat_transpose A), (mat_transpose B), (s + r * c), (s + c * r).
  split; [now apply (mult_rect r n c)|].
  split; [now apply (transpose_rect r c)|].
  split; [now apply (transpose_rect r n)|].
  split; [now apply (transpose_rect n c)|].
  rewrite (mult_rect c n r _ _ s HBt HAt Hc Hn).
  now rewrite (transpose_mat_mul r n c A B HA HB Hr Hn Hc).
Qed.

(** A loop one of whose rounds throws whatever it is given throws. *)
Lemma for__throws St (body : nat -> St -> M St) n :
  forall i k st s,
    i <= k < i + n -> (forall st s, body k st s = TypeError) ->
    for_ n i body st s = TypeError.
Proof.
  induction n as [|n IH]; intros i k st s Hk Hthrow; [lia|].
  simpl. unfold bind. destruct (body i st s) as [st1 s1|] eqn:E; [|reflexivity].
  destruct (Nat.eq_dec i k) as [->|Hne]; [now rewrite Hthrow in E|].
  apply (IH (S i) k); [lia|assumption].
Qed.

Lemma getCost_columns net a y s :
  let n := size_at (structure net) (length (structure net) - 1) in
  1 <= n -> length a = n -> length y = n ->
  aref (activations net) (length (structure net) - 1)
    = VMat (column (map Num a)) ->
  getCost net (column (map Num y)) s
  = Ok (Num (1 / INR n * Rsum (squared_errors a y))) s.
Proof.
  intros n Hn Hla Hly Hact.
  rewrite (getCost_spec net (column (map Num a)) (column (map Num y)) s Hact)
    by (fold n; rewrite nrows_column, length_map; lia).
  fold n. rewrite <- Hla at 1.
  rewrite (fold_squared_errors
             (fun k => vmul (vsub (cell (column (map Num a)) k 0)
                                  (cell (column (map Num y)) k 0))
                            (vsub (cell (column (map Num a)) k 0)
                                  (cell (column (map Num y)) k 0)))
             a y 0 0 ltac:(lia)).
  - unfold vdiv. assert (INR n <> 0)%R by (apply not_0_INR; lia).
    destruct (Req_dec_T (INR n) 0); [contradiction|].
    do 2 f_equal. field. assumption.
  - intros i Hi. simpl. rewrite !cell_column_Num by lia. reflexivity.
Qed.

Lemma Rsum_squared_errors_nonneg : forall a y,
  (0 <= Rsum (squared_errors a y))%R.
Proof.
  induction a as [|x a IH]; intros [|x' y]; unfold Rsum, squared_errors;
    simpl; try lra.
  specialize (IH y). unfold Rsum, squared_errors in IH.
  pose proof (Rle_0_sqr (x - x')) as Hsq. unfold Rsqr in Hsq. lra.
Qed.

(** X9.  When the last layer and [y] are columns of [n >= 1] numbers,
    [getCost(y)] returns a number, and never a negative one. *)
Theorem getCost_never_negative (net : NNetwork) (a y : list R) (s : nat) :
  1 <= size_at (structure net) (length (structure net) - 1) ->
  length a = size_at (structure net) (length (structure net) - 1) ->
  length y = size_at (structure net) (length (structure net) - 1) ->
  aref (activations net) (length (structure net) - 1)
    = VMat (column (map Num a)) ->
  exists cost,
    getCost net (column (map Num y)) s = Ok (Num cost) s /\ (0 <= cost)%R.
Proof.
  set (n := size_at (structure net) (length (structure net) - 1)).
  intros Hn Hla Hly Hact.
  exists (1 / INR n * Rsum (squared_errors a y))%R.
  split; [now apply getCost_columns|].
  assert (Hpos : (0 < 1 / INR n)%R).
  { apply Rdiv_lt_0_compat; [lra|]. apply lt_0_INR. lia. }
  pose proof (Rsum_squared_errors_nonneg a y) as Hge.
  apply Rmult_le_pos; lra.
Qed.

(** X10.  [getCost(y)] outside its intended use: when the width of the
    last layer is [0] (or [structure] is empty) the loop does not run and
    the result is [0 / 0], that is [NaN]; when [y], or the last
    activation matrix, has fewer rows than the last layer is wide, or the
    last activation slot holds no Matrix while that width is at least
    [1], the call throws. *)
Theorem getCost_edge_cases (net : NNetwork) (y : Matrix) (s : nat) :
  (size_at (structure net) (length (structure net) - 1) = 0 ->
   getCost net y s = Ok NaN s) /\
  (nrows y < size_at (structure net) (length (structure net) - 1) ->
   getCost net y s = TypeError) /\
  (forall A,
     aref (activations net) (length (structure net) - 1) = VMat A ->
     nrows A < size_at (structure net) (length (structure net) - 1) ->
     getCost net y s = TypeError) /\
  (1 <= size_at (structure net) (length (structure net) - 1) ->
   (forall A, aref (activations net) (length (structure net) - 1) <> VMat A) ->
   getCost net y s = TypeError).
Proof.
  unfold getCost.
  set (n := size_at (structure net) (length (structure net) - 1)).
  set (top := length (structure net) - 1).
  split; [|split; [|split]].
  - intros ->. simpl. unfold bind, ret, vdiv. simpl.
    destruct (Req_dec_T 0 0); [reflexivity|congruence].
  - intros Hy. apply bind_TypeError_l.
    apply (for__throws _ _ n 0 (nrows y)); [lia|].
    intros cost s'. unfold bind.
    destruct (as_mat (aref (activations net) top) s') as [A s1|]; [|reflexivity].
    destruct (get A (nrows y) 0 s1) as [v s2|]; [|reflexivity].
    now rewrite get_row_missing by lia.
  - intros A HA Hlt. apply bind_TypeError_l.
    apply (for__throws _ _ n 0 (nrows A)); [lia|].
    intros cost s'. rewrite HA. unfold bind. simpl.
    now rewrite get_row_missing by lia.
  - intros Hn Hno. apply bind_TypeError_l.
    apply (for__throws _ _ n 0 0); [lia|].
    intros cost s'. unfold bind.
    destruct (aref (activations net) top) as [| |A]; try reflexivity.
    now destruct (Hno A).
Qed.

End Program.

(* ================================================================== *)
(** * The constructor draws the biases at random *)

(** C1, at [new NNetwork([1, 1])] on a host whose every draw is [0.9]:
    the constructor returns after two draws, one for the weight and one
    for the bias, and the bias is [0.9 * 10 - 5 = 4], not [0]. *)
Theorem constructor_randomises_biases :
  exists net,
    NNetwork_new sample_random [1; 1] 0 = Ok net 2 /\
    weights net = [VMat (mkMatrix [[Num 4]])] /\
    biases net = [VMat (mkMatrix [[Num 4]])] /\
    biases net <> [VMat (mkMatrix [[Num 0]])].
Proof.
  eexists. split; [reflexivity|]. cbn. unfold sample_random.
  assert (E : (9 / 10 * 10 - 5 = 4)%R) by lra. rewrite E.
  split; [reflexivity|]. split; [reflexivity|].
  intros H. injection H as H. lra.
Qed.

(** X20.  Whatever the sizes, as long as no layer is empty: every entry of
    every [weights[l]] and of every [biases[l]] is a draw [Math.random() * 10 - 5],
    so it lies in [[-5, 5)] when the draws lie in [[0, 1)]; the
    activations are the ones that start at [0]. *)
Theorem constructor_parameters_in_range
        (Math_random : nat -> R) (sizes : list nat) (s : nat) :
  (forall k, 0 <= Math_random k < 1)%R ->
  (forall l, l < length sizes -> 1 <= size_at sizes l) ->
  exists net s',
    NNetwork_new Math_random sizes s = Ok net s' /\
    (forall l, l + 1 < length sizes ->
       all_entries (fun v => exists x, v = Num x /\ (-5 <= x < 5)%R)
                   (aref (weights net) l) /\
       all_entries (fun v => exists x, v = Num x /\ (-5 <= x < 5)%R)
                   (aref (biases net) l)) /\
    (forall l, l < length sizes ->
       all_entries (is_number 0) (aref (activations net) l)).
Proof.
  intros Hrange Hpos.
  destruct (NNetwork_new_spec Math_random sizes s Hpos)
    as (net & s' & Hrun & _ & _ & _ & _ & Hlayers & Hparams).
  assert (Hin : forall v, all_entries (is_random_entry Math_random) v ->
            all_entries (fun v => exists x, v = Num x /\ (-5 <= x < 5)%R) v).
  { intros v (m & -> & Hm). exists m. split; [reflexivity|].
    intros i j Hi Hj. destruct (Hm i j Hi Hj) as (k & ->).
    unfold random_entry. eexists. split; [reflexivity|].
    specialize (Hrange k). lra. }
  exists net, s'. split; [assumption|]. split.
  - intros l Hl. destruct (Hparams l Hl) as (_ & HW & _ & HB).
    split; now apply Hin.
  - intros l Hl. now apply Hlayers.
Qed.

(* ================================================================== *)
(** * The range of [sigmoid] *)

(** No binary64 number is both at least [710] and at most [-746]. *)
Lemma not_both_large_and_small x :
  PrimFloat.leb 710%float x = true -> PrimFloat.leb x (-746)%float = false.
Proof.
  rewrite !leb_spec.
  set (a := Prim2SF 710%float). vm_compute in a. subst a.
  set (b := Prim2SF (-746)%float). vm_compute in b. subst b.
  destruct (Prim2SF x) as [sg|sg| |sg m e]; try destruct sg; simpl;
    try reflexivity; discriminate.
Qed.

Lemma coarse_exp_conforming : Double.conforming Double.coarse_exp.
Proof.
  split; [reflexivity|]. split.
  - intros x Hx. unfold Double.coarse_exp. now rewrite Hx.
  - intros x Hx. unfold Double.coarse_exp.
    now rewrite (not_both_large_and_small x Hx), Hx.
Qed.

(** C8, on binary64 numbers: conforming engines exist, and on every one
    of them [sigmoid(1000)] is exactly [1], because [Math.exp(-1000)]
    underflows to [0], and [sigmoid(-1000)] is exactly [0], because
    [Math.exp(1000)] overflows to [Infinity]; [1000] and [-1000] are
    finite inputs. *)
Lemma sigmoid_saturates_in_binary64 :
  Double.conforming Double.coarse_exp /\
  PrimFloat.is_finite 1000 = true /\
  PrimFloat.is_finite (-1000) = true /\
  (forall Math_exp, Double.conforming Math_exp ->
     Double.sigmoid Math_exp 1000 = 1%float /\
     Double.strictly_inside (Double.sigmoid Math_exp 1000) = false /\
     Double.sigmoid Math_exp (-1000) = 0%float /\
     Double.strictly_inside (Double.sigmoid Math_exp (-1000)) = false).
Proof.
  split; [exact coarse_exp_conforming|]. split; [reflexivity|].
  split; [reflexivity|].
  intros Math_exp (_ & Hunder & Hover). unfold Double.sigmoid.
  assert (E1 : Math_exp (PrimFloat.opp 1000%float) = 0%float)
    by (apply Hunder; reflexivity).
  assert (E2 : Math_exp (PrimFloat.opp (-1000)%float) = infinity)
    by (apply Hover; reflexivity).
  rewrite E1, E2. repeat split; reflexivity.
Qed.

(** ** Binary64 arithmetic keeps [1 / (1 + e)] between [0] and [1] *)

Module Binary64.
Local Open Scope Z_scope.

Lemma fexp_eq x : fexp prec emax x = Z.max (x - 53) (-1074).
Proof. reflexivity. Qed.

Lemma digits2_pos_bounds p :
  2 ^ (Zpos (digits2_pos p) - 1) <= Zpos p < 2 ^ Zpos (digits2_pos p).
Proof.
  induction p as [p IH|p IH|]; cbn [digits2_pos].
  - rewrite Pos2Z.inj_succ.
    replace (Z.succ (Zpos (digits2_pos p)) - 1) with (Z.succ (Zpos (digits2_pos p) - 1)) by lia.
    rewrite !Z.pow_succ_r by lia. lia.
  - rewrite Pos2Z.inj_succ.
    replace (Z.succ (Zpos (digits2_pos p)) - 1) with (Z.succ (Zpos (digits2_pos p) - 1)) by lia.
    rewrite !Z.pow_succ_r by lia. lia.
  - simpl. lia.
Qed.

Lemma Zdigits2_le m k : 0 <= m -> 0 <= k -> m <= 2 ^ k -> Zdigits2 m <= k + 1.
Proof.
  intros Hm Hk Hle. destruct m as [|p|p]; simpl; try lia.
  destruct (digits2_pos_bounds p) as [Hlo _].
  destruct (Z.le_gt_cases (Zpos (digits2_pos p)) (k + 1)) as [H|H]; [assumption|].
  assert (2 ^ (k + 1) <= 2 ^ (Zpos (digits2_pos p) - 1))
    by (apply Z.pow_le_mono_r; lia).
  rewrite Z.pow_add_r in * by lia. simpl in *. lia.
Qed.

Lemma shr_1_steps x : 0 <= shr_m x -> steps 1 x (shr_1 x).
Proof.
  destruct x as [m r s]. unfold steps, lost. rewrite Z.pow_1_r.
  cbn [shr_m shr_r shr_s]. intros Hm.
  destruct m as [|[p|p|]|p]; cbn [shr_1 shr_m shr_r shr_s]; try lia.
  - split; [reflexivity|]. rewrite Z.mod_0_l by lia.
    destruct r, s; simpl; intuition congruence.
  - rewrite Pos2Z.inj_xI.
    replace ((2 * Zpos p + 1) mod 2) with 1
      by (apply Z.mod_unique with (Zpos p); lia).
    split; [apply Z.div_unique with 1; lia|].
    simpl. intuition (try congruence; try lia).
  - rewrite Pos2Z.inj_xO.
    replace ((2 * Zpos p) mod 2) with 0
      by (apply Z.mod_unique with (Zpos p); lia).
    split; [apply Z.div_unique with 0; lia|].
    destruct r, s; simpl; intuition congruence.
  - split; [reflexivity|]. change (1 mod 2) with 1.
    simpl. intuition (try congruence; try lia).
Qed.

Lemma steps_trans a b x y z :
  0 <= a -> 0 <= b -> 0 <= shr_m x ->
  steps a x y -> steps b y z -> steps (a + b) x z.
Proof.
  intros Ha Hb Hx [Hy Ly] [Hz Lz]. unfold steps.
  assert (Pa : 0 < 2 ^ a) by (apply Z.pow_pos_nonneg; lia).
  assert (Pb : 0 < 2 ^ b) by (apply Z.pow_pos_nonneg; lia).
  rewrite Z.pow_add_r by lia. split.
  - rewrite Hz, Hy. apply Z.div_div; lia.
  - rewrite Lz, Ly, Hy. rewrite Z.rem_mul_r by lia.
    pose proof (Z.mod_pos_bound (shr_m x) (2 ^ a) Pa) as Ba.
    pose proof (Z.mod_pos_bound (shr_m x / 2 ^ a) (2 ^ b) Pb) as Bb.
    set (u := shr_m x mod 2 ^ a) in *.
    set (v := (shr_m x / 2 ^ a) mod 2 ^ b) in *.
    set (A := 2 ^ a) in *.
    split.
    + intros [[H1 H2] H3]. split; [assumption|]. rewrite H2, H3. lia.
    + intros [H1 H2].
      assert (0 <= A * v) by (apply Z.mul_nonneg_nonneg; lia).
      assert (Hu : u = 0) by lia.
      assert (Hv : A * v = 0) by lia.
      apply Z.mul_eq_0 in Hv.
      split; [split; [assumption|]|]; lia.
Qed.

Lemma steps_nonneg k x y : 0 <= k -> 0 <= shr_m x -> steps k x y -> 0 <= shr_m y.
Proof.
  intros Hk Hx [Hy _]. rewrite Hy. apply Z.div_pos; [assumption|].
  apply Z.pow_pos_nonneg; lia.
Qed.

Lemma iter_pos_steps p : forall x,
  0 <= shr_m x -> steps (Zpos p) x (iter_pos shr_1 p x).
Proof.
  induction p as [p IH|p IH|]; intros x Hx; cbn [iter_pos].
  - pose proof (shr_1_steps x Hx) as H1.
    pose proof (steps_nonneg 1 _ _ ltac:(lia) Hx H1) as Hx1.
    pose proof (IH _ Hx1) as H2.
    pose proof (steps_nonneg (Zpos p) _ _ ltac:(lia) Hx1 H2) as Hx2.
    pose proof (IH _ Hx2) as H3.
    replace (Zpos p~1) with (1 + Zpos p + Zpos p) by lia.
    pose proof (steps_trans 1 (Zpos p) x _ _ ltac:(lia) ltac:(lia) Hx H1 H2)
      as H12.
    exact (steps_trans (1 + Zpos p) (Zpos p) x _ _ ltac:(lia) ltac:(lia) Hx
             H12 H3).
  - pose proof (IH _ Hx) as H2.
    pose proof (steps_nonneg (Zpos p) _ _ ltac:(lia) Hx H2) as Hx2.
    pose proof (IH _ Hx2) as H3.
    replace (Zpos p~0) with (Zpos p + Zpos p) by lia.
    exact (steps_trans (Zpos p) (Zpos p) x _ _ ltac:(lia) ltac:(lia) Hx H2 H3).
  - apply shr_1_steps. assumption.
Qed.

Lemma inexact_loc mrs : inexact (loc_of_shr_record mrs) = if lost mrs then 1 else 0.
Proof. destruct mrs as [m [|] [|]]; reflexivity. Qed.

Lemma lost_of_loc m l : lost (shr_record_of_loc m l) = false <-> inexact l = 0.
Proof. destruct l as [|[| |]]; unfold lost; simpl; intuition (try congruence; try lia). Qed.

Lemma shr_m_of_loc m l : shr_m (shr_record_of_loc m l) = m.
Proof. destruct l as [|[| |]]; reflexivity. Qed.

Lemma loc_of_loc m l : inexact (loc_of_shr_record (shr_record_of_loc m l)) = inexact l.
Proof. destruct l as [|[| |]]; reflexivity. Qed.

Lemma inexact_range l : 0 <= inexact l <= 1.
Proof. destruct l; simpl; lia. Qed.

(** What [shr_fexp] does: it divides by [2 ^ k], [k >= 0]. *)
Lemma shr_fexp_spec m e l :
  0 <= m ->
  exists k,
    0 <= k /\
    snd (shr_fexp prec emax m e l) = e + k /\
    (k = 0 \/ snd (shr_fexp prec emax m e l) = fexp prec emax (Zdigits2 m + e)) /\
    shr_m (fst (shr_fexp prec emax m e l)) = m / 2 ^ k /\
    (inexact (loc_of_shr_record (fst (shr_fexp prec emax m e l))) = 0
     <-> inexact l = 0 /\ m mod 2 ^ k = 0).
Proof.
  intros Hm. unfold shr_fexp, shr.
  assert (Hid : exists k,
            0 <= k /\ e = e + k /\ (k = 0 \/ e = fexp prec emax (Zdigits2 m + e)) /\
            shr_m (shr_record_of_loc m l) = m / 2 ^ k /\
            (inexact (loc_of_shr_record (shr_record_of_loc m l)) = 0
             <-> inexact l = 0 /\ m mod 2 ^ k = 0)).
  { exists 0. rewrite shr_m_of_loc, loc_of_loc, Z.div_1_r, Z.mod_1_r.
    split; [lia|]. split; [lia|]. split; [now left|]. split; [reflexivity|].
    intuition. }
  destruct (fexp prec emax (Zdigits2 m + e) - e) as [|p|p] eqn:E;
    cbn [fst snd]; try exact Hid.
  exists (Zpos p).
  destruct (iter_pos_steps p (shr_record_of_loc m l)) as [H1 H2];
    [rewrite shr_m_of_loc; assumption|].
  rewrite shr_m_of_loc in *.
  split; [lia|]. split; [reflexivity|]. split; [right; lia|].
  split; [assumption|].
  rewrite inexact_loc.
  destruct (lost (iter_pos shr_1 p (shr_record_of_loc m l))).
  - split; [lia|]. intros [H3 H4].
    assert (true = false); [|discriminate].
    apply H2. split; [apply (lost_of_loc m l); exact H3|assumption].
  - split; [|reflexivity]. intros _.
    destruct H2 as [H2 _]. destruct (H2 eq_refl) as [H3 H4].
    split; [apply (lost_of_loc m l); exact H3|assumption].
Qed.

Lemma round_nearest_even_bounds m l :
  m <= round_nearest_even m l <= m + inexact l.
Proof.
  destruct l as [|[| |]]; simpl; try lia. destruct (Z.even m); lia.
Qed.

(** Rounding a quantity that is at most [1] *)

Lemma shr_fexp_le1 m e l :
  0 <= m -> e <= 0 -> m + inexact l <= 2 ^ (- e) ->
  0 <= shr_m (fst (shr_fexp prec emax m e l)) /\
  snd (shr_fexp prec emax m e l) <= 0 /\
  shr_m (fst (shr_fexp prec emax m e l))
  + inexact (loc_of_shr_record (fst (shr_fexp prec emax m e l)))
  <= 2 ^ (- snd (shr_fexp prec emax m e l)).
Proof.
  intros Hm He Hle.
  destruct (shr_fexp_spec m e l Hm) as (k & Hk & He1 & Hcase & Hm1 & Hloc).
  pose proof (inexact_range l) as Hl.
  pose proof (inexact_range (loc_of_shr_record (fst (shr_fexp prec emax m e l))))
    as Hl1.
  set (e1 := snd (shr_fexp prec emax m e l)) in *.
  set (m1 := shr_m (fst (shr_fexp prec emax m e l))) in *.
  set (i1 := inexact (loc_of_shr_record (fst (shr_fexp prec emax m e l)))) in *.
  assert (He1' : e1 <= 0).
  { destruct Hcase as [->|Hf]; [lia|]. rewrite Hf, fexp_eq.
    pose proof (Zdigits2_le m (- e) Hm ltac:(lia) ltac:(lia)). lia. }
  assert (HK : 0 < 2 ^ k) by (apply Z.pow_pos_nonneg; lia).
  assert (HP : 0 < 2 ^ (- e1)) by (apply Z.pow_pos_nonneg; lia).
  assert (Hpow : 2 ^ (- e) = 2 ^ (- e1) * 2 ^ k).
  { rewrite <- Z.pow_add_r by lia. f_equal. lia. }
  pose proof (Z.div_mod m (2 ^ k) ltac:(lia)) as Hdm.
  pose proof (Z.mod_pos_bound m (2 ^ k) HK) as Hr.
  rewrite <- Hm1 in Hdm.
  split; [rewrite Hm1; apply Z.div_pos; lia|]. split; [assumption|].
  rewrite Hpow in Hle.
  set (K := 2 ^ k) in *. set (P := 2 ^ (- e1)) in *. set (r := m mod K) in *.
  destruct (Z.le_gt_cases (m1 + i1) P) as [H|H]; [assumption|exfalso].
  assert (Hm1P : P <= m1) by lia.
  assert (K * P <= K * m1) by (apply Z.mul_le_mono_nonneg_l; lia).
  assert (Hi1 : i1 = 1) by nia.
  assert (Hnot : ~ (inexact l = 0 /\ r = 0)) by (rewrite <- Hloc; lia).
  assert (inexact l = 1 \/ 0 < r) by lia.
  nia.
Qed.

Lemma round_le1 m e l :
  0 <= m -> e <= 0 -> m + inexact l <= 2 ^ (- e) ->
  binary_round_aux prec emax false m e l = S754_zero false \/
  exists m' e',
    binary_round_aux prec emax false m e l = S754_finite false m' e' /\
    e' <= 0 /\ Zpos m' <= 2 ^ (- e').
Proof.
  intros Hm He Hle. unfold binary_round_aux.
  destruct (shr_fexp_le1 m e l Hm He Hle) as (H0 & H1 & H2).
  destruct (shr_fexp prec emax m e l) as [mrs1 e1]. cbn [fst snd] in *.
  pose proof (round_nearest_even_bounds (shr_m mrs1) (loc_of_shr_record mrs1))
    as Hr.
  set (m2 := round_nearest_even (shr_m mrs1) (loc_of_shr_record mrs1)) in *.
  destruct (shr_fexp_le1 m2 e1 loc_Exact ltac:(lia) H1 ltac:(simpl; lia))
    as (H3 & H4 & H5).
  destruct (shr_fexp prec emax m2 e1 loc_Exact) as [mrs2 e2]. cbn [fst snd] in *.
  pose proof (inexact_range (loc_of_shr_record mrs2)).
  destruct (shr_m mrs2) as [|p|p]; [now left| |lia].
  right. exists p, e2.
  replace (e2 <=? emax - prec) with true
    by (symmetry; apply Z.leb_le; change (emax - prec) with 971; lia).
  split; [reflexivity|]. split; [assumption|lia].
Qed.

(** Rounding a quantity that is at least [1] *)

Lemma shr_fexp_ge1 m e l :
  1 <= m -> 2 ^ (- e) <= m ->
  1 <= shr_m (fst (shr_fexp prec emax m e l)) /\
  2 ^ (- snd (shr_fexp prec emax m e l))
  <= shr_m (fst (shr_fexp prec emax m e l)).
Proof.
  intros Hm Hge.
  destruct (shr_fexp_spec m e l ltac:(lia)) as (k & Hk & He1 & Hcase & Hm1 & _).
  set (e1 := snd (shr_fexp prec emax m e l)) in *.
  set (m1 := shr_m (fst (shr_fexp prec emax m e l))) in *.
  destruct Hcase as [->|Hf].
  { rewrite Z.div_1_r in Hm1. replace e1 with e by lia. lia. }
  assert (HK : 0 < 2 ^ k) by (apply Z.pow_pos_nonneg; lia).
  destruct (Z.le_gt_cases e1 0) as [Hneg|Hpos].
  - assert (HP : 0 < 2 ^ (- e1)) by (apply Z.pow_pos_nonneg; lia).
    assert (Hpow : 2 ^ (- e) = 2 ^ (- e1) * 2 ^ k).
    { rewrite <- Z.pow_add_r by lia. f_equal. lia. }
    assert (2 ^ (- e1) <= m1).
    { rewrite Hm1. apply Z.div_le_lower_bound; lia. }
    lia.
  - rewrite (Z.pow_neg_r 2 (- e1)) by lia.
    destruct m as [|p|p]; try lia. cbn [Zdigits2] in Hf.
    rewrite fexp_eq in Hf.
    destruct (digits2_pos_bounds p) as [Hlo _].
    assert (Hk' : k = Zpos (digits2_pos p) - 53) by lia.
    assert (Hsplit : 2 ^ (Zpos (digits2_pos p) - 1) = 2 ^ 52 * 2 ^ k).
    { rewrite <- Z.pow_add_r by lia. f_equal. lia. }
    assert (2 ^ 52 <= m1).
    { rewrite Hm1. apply Z.div_le_lower_bound; lia. }
    assert (0 < 2 ^ 52) by (apply Z.pow_pos_nonneg; lia). lia.
Qed.

Lemma round_ge1 m e l :
  1 <= m -> 2 ^ (- e) <= m ->
  binary_round_aux prec emax false m e l = S754_infinity false \/
  exists m' e',
    binary_round_aux prec emax false m e l = S754_finite false m' e' /\
    2 ^ (- e') <= Zpos m'.
Proof.
  intros Hm Hge. unfold binary_round_aux.
  destruct (shr_fexp_ge1 m e l Hm Hge) as (H0 & H1).
  destruct (shr_fexp prec emax m e l) as [mrs1 e1]. cbn [fst snd] in *.
  pose proof (round_nearest_even_bounds (shr_m mrs1) (loc_of_shr_record mrs1))
    as Hr.
  set (m2 := round_nearest_even (shr_m mrs1) (loc_of_shr_record mrs1)) in *.
  destruct (shr_fexp_ge1 m2 e1 loc_Exact ltac:(lia) ltac:(lia)) as (H3 & H4).
  destruct (shr_fexp prec emax m2 e1 loc_Exact) as [mrs2 e2]. cbn [fst snd] in *.
  destruct (shr_m mrs2) as [|p|p]; try lia.
  destruct (e2 <=? emax - prec); [right|now left].
  exists p, e2. split; [reflexivity|assumption].
Qed.

(** Aligning a mantissa to a smaller exponent *)

Lemma iter_xO m d : Zpos (Pos.iter xO m d) = Zpos m * 2 ^ Zpos d.
Proof.
  induction d as [|d IH] using Pos.peano_ind.
  - simpl. lia.
  - rewrite Pos.iter_succ, Pos2Z.inj_xO, IH, Pos2Z.inj_succ, Z.pow_succ_r by lia.
    lia.
Qed.

Lemma shl_align_spec mx ex ex' :
  snd (shl_align mx ex ex') <= ex /\
  (ex' <= ex -> snd (shl_align mx ex ex') = ex') /\
  Zpos (fst (shl_align mx ex ex'))
  = Zpos mx * 2 ^ (ex - snd (shl_align mx ex ex')).
Proof.
  unfold shl_align. destruct (ex' - ex) as [|d|d] eqn:E; cbn [fst snd].
  - rewrite Z.sub_diag. simpl. lia.
  - rewrite Z.sub_diag. simpl. lia.
  - rewrite iter_xO. split; [lia|]. split; [reflexivity|]. do 2 f_equal. lia.
Qed.

(** [1 + e] is at least [1] when [e] is positive *)
Lemma add_one_ge1 m ex :
  SF64add SFone (S754_finite false m ex) = S754_infinity false \/
  exists m' e',
    SF64add SFone (S754_finite false m ex) = S754_finite false m' e' /\
    2 ^ (- e') <= Zpos m'.
Proof.
  unfold SF64add, SFadd, SFone. cbn [cond_Zopp].
  set (ez := Z.min (-52) ex).
  destruct (shl_align_spec 4503599627370496 (-52) ez) as (_ & Ha & Hva).
  destruct (shl_align_spec m ex ez) as (_ & _ & Hvb).
  rewrite (Ha ltac:(lia)) in Hva.
  set (a := fst (shl_align 4503599627370496 (-52) ez)) in *.
  set (b := fst (shl_align m ex ez)) in *.
  change (Zpos a + Zpos b) with (Zpos (a + b)).
  cbn [binary_normalize]. unfold binary_round.
  destruct (shl_align_spec (a + b) ez
              (fexp prec emax (Zpos (digits2_pos (a + b)) + ez)))
    as (Hle & _ & Hv).
  destruct (shl_align (a + b) ez
              (fexp prec emax (Zpos (digits2_pos (a + b)) + ez))) as [mz ez'].
  cbn [fst snd] in *.
  apply round_ge1; [lia|].
  rewrite Hv, Pos2Z.inj_add, Hva.
  change (Zpos 4503599627370496) with (2 ^ 52).
  rewrite <- Z.pow_add_r by lia.
  replace (52 + (-52 - ez)) with (- ez) by lia.
  assert (0 < 2 ^ (ez - ez')) by (apply Z.pow_pos_nonneg; lia).
  assert (0 < 2 ^ (- ez)) by (apply Z.pow_pos_nonneg; lia).
  replace (- ez') with (- ez + (ez - ez')) by lia.
  rewrite Z.pow_add_r by lia. nia.
Qed.

(** [1 / d] is at most [1] when [d] is at least [1] *)

Lemma new_location_inexact n r :
  inexact (new_location n r) = 0 <-> r = 0.
Proof.
  unfold new_location, new_location_even, new_location_odd.
  destruct (Z.even n); destruct (Z.eqb_spec r 0); simpl; intuition lia.
Qed.

Lemma at_least_one_canonical md ed :
  bounded prec emax md ed = true -> 2 ^ (- ed) <= Zpos md ->
  -52 <= ed <= 971 /\ 2 ^ 52 <= Zpos md /\ Zpos (digits2_pos md) = 53.
Proof.
  unfold bounded, canonical_mantissa. intros Hb Hge.
  apply andb_prop in Hb. destruct Hb as [Hc Hmax].
  apply Z.eqb_eq in Hc. apply Z.leb_le in Hmax.
  change (emax - prec) with 971 in Hmax. rewrite fexp_eq in Hc.
  destruct (digits2_pos_bounds md) as [Hlo Hhi].
  assert (He : -52 <= ed).
  { destruct (Z.le_gt_cases (-52) ed) as [H|H]; [assumption|exfalso].
    assert (Zpos (digits2_pos md) <= 53) by lia.
    assert (2 ^ Zpos (digits2_pos md) <= 2 ^ (- ed))
      by (apply Z.pow_le_mono_r; lia).
    lia. }
  assert (Hd : Zpos (digits2_pos md) = 53) by lia.
  rewrite Hd in Hlo. change (53 - 1) with 52 in Hlo. lia.
Qed.

Lemma div_one_le1 md ed :
  bounded prec emax md ed = true -> 2 ^ (- ed) <= Zpos md ->
  SF64div SFone (S754_finite false md ed) = S754_zero false \/
  exists m' e',
    SF64div SFone (S754_finite false md ed) = S754_finite false m' e' /\
    e' <= 0 /\ Zpos m' <= 2 ^ (- e').
Proof.
  intros Hb Hge.
  destruct (at_least_one_canonical md ed Hb Hge) as (He & Hmd & Hd).
  unfold SF64div, SFdiv, SFone, SFdiv_core_binary. cbn [xorb].
  cbn [Zdigits2]. rewrite Hd.
  change (Zpos (digits2_pos 4503599627370496)) with 53.
  rewrite fexp_eq.
  set (e' := Z.min (Z.max (53 + -52 - (53 + ed) - 53) (-1074)) (-52 - ed)).
  set (s := -52 - ed - e').
  assert (Hs : 51 <= s) by (unfold s, e'; lia).
  assert (He' : e' <= 0) by (unfold e'; lia).
  assert (Hm' : match s with
                | 0 => Zpos 4503599627370496
                | Zpos _ => Z.shiftl (Zpos 4503599627370496) s
                | Zneg _ => 0
                end = 2 ^ (52 + s)).
  { destruct s as [|p|p]; try lia.
    rewrite Z.shiftl_mul_pow2 by lia. rewrite Z.pow_add_r by lia. reflexivity. }
  rewrite Hm'.
  pose proof (Z_div_mod (2 ^ (52 + s)) (Zpos md) ltac:(lia)) as Hdiv.
  destruct (Z.div_eucl (2 ^ (52 + s)) (Zpos md)) as [q r].
  destruct Hdiv as [Hq Hr].
  pose proof (new_location_inexact (Zpos md) r) as Hloc.
  pose proof (inexact_range (new_location (Zpos md) r)) as Hi.
  assert (HP : 0 < 2 ^ (- e')) by (apply Z.pow_pos_nonneg; lia).
  assert (Hpow : 2 ^ (52 + s) <= 2 ^ (- e') * 2 ^ 52).
  { rewrite <- Z.pow_add_r by lia. apply Z.pow_le_mono_r; unfold s; lia. }
  assert (H52 : 0 < 2 ^ 52) by (apply Z.pow_pos_nonneg; lia).
  assert (Hq0 : 0 <= q) by nia.
  assert (Hmain : 2 ^ (52 + s) <= 2 ^ (- e') * Zpos md) by nia.
  apply round_le1; [assumption|assumption|].
  set (P := 2 ^ (- e')) in *. set (i := inexact (new_location (Zpos md) r)) in *.
  destruct (Z.le_gt_cases (q + i) P) as [H|H]; [assumption|exfalso].
  assert (Zpos md * P <= Zpos md * q) by (apply Z.mul_le_mono_nonneg_l; lia).
  assert (i = 1) by nia.
  assert (r <> 0) by (rewrite <- Hloc; lia).
  nia.
Qed.

Lemma at_most_one_leb m e :
  bounded prec emax m e = true -> e <= 0 -> Zpos m <= 2 ^ (- e) ->
  SFleb (S754_finite false m e) SFone = true.
Proof.
  unfold bounded, canonical_mantissa. intros Hb He Hle.
  apply andb_prop in Hb. destruct Hb as [Hc _].
  apply Z.eqb_eq in Hc. rewrite fexp_eq in Hc.
  destruct (digits2_pos_bounds m) as [Hlo _].
  unfold SFleb, SFcompare, SFone.
  destruct (Z.compare_spec e (-52)) as [->|Hlt|Hgt]; [|reflexivity|exfalso].
  - change (2 ^ (- -52)) with (Zpos 4503599627370496) in Hle.
    rewrite Pos.compare_cont_spec. cbn [Pos.switch_Eq].
    destruct (Pos.compare_spec m 4503599627370496); try reflexivity. lia.
  - assert (Hd : Zpos (digits2_pos m) = 53) by lia.
    rewrite Hd in Hlo. change (53 - 1) with 52 in Hlo.
    assert (2 ^ (- e) < 2 ^ 52) by (apply Z.pow_lt_mono_r; lia).
    lia.
Qed.

Local Close Scope Z_scope.
Local Open Scope float_scope.

(** On binary64 numbers [1 / (1 + e)] lies between [0] and [1] as soon as
    [e] is not negative (and not [NaN]). *)
Theorem one_over_one_plus (e : float) :
  (0 <=? e) = true ->
  (0 <=? 1 / (1 + e)) = true /\ (1 / (1 + e) <=? 1) = true.
Proof.
  intros He. rewrite leb_spec in He. rewrite !leb_spec, div_spec.
  pose proof (Prim2SF_valid (1 + e)) as Vd.
  pose proof (Prim2SF_valid (1 / (1 + e))) as Vq.
  rewrite div_spec in Vq. rewrite add_spec in *.
  change (Prim2SF 1) with SFone in *.
  change (Prim2SF 0) with (S754_zero false) in *.
  set (D := SF64add SFone (Prim2SF e)) in *.
  assert (HD : D = SFone \/ D = S754_infinity false \/
               exists md ed, D = S754_finite false md ed /\
                             (2 ^ (- ed) <= Zpos md)%Z).
  { unfold D. destruct (Prim2SF e) as [s|[|]| |[|] m ex]; try discriminate.
    - now left.
    - right. now left.
    - right. destruct (add_one_ge1 m ex) as [H|H]; [now left|now right]. }
  assert (HQ : SF64div SFone D = S754_zero false \/
               exists m' e', SF64div SFone D = S754_finite false m' e' /\
                             (e' <= 0)%Z /\ (Zpos m' <= 2 ^ (- e'))%Z).
  { destruct HD as [HD|[HD|(md & ed & HD & Hge)]].
    - rewrite HD. right. exists 4503599627370496%positive, (-52)%Z.
      split; [reflexivity|]. split; [lia|]. reflexivity.
    - rewrite HD. now left.
    - rewrite HD in *. now apply div_one_le1. }
  destruct HQ as [HQ|(m' & e' & HQ & He' & Hle)]; rewrite HQ in *.
  - split; reflexivity.
  - split; [reflexivity|]. now apply at_most_one_leb.
Qed.

End Binary64.

Lemma not_nan_opp x :
  PrimFloat.is_nan x = false -> PrimFloat.is_nan (PrimFloat.opp x) = false.
Proof.
  unfold PrimFloat.is_nan. rewrite !eqb_spec, opp_spec.
  destruct (Prim2SF x) as [sg|sg| |sg m e]; try destruct sg; simpl;
    try (intros; reflexivity); try discriminate;
    unfold SFeqb, SFcompare; rewrite Z.compare_refl, Pos.compare_cont_refl;
    intros _; reflexivity.
Qed.

Lemma coarse_exp_nonnegative : Double.nonnegative Double.coarse_exp.
Proof.
  intros x _. unfold Double.coarse_exp.
  destruct (PrimFloat.leb x (-746)%float); [reflexivity|].
  destruct (PrimFloat.leb 710%float x); reflexivity.
Qed.

(** C8, as amended: on binary64 numbers, with an engine whose [Math.exp]
    conforms and returns no negative number, [sigmoid(x)] lies between
    [0] and [1], both included, for every [x] that is not [NaN], and
    [sigmoid(0)] is exactly [0.5]. *)
Theorem sigmoid_range (Math_exp : float -> float) :
  Double.conforming Math_exp -> Double.nonnegative Math_exp ->
  (forall x, PrimFloat.is_nan x = false ->
     PrimFloat.leb 0 (Double.sigmoid Math_exp x) = true /\
     PrimFloat.leb (Double.sigmoid Math_exp x) 1 = true) /\
  Double.sigmoid Math_exp 0 = 0.5%float.
Proof.
  intros (H0 & _) Hpos. split.
  - intros x Hx. unfold Double.sigmoid.
    apply Binary64.one_over_one_plus. apply Hpos. now apply not_nan_opp.
  - unfold Double.sigmoid.
    assert (E : Math_exp (PrimFloat.opp 0%float) = 1%float) by exact H0.
    rewrite E. reflexivity.
Qed.

(* ================================================================== *)
(** * The update and the cost on binary64 numbers *)



(* ================================================================== *)
(** * The theorems at the sample network *)

(** The sample network is well formed. *)
Lemma sample_net_well_formed : well_formed sample_net.
Proof.
  assert (Hshape : shape 1 1 (VMat (mkMatrix [[Num 0]])) /\
                   shape 1 1 (VMat (mkMatrix [[Num 1]]))).
  { split; eexists; (split; [reflexivity|]); (split; [reflexivity|]);
      intros [|i] Hi; simpl; lia. }
  destruct Hshape as [H0 H1].
  split; [discriminate|]. split; [|split; [reflexivity|split]].
  - intros [|[|l]] Hl; unfold sample_net, size_at in *; simpl in *; lia.
  - intros [|l] Hl; unfold sample_net, size_at in *; simpl in *; [|lia].
    split; assumption.
  - intros [|[|l]] Hl; unfold sample_net, size_at in *; simpl in *; try lia;
      split; assumption.
Defined.

(** C2 at two 1 by 1 matrices, and at a 1 by 1 and a 2 by 1 matrix. *)
Lemma binary_operations_witness :
  answers_matrix 1 1
    (add sample_random (mkMatrix [[Num 1]]) (mkMatrix [[Num 2]]) 0) /\
  answers_false
    (mult sample_random (mkMatrix [[Num 1]]) (mkMatrix [[Num 2]; [Num 3]]) 0).
Proof.
  split.
  - apply (binary_operations_check_shapes sample_random
             (mkMatrix [[Num 1]]) (mkMatrix [[Num 2]]) 0);
      [discriminate|discriminate|reflexivity|reflexivity].
  - apply (binary_operations_check_shapes sample_random
             (mkMatrix [[Num 1]]) (mkMatrix [[Num 2]; [Num 3]]) 0);
      [discriminate|discriminate|]. cbv. lia.
Defined.

(** C3 at the sample network and sample 0. *)
Lemma forwardProp_witness :
  exists net' s',
    forwardProp sample_random sample_imgData sample_net 0 0 = Ok net' s' /\
    aref (activations net') 0 = VMat (input_column sample_net [Num 1]) /\
    layer_computed sample_net net' 1.
Proof.
  destruct (forwardProp_computes_layers sample_random sample_imgData
              sample_net 0 [Num 1] 0 sample_net_well_formed eq_refl)
    as (net' & s' & Hrun & Hin & Hlayers & _).
  exists net', s'. split; [assumption|]. split; [assumption|].
  apply Hlayers. cbv. lia.
Defined.

(** C4 at the sample network and label 0. *)
Lemma error_signals_witness :
  exists g s',
    backProp_gradients sample_random sample_labels sample_net 0 0 = Ok g s' /\
    error_signal_top sample_net (one_hot 1 0) g /\
    error_signal_at sample_net g 0.
Proof.
  destruct (backProp_error_signals sample_random sample_labels
              sample_net 0 0 0 sample_net_well_formed eq_refl)
    as (g & s' & Hrun & _ & Htop & Hbelow & _); [cbv; lia|].
  exists g, s'. split; [assumption|]. split; [assumption|].
  apply Hbelow. cbv. lia.
Defined.

(** C5 at the sample network and label 0. *)
Lemma parameter_gradients_witness :
  exists g s',
    backProp_gradients sample_random sample_labels sample_net 0 0 = Ok g s' /\
    weight_gradient_at sample_net g 0 /\ bias_gradient_at sample_net g 0.
Proof.
  destruct (backProp_parameter_gradients sample_random sample_labels
              sample_net 0 0 0 sample_net_well_formed eq_refl)
    as (g & s' & Hrun & _ & Hall); [cbv; lia|].
  exists g, s'. split; [assumption|].
  destruct (Hall 0) as (HW & _ & _ & HB); [cbv; lia|]. now split.
Defined.



(** C9 at [new NNetwork([1, 1])] and at one round on the sample network. *)
Lemma shape_invariant_witness :
  (exists net s',
     NNetwork_new sample_random [1; 1] 0 = Ok net s' /\ shape_inv net) /\
  (exists net1 s1 net2 s2,
     forwardProp sample_random sample_imgData sample_net 0 0 = Ok net1 s1 /\
     backProp sample_random sample_labels net1 0 s1 = Ok net2 s2 /\
     shape_inv net2).
Proof.
  destruct (shape_invariant_kept sample_random sample_imgData sample_labels)
    as (Hnew & Hcycle & _).
  split.
  - destruct (Hnew [1; 1] 0) as (net & s' & Hrun & _ & Hinv & _).
    + intros [|[|l]] Hl; cbv in *; lia.
    + now exists net, s'.
  - destruct (Hcycle sample_net 0 0 sample_net_well_formed)
      as (net1 & s1 & net2 & s2 & H1 & H2 & _ & _ & Hinv).
    + split; [cbv; lia|]. exists 0. split; [reflexivity|cbv; lia].
    + now exists net1, s1, net2, s2.
Defined.

(** C10 at [calculate(0)] on the sample network. *)
Lemma calculate_witness :
  calculate sample_random sample_net 0 0 = Ok (VFalse, sample_net) 0.
Proof.
  apply (calculate_below_first_layer sample_random sample_net 0 0).
  reflexivity.
Defined.

(** C8 at the engine [Double.coarse_exp]: [sigmoid(1)] lies between [0]
    and [1], and [sigmoid(0)] is [0.5]. *)
Lemma sigmoid_range_witness :
  Double.conforming Double.coarse_exp /\
  Double.nonnegative Double.coarse_exp /\
  PrimFloat.leb 0 (Double.sigmoid Double.coarse_exp 1) = true /\
  PrimFloat.leb (Double.sigmoid Double.coarse_exp 1) 1 = true /\
  Double.sigmoid Double.coarse_exp 0 = 0.5%float.
Proof.
  split; [exact coarse_exp_conforming|].
  split; [exact coarse_exp_nonnegative|].
  destruct (sigmoid_range Double.coarse_exp coarse_exp_conforming
              coarse_exp_nonnegative) as [Hrange Hhalf].
  destruct (Hrange 1%float eq_refl) as [Hlow Hhigh].
  split; [exact Hlow|]. split; [exact Hhigh|exact Hhalf].
Defined.

(* ================================================================== *)
(** * The random stream and the results of training *)

Lemma alike_ret A (a : A) : alike (ret a) (ret a).
Proof. intros s1 s2. reflexivity. Qed.

Lemma alike_throw A : alike (@throw A) (@throw A).
Proof. intros s1 s2. exact I. Qed.

Lemma alike_bind A B (m1 m2 : M A) (k1 k2 : A -> M B) :
  alike m1 m2 -> (forall a, alike (k1 a) (k2 a)) ->
  alike (bind m1 k1) (bind m2 k2).
Proof.
  intros Hm Hk s1 s2. unfold bind. specialize (Hm s1 s2).
  destruct (m1 s1) as [a1 t1|], (m2 s2) as [a2 t2|]; simpl in Hm;
    try contradiction; [|exact I].
  subst a2. apply Hk.
Qed.

Lemma alike_for_ St (b1 b2 : nat -> St -> M St) :
  (forall i st, alike (b1 i st) (b2 i st)) ->
  forall n i st, alike (for_ n i b1 st) (for_ n i b2 st).
Proof.
  intros Hb. induction n as [|n IH]; intros i st; simpl.
  - apply alike_ret.
  - apply alike_bind; [apply Hb|]. intros st'. apply IH.
Qed.

Lemma alike_for_down St (b1 b2 : nat -> St -> M St) :
  (forall i st, alike (b1 i st) (b2 i st)) ->
  forall n st, alike (for_down n b1 st) (for_down n b2 st).
Proof.
  intros Hb. induction n as [|n IH]; intros st; simpl.
  - apply alike_ret.
  - apply alike_bind; [apply Hb|]. intros st'. apply IH.
Qed.

Lemma alike_as_mat v : alike (as_mat v) (as_mat v).
Proof. destruct v; simpl; first [apply alike_ret | apply alike_throw]. Qed.

Lemma alike_size m : alike (size m) (size m).
Proof.
  unfold size. destruct (data m); first [apply alike_ret | apply alike_throw].
Qed.

Lemma alike_get m i j : alike (get m i j) (get m i j).
Proof.
  unfold get.
  destruct (nth_error (data m) i); first [apply alike_ret | apply alike_throw].
Qed.

Lemma alike_set m i j v : alike (set m i j v) (set m i j v).
Proof.
  unfold set.
  destruct (nth_error (data m) i); first [apply alike_ret | apply alike_throw].
Qed.

Lemma alike_clone this matB : alike (clone this matB) (clone this matB).
Proof. apply alike_ret. Qed.

Lemma alike_Matrix_new_fill R1 R2 r c x :
  alike (Matrix_new R1 r c (Num x)) (Matrix_new R2 r c (Num x)).
Proof. apply alike_ret. Qed.

(** One step of a proof that two runs of the same code answer alike. *)
Ltac alike_step :=
  first
    [ apply alike_ret | apply alike_throw
    | apply alike_as_mat | apply alike_size | apply alike_get
    | apply alike_set | apply alike_clone | apply alike_Matrix_new_fill
    | apply alike_bind; [|intros ?]
    | apply alike_for_; intros ? ?
    | apply alike_for_down; intros ? ?
    | match goal with
      | |- alike (match ?x with _ => _ end) _ => destruct x
      end ].

Lemma alike_apply m f : alike (apply m f) (apply m f).
Proof. unfold apply. repeat alike_step. Qed.

Lemma alike_scalarMult m k : alike (scalarMult m k) (scalarMult m k).
Proof. unfold scalarMult. repeat alike_step. Qed.

Lemma alike_transpose R1 R2 m : alike (transpose R1 m) (transpose R2 m).
Proof. unfold transpose. repeat alike_step. Qed.

Lemma alike_getCost net y : alike (getCost net y) (getCost net y).
Proof. unfold getCost. repeat alike_step. Qed.

Lemma elementwise_needs_a_second_row R op A B s :
  data B = [] -> elementwise R op A B s = TypeError.
Proof.
  intros E. unfold elementwise, bind, size. rewrite E.
  now destruct (data A).
Qed.

Lemma alike_elementwise R1 R2 op A B :
  alike (elementwise R1 op A B) (elementwise R2 op A B).
Proof.
  intros s1 s2.
  destruct (data A) as [|rowA restA] eqn:EA.
  { destruct (binary_operations_need_a_row R1 op A B s1 EA) as [-> _].
    destruct (binary_operations_need_a_row R2 op A B s2 EA) as [-> _].
    exact I. }
  destruct (data B) as [|rowB restB] eqn:EB.
  { now rewrite !elementwise_needs_a_second_row by assumption. }
  assert (HA : data A <> []) by (rewrite EA; discriminate).
  assert (HB : data B <> []) by (rewrite EB; discriminate).
  destruct (Nat.eq_dec (nrows A) (nrows B)) as [Hr|Hr];
    [destruct (Nat.eq_dec (ncols A) (ncols B)) as [Hc|Hc]|].
  - rewrite (elementwise_spec R1 op A B s1 HA HB Hr Hc),
      (elementwise_spec R2 op A B s2 HA HB Hr Hc). reflexivity.
  - rewrite (elementwise_false R1 op A B s1 HA HB (or_intror Hc)),
      (elementwise_false R2 op A B s2 HA HB (or_intror Hc)). reflexivity.
  - rewrite (elementwise_false R1 op A B s1 HA HB (or_introl Hr)),
      (elementwise_false R2 op A B s2 HA HB (or_introl Hr)). reflexivity.
Qed.

Lemma alike_add R1 R2 A B : alike (add R1 A B) (add R2 A B).
Proof. apply alike_elementwise. Qed.

Lemma alike_subtract R1 R2 A B : alike (subtract R1 A B) (subtract R2 A B).
Proof. apply alike_elementwise. Qed.

Lemma alike_hadamard R1 R2 A B : alike (hadamard R1 A B) (hadamard R2 A B).
Proof. apply alike_elementwise. Qed.

Lemma mult_needs_a_second_row R A B s :
  data A <> [] -> data B = [] -> ncols A = nrows B -> mult R A B s = TypeError.
Proof.
  intros HA EB Hc. unfold mult, ncols, nrows in *. rewrite EB in *.
  destruct (data A) as [|row0 rest]; [congruence|]. simpl in Hc.
  rewrite Hc. reflexivity.
Qed.

Lemma alike_mult R1 R2 A B : alike (mult R1 A B) (mult R2 A B).
Proof.
  intros s1 s2.
  destruct (data A) as [|rowA restA] eqn:EA.
  { destruct (binary_operations_need_a_row R1 vadd A B s1 EA) as [_ ->].
    destruct (binary_operations_need_a_row R2 vadd A B s2 EA) as [_ ->].
    exact I. }
  assert (HA : data A <> []) by (rewrite EA; discriminate).
  destruct (Nat.eq_dec (ncols A) (nrows B)) as [Hc|Hc].
  - destruct (data B) as [|rowB restB] eqn:EB.
    + now rewrite !mult_needs_a_second_row by assumption.
    + assert (HB : data B <> []) by (rewrite EB; discriminate).
      rewrite (mult_spec R1 A B s1 HA HB Hc), (mult_spec R2 A B s2 HA HB Hc).
      reflexivity.
  - rewrite (mult_false R1 A B s1 HA Hc), (mult_false R2 A B s2 HA Hc).
    reflexivity.
Qed.

(** A step that also knows the operations that draw. *)
Ltac alike_run :=
  repeat first
    [ apply alike_apply | apply alike_scalarMult | apply alike_transpose
    | apply alike_getCost | apply alike_add | apply alike_subtract
    | apply alike_hadamard | apply alike_mult | alike_step ].

Lemma alike_calculate R1 R2 net l :
  alike (calculate R1 net l) (calculate R2 net l).
Proof. unfold calculate. alike_run. Qed.

Lemma alike_forwardProp R1 R2 imgData net input :
  alike (forwardProp R1 imgData net input) (forwardProp R2 imgData net input).
Proof. unfold forwardProp. repeat first [apply alike_calculate | alike_step]. Qed.

Lemma alike_backProp R1 R2 labels net index :
  alike (backProp R1 labels net index) (backProp R2 labels net index).
Proof.
  unfold backProp, backProp_gradients, backProp_update, backProp_allocate,
    backProp_layer, backProp_update_layer.
  alike_run.
Qed.

(** X11.  The draws of [Math.random()] that [mult], [add], [subtract] and
    [hadamard] make (each fills its result matrix at random before it
    overwrites every entry) never reach a result: for every network,
    whatever the host's random stream and however many draws were made
    before, [forwardProp], [backProp] and [train] either throw in both
    runs or return the same network. *)
Theorem training_ignores_Math_random
        (R1 R2 : nat -> R) (imgData : list (list value)) (labels : list nat)
        (net : NNetwork) (index count : nat) :
  alike (forwardProp R1 imgData net index) (forwardProp R2 imgData net index) /\
  alike (backProp R1 labels net index) (backProp R2 labels net index) /\
  alike (train R1 imgData labels net count) (train R2 imgData labels net count).
Proof.
  split; [apply alike_forwardProp|]. split; [apply alike_backProp|].
  unfold train. apply alike_for_. intros i st.
  apply alike_bind; [apply alike_forwardProp|]. intros net'.
  apply alike_backProp.
Qed.

(* ================================================================== *)
(** * Training without its sample, and the constructor on an empty layer *)

Lemma forwardProp_without_sample R imgData net input s :
  nth_error imgData input = None ->
  forwardProp R imgData net input s = TypeError.
Proof.
  intros Hnone. unfold forwardProp.
  destruct (aref (activations net) 0) as [| |a0] eqn:E; try reflexivity.
  rewrite (bind_Ok _ _ _ _ _ _ _ (as_mat_VMat a0 s)).
  destruct (data a0) as [|row0 rest] eqn:Ed.
  { apply bind_TypeError_l. now apply size_empty. }
  assert (Hsize : size a0 s = Ok (nrows a0, ncols a0) s)
    by (apply size_nonempty; rewrite Ed; discriminate).
  rewrite (bind_Ok _ _ _ _ _ _ _ Hsize). cbv beta iota.
  apply bind_TypeError_l.
  apply (for__throws _ _ (nrows a0) 0 0).
  - unfold nrows. rewrite Ed. simpl. lia.
  - intros st s'. rewrite Hnone. unfold bind.
    now destruct (as_mat (aref (activations st) 0) s').
Qed.

Lemma backProp_without_label R labels net index s :
  (forall desired, nth_error labels index = Some desired ->
     size_at (structure net) (length (structure net) - 1) <= desired) ->
  backProp R labels net index s = TypeError.
Proof.
  intros Hlab. unfold backProp. apply bind_TypeError_l.
  unfold backProp_gradients. cbv zeta.
  rewrite (bind_Ok _ _ _ _ _ _ _ (Matrix_new_fill R _ _ _ s)).
  apply bind_TypeError_l.
  destruct (nth_error labels index) as [desired|]; [|reflexivity].
  apply set_row_missing. rewrite nrows_tab. now apply Hlab.
Qed.

(** X12.  The training steps need their sample, whatever the network:
    [forwardProp(input)] throws when [imgData[input]] is missing;
    [backProp(index)] throws when [labels[index]] is missing or is not
    below the width of the last layer; so [train(count)] with
    [count >= 1] throws when [imgData] or [labels] is empty, while
    [train(0)] returns the network as it is without a draw. *)
Theorem training_needs_its_sample
        (R : nat -> Rdefinitions.R) (imgData : list (list value))
        (labels : list nat) (net : NNetwork) (s : nat) :
  (forall input, nth_error imgData input = None ->
     forwardProp R imgData net input s = TypeError) /\
  (forall index, nth_error labels index = None ->
     backProp R labels net index s = TypeError) /\
  (forall index desired, nth_error labels index = Some desired ->
     size_at (structure net) (length (structure net) - 1) <= desired ->
     backProp R labels net index s = TypeError) /\
  (forall count, 1 <= count -> imgData = [] \/ labels = [] ->
     train R imgData labels net count s = TypeError) /\
  train R imgData labels net 0 s = Ok net s.
Proof.
  split; [|split; [|split; [|split]]].
  - intros input. apply forwardProp_without_sample.
  - intros index Hnone. apply backProp_without_label. intros d. congruence.
  - intros index desired Hsome Hle. apply backProp_without_label.
    intros d Hd. congruence.
  - intros [|count] Hc Hempty; [lia|]. unfold train. simpl.
    apply bind_TypeError_l. destruct Hempty as [-> | ->].
    + apply bind_TypeError_l. now apply forwardProp_without_sample.
    + unfold bind.
      destruct (forwardProp R imgData net 0 s) as [net1 s1|]; [|reflexivity].
      apply backProp_without_label. intros d. discriminate.
  - reflexivity.
Qed.

Lemma NNetwork_new_layer_empty R sizes l this s :
  1 <= l -> size_at sizes l = 0 -> NNetwork_new_layer R sizes l this s = TypeError.
Proof.
  intros Hl H0. unfold NNetwork_new_layer. rewrite H0. unfold bind.
  match goal with
  | |- match ?c with _ => _ end = _ => destruct c as [this1 s1|]
  end; [|reflexivity].
  simpl. replace (0 <? l) with true by (symmetry; apply Nat.ltb_lt; lia).
  reflexivity.
Qed.

(** X13.  [new NNetwork(sizes)] throws when a layer [l] after the first
    has size [0]: a matrix without rows is to be randomised, first the
    weight matrix [new Matrix(0, sizes[l-1])] of the round before (and,
    were that round to pass, the bias vector [new Matrix(0, 1)]), and
    [randomise] asks the size of a matrix without rows. *)
Theorem constructor_rejects_empty_layer
        (R : nat -> Rdefinitions.R) (sizes : list nat) (l s : nat) :
  1 <= l < length sizes -> size_at sizes l = 0 ->
  NNetwork_new R sizes s = TypeError.
Proof.
  intros Hl H0. unfold NNetwork_new.
  apply (for__throws _ _ (length sizes) 0 l); [lia|].
  intros this s'. apply NNetwork_new_layer_empty; [lia|assumption].
Qed.

Lemma constructor_rejects_empty_layer_witness :
  NNetwork_new sample_random [1; 0] 0 = TypeError.
Proof.
  apply (constructor_rejects_empty_layer sample_random [1; 0] 1 0);
    [simpl; lia|reflexivity].
Defined.

Lemma for__split St (body : nat -> St -> M St) m n :
  forall i st s,
    for_ (m + n) i body st s
    = bind (for_ m i body st) (fun st' => for_ n (i + m) body st') s.
Proof.
  induction m as [|m IH]; intros i st s; simpl.
  - unfold bind, ret. now rewrite Nat.add_0_r.
  - unfold bind. destruct (body i st s) as [st1 s1|]; [|reflexivity].
    rewrite IH. unfold bind. now replace (S i + m) with (i + S m) by lia.
Qed.

Lemma for__any_start St (f : St -> M St) n :
  forall i j st s, for_ n i (fun _ => f) st s = for_ n j (fun _ => f) st s.
Proof.
  induction n as [|n IH]; intros i j st s; simpl; [reflexivity|].
  unfold bind. destruct (f st s) as [st1 s1|]; [|reflexivity]. apply IH.
Qed.

(** X14.  Rounds of training compose: [train(m + n)] is [train(m)]
    followed by [train(n)] on the network and the random stream that
    [train(m)] leaves, and throws when [train(m)] does. *)
Theorem train_rounds_compose
        (R : nat -> Rdefinitions.R) (imgData : list (list value))
        (labels : list nat) (net : NNetwork) (m n s : nat) :
  train R imgData labels net (m + n) s
  = match train R imgData labels net m s with
    | Ok net' s' => train R imgData labels net' n s'
    | TypeError => TypeError
    end.
Proof.
  unfold train. rewrite for__split. unfold bind.
  destruct (for_ m 0 _ net s) as [net' s'|]; [|reflexivity].
  apply (for__any_start _ (fun this => this <- forwardProp R imgData this 0 ;;
                                       backProp R labels this 0)).
Qed.

(** The constructor at [sizes = [1; 1]] on the host whose draws are
    all [0.9]. *)
Lemma constructor_parameters_witness :
  exists net s',
    NNetwork_new sample_random [1; 1] 0 = Ok net s' /\
    all_entries (fun v => exists x, v = Num x /\ (-5 <= x < 5)%R)
                (aref (weights net) 0) /\
    all_entries (fun v => exists x, v = Num x /\ (-5 <= x < 5)%R)
                (aref (biases net) 0).
Proof.
  destruct (constructor_parameters_in_range sample_random [1; 1] 0)
    as (net & s' & Hrun & Hparams & _).
  - intros k. unfold sample_random. lra.
  - intros [|[|l]] Hl; cbv in *; lia.
  - exists net, s'. split; [assumption|]. apply Hparams. simpl. lia.
Defined.

(* ================================================================== *)
(** * [getTrainingData] *)

Lemma loop_push A B (f : nat -> A) (g : nat -> B) n :
  forall i (acc : list A * list B),
    loop n i (fun k acc => (fst acc ++ [f k], snd acc ++ [g k])) acc
    = (fst acc ++ map f (seq i n), snd acc ++ map g (seq i n)).
Proof.
  induction n as [|n IH]; intros i [xs ys]; simpl.
  - now rewrite !app_nil_r.
  - rewrite IH. simpl. now rewrite <- !app_assoc.
Qed.

Lemma loop_push_one A (f : nat -> A) n :
  forall i (acc : list A),
    loop n i (fun k acc => acc ++ [f k]) acc = acc ++ map f (seq i n).
Proof.
  induction n as [|n IH]; intros i acc; simpl.
  - now rewrite app_nil_r.
  - rewrite IH. now rewrite <- app_assoc.
Qed.

Lemma nth_error_pushed A (f : nat -> A) (old : list A) n i :
  i < n -> nth_error (old ++ map f (seq 0 n)) (length old + i) = Some (f i).
Proof.
  intros Hi. rewrite nth_error_app2 by lia.
  replace (length old + i - length old) with i by lia.
  rewrite nth_error_map, nth_error_seq.
  replace (i <? n) with true by (symmetry; apply Nat.ltb_lt; exact Hi).
  reflexivity.
Qed.

Lemma byte_over_255 (buf : list Init.Byte.byte) k :
  k < length buf ->
  exists x, vdiv (buffer_at buf k) (Num 255) = Num x /\ (0 <= x <= 1)%R.
Proof.
  intros Hk. unfold buffer_at.
  destruct (nth_error buf k) as [b|] eqn:E.
  2:{ apply nth_error_None in E. lia. }
  exists (INR (Strings.Byte.to_nat b) / 255)%R. split.
  - unfold vdiv. destruct (Req_dec_T 255 0); [lra|reflexivity].
  - pose proof (Strings.Byte.to_nat_bounded b) as Hb.
    apply le_INR in Hb.
    replace (INR 255) with 255%R in Hb
      by (rewrite INR_IZR_INZ; reflexivity).
    pose proof (pos_INR (Strings.Byte.to_nat b)). lra.
Qed.

Lemma byte_past_the_end (buf : list Init.Byte.byte) k :
  length buf <= k -> vdiv (buffer_at buf k) (Num 255) = NaN.
Proof.
  intros Hk. unfold buffer_at.
  now replace (nth_error buf k) with (@None Init.Byte.byte)
    by (symmetry; apply nth_error_None; exact Hk).
Qed.

(** X15.  [getTrainingData()] pushes 60000 images onto [imgData] and
    60000 labels onto [labels], leaving what they held in place.  Image
    [i] has [28 * 28] pixels, pixel [j] being byte [16 + i * 784 + j] of
    the image file divided by [255]: a number between [0] and [1] when
    the file has that byte and [NaN] when it is too short.  Label [i] is
    byte [8 + i] of the label file, or [undefined] past its end. *)
#[warnings="-abstract-large-number"]
Theorem getTrainingData_reads_the_files
        (trainingImages trainingLabels : list Init.Byte.byte)
        (imgData : list (list value)) (labels : list value) :
  exists images digits,
    getTrainingData trainingImages trainingLabels (imgData, labels)
      = (imgData ++ images, labels ++ digits) /\
    length images = 60000 /\ length digits = 60000 /\
    (forall i, i < 60000 ->
       exists pixels,
         nth_error images i = Some pixels /\ length pixels = 28 * 28 /\
         forall j, j < 28 * 28 ->
           nth j pixels Undefined
             = vdiv (buffer_at trainingImages (16 + i * (28 * 28) + j)) (Num 255) /\
           (16 + i * (28 * 28) + j < length trainingImages ->
            exists x, nth j pixels Undefined = Num x /\ (0 <= x <= 1)%R) /\
           (length trainingImages <= 16 + i * (28 * 28) + j ->
            nth j pixels Undefined = NaN)) /\
    (forall i, i < 60000 ->
       nth_error digits i = Some (buffer_at trainingLabels (8 + i))).
Proof.
  unfold getTrainingData. cbv zeta.
  match goal with
  | |- context [loop ?count 0 _ (imgData, labels)] => generalize count
  end.
  intros N.
  set (image := fun i : nat =>
         loop (28 * 28) 0
           (fun (j : nat) (pixels : list value) =>
              pixels ++ [vdiv (buffer_at trainingImages (j + (i * 28 * 28 + 16)))
                              (Num 255)]) []).
  set (digit := fun i : nat => buffer_at trainingLabels (i + 8)).
  exists (map image (seq 0 N)), (map digit (seq 0 N)).
  split; [apply (loop_push _ _ image digit N 0 (imgData, labels))|].
  split; [now rewrite length_map, length_seq|].
  split; [now rewrite length_map, length_seq|].
  split.
  - intros i Hi. exists (image i).
    split; [exact (nth_error_pushed _ image [] N i Hi)|].
    assert (Himage : image i
              = map (fun j => vdiv (buffer_at trainingImages
                                      (j + (i * 28 * 28 + 16))) (Num 255))
                    (seq 0 (28 * 28))).
    { unfold image. now rewrite loop_push_one. }
    split; [now rewrite Himage, length_map, length_seq|].
    intros j Hj.
    assert (Hpx : nth j (image i) Undefined
                  = vdiv (buffer_at trainingImages (16 + i * (28 * 28) + j))
                         (Num 255)).
    { rewrite Himage.
      rewrite (nth_indep _ Undefined
                 (vdiv (buffer_at trainingImages (0 + (i * 28 * 28 + 16)))
                       (Num 255)))
        by now rewrite length_map, length_seq.
      rewrite (map_nth (fun j => vdiv (buffer_at trainingImages
                                         (j + (i * 28 * 28 + 16))) (Num 255))).
      rewrite seq_nth by exact Hj.
      do 2 f_equal. rewrite <- Nat.mul_assoc. lia. }
    split; [exact Hpx|]. rewrite Hpx. split.
    + apply byte_over_255.
    + apply byte_past_the_end.
  - intros i Hi. replace (8 + i) with (i + 8) by lia.
    exact (nth_error_pushed _ digit [] N i Hi).
Qed.

(* ================================================================== *)
(** * [sigPrime] on binary64 numbers *)

(** X17.  On binary64 numbers, with a conforming [Math.exp],
    [sigPrime(0)] is exactly [0.25], but [sigPrime(x)] is [NaN] as soon
    as [-x] reaches [710] ([Math.exp(-x)] overflows and the quotient is
    [Infinity / Infinity]), and is exactly [0] as soon as [-x] is [-746]
    or below ([Math.exp(-x)] underflows); in exact arithmetic it is
    positive everywhere. *)
Theorem sigPrime_breaks_down_in_binary64
        (Math_exp : float -> float) (x : float) :
  Double.conforming Math_exp ->
  Double.sigPrime Math_exp 0 = 0.25%float /\
  (PrimFloat.leb 710 (- x) = true ->
   PrimFloat.is_nan (Double.sigPrime Math_exp x) = true) /\
  (PrimFloat.leb (- x) (-746) = true ->
   Double.sigPrime Math_exp x = 0%float).
Proof.
  intros (H0 & Hunder & Hover). unfold Double.sigPrime. cbv zeta.
  split; [|split].
  - assert (E : Math_exp (PrimFloat.opp 0%float) = 1%float) by exact H0.
    rewrite E. reflexivity.
  - intros Hx. rewrite (Hover _ Hx). reflexivity.
  - intros Hx. rewrite (Hunder _ Hx). reflexivity.
Qed.

(** X17 at the engine [Double.coarse_exp]: [sigPrime(-1000)] is [NaN]
    and [sigPrime(1000)] is [0]. *)
Lemma sigPrime_binary64_witness :
  PrimFloat.is_nan (Double.sigPrime Double.coarse_exp (-1000)) = true /\
  Double.sigPrime Double.coarse_exp 1000 = 0%float.
Proof.
  split.
  - apply (sigPrime_breaks_down_in_binary64 Double.coarse_exp (-1000)
             coarse_exp_conforming). reflexivity.
  - apply (sigPrime_breaks_down_in_binary64 Double.coarse_exp 1000
             coarse_exp_conforming). reflexivity.
Defined.

(* ================================================================== *)
(** * [forwardProp] overwrites the activations it finds *)

(** X18.  What [forwardProp] leaves in [activations], and in [Z] after
    the first layer, depends only on the weights, the biases and the
    sample: on two well-formed networks with the same parameters it
    leaves the same matrices, whatever their activations were before.
    So a second [forwardProp] of the same sample changes none of them. *)
Theorem forwardProp_overwrites_activations
        (R : nat -> Rdefinitions.R) (imgData : list (list value))
        (net1 net2 : NNetwork) (input s1 s2 : nat) :
  well_formed net1 -> well_formed net2 -> same_parameters net1 net2 ->
  input < length imgData ->
  exists net1' t1 net2' t2,
    forwardProp R imgData net1 input s1 = Ok net1' t1 /\
    forwardProp R imgData net2 input s2 = Ok net2' t2 /\
    (forall l, l < length (structure net1) ->
       aref (activations net1') l = aref (activations net2') l) /\
    (forall l, 1 <= l < length (structure net1) ->
       aref (Z net1') l = aref (Z net2') l) /\
    exists net1'' t1',
      forwardProp R imgData net1' input t1 = Ok net1'' t1' /\
      (forall l, l < length (structure net1) ->
         aref (activations net1'') l = aref (activations net1') l) /\
      (forall l, 1 <= l < length (structure net1) ->
         aref (Z net1'') l = aref (Z net1') l).
Proof.
  assert (Hsame : forall netA netB netA' netB' pixels,
            well_formed netA -> weights netB = weights netA ->
            biases netB = biases netA -> structure netB = structure netA ->
            aref (activations netA') 0 = VMat (input_column netA pixels) ->
            aref (activations netB') 0 = VMat (input_column netB pixels) ->
            (forall l, 1 <= l < length (structure netA) ->
               layer_computed netA netA' l) ->
            (forall l, 1 <= l < length (structure netB) ->
               layer_computed netB netB' l) ->
            forall l, l < length (structure netA) ->
              aref (activations netA') l = aref (activations netB') l /\
              (1 <= l -> aref (Z netA') l = aref (Z netB') l)).
  { intros netA netB netA' netB' pixels HwfA HW HB Hst HinA HinB HlA HlB.
    induction l as [|l IH]; intros Hl.
    - split; [|lia]. rewrite HinA, HinB. unfold input_column. now rewrite Hst.
    - destruct (IH ltac:(lia)) as [Hprev _].
      destruct (HlA (S l) ltac:(lia)) as (W & a & b & EW & Ea & Eb & EZ & EA).
      destruct (HlB (S l) ltac:(rewrite Hst; lia))
        as (W' & a' & b' & EW' & Ea' & Eb' & EZ' & EA').
      replace (S l - 1) with l in * by lia.
      rewrite HW, EW in EW'. rewrite HB, Eb in Eb'.
      rewrite <- Hprev, Ea in Ea'.
      injection EW' as <-. injection Eb' as <-. injection Ea' as <-.
      split; [now rewrite EA, EA'|]. intros _. now rewrite EZ, EZ'. }
  intros Hwf1 Hwf2 (HW & HB & _ & Hst & _) Hin.
  destruct (nth_error imgData input) as [pixels|] eqn:Hpx.
  2:{ apply nth_error_None in Hpx. lia. }
  destruct (forwardProp_spec R imgData net1 input pixels s1 Hwf1 Hpx)
    as (net1' & t1 & Hrun1 & (HW1 & HB1 & _ & Hst1 & _) & Hwf1' & Hin1 & Hl1).
  destruct (forwardProp_spec R imgData net2 input pixels s2 Hwf2 Hpx)
    as (net2' & t2 & Hrun2 & _ & _ & Hin2 & Hl2).
  destruct (forwardProp_spec R imgData net1' input pixels t1 Hwf1' Hpx)
    as (net1'' & t1' & Hrun1' & _ & _ & Hin1' & Hl1').
  exists net1', t1, net2', t2.
  split; [assumption|]. split; [assumption|].
  pose proof (Hsame net1 net2 net1' net2' pixels Hwf1 HW HB Hst Hin1 Hin2
                Hl1 Hl2) as H12.
  split; [intros l Hl; now apply H12|].
  split; [intros l Hl; apply H12; lia|].
  exists net1'', t1'. split; [assumption|].
  pose proof (Hsame net1' net1 net1'' net1' pixels Hwf1'
                (eq_sym HW1) (eq_sym HB1) (eq_sym Hst1) Hin1' Hin1 Hl1' Hl1)
    as H11.
  rewrite Hst1 in H11.
  split; [intros l Hl; now apply H11|].
  intros l Hl. apply H11; lia.
Qed.

(** X18 at the sample network, run against itself. *)
Lemma forwardProp_overwrites_witness :
  exists net1' t1 net1'' t1',
    forwardProp sample_random sample_imgData sample_net 0 0 = Ok net1' t1 /\
    forwardProp sample_random sample_imgData net1' 0 t1 = Ok net1'' t1' /\
    aref (activations net1'') 1 = aref (activations net1') 1.
Proof.
  destruct (forwardProp_overwrites_activations sample_random sample_imgData
              sample_net sample_net 0 0 0
              sample_net_well_formed sample_net_well_formed)
    as (net1' & t1 & _ & _ & Hrun & _ & _ & _ & net1'' & t1' & Hrun' & Hact & _).
  - repeat split.
  - cbv. lia.
  - exists net1', t1, net1'', t1'. split; [assumption|].
    split; [assumption|]. apply Hact. cbv. lia.
Defined.

(* ================================================================== *)
(** * The further properties at concrete inputs *)

Lemma rect_one_row (row : list value) : rect 1 (length row) (mkMatrix [row]).
Proof. split; [reflexivity|]. intros [|i] Hi; [reflexivity|lia]. Qed.

(** X4 at the row [[1, 2]]. *)
Lemma transpose_twice_witness :
  exists At,
    transpose sample_random (mkMatrix [[Num 1; Num 2]]) 0 = Ok At 0 /\
    transpose sample_random At 0 = Ok (mkMatrix [[Num 1; Num 2]]) 0.
Proof.
  destruct (transpose_twice sample_random (mkMatrix [[Num 1; Num 2]]) 1 2 0
              (rect_one_row [Num 1; Num 2]) (le_n 1))
    as (At & Hrun & _ & _ & Hback & _).
  exists At. split; [assumption|]. apply Hback. lia.
Defined.

(** X6 at the row [[1, 2]] and the column [[3], [4]]. *)
Lemma transpose_of_product_witness :
  exists AB ABt At Bt s1 s2,
    mult sample_random (mkMatrix [[Num 1; Num 2]])
         (mkMatrix [[Num 3]; [Num 4]]) 0 = Ok (VMat AB) s1 /\
    transpose sample_random AB s1 = Ok ABt s1 /\
    transpose sample_random (mkMatrix [[Num 1; Num 2]]) 0 = Ok At 0 /\
    transpose sample_random (mkMatrix [[Num 3]; [Num 4]]) 0 = Ok Bt 0 /\
    mult sample_random Bt At 0 = Ok (VMat ABt) s2.
Proof.
  apply (transpose_of_product sample_random (mkMatrix [[Num 1; Num 2]])
           (mkMatrix [[Num 3]; [Num 4]]) 1 2 1 0).
  - exact (rect_one_row [Num 1; Num 2]).
  - split; [reflexivity|]. intros [|[|i]] Hi; try reflexivity. lia.
  - lia.
  - lia.
  - lia.
Defined.

(** X7.  On a matrix of [r >= 1] rows and [c] columns, [apply(f)]
    replaces every entry by [f] of it and [scalarMult(k)] by its product
    with [k]; both keep the shape and make no draw.  On a matrix without
    rows both throw. *)
Theorem apply_and_scalarMult (A : Matrix) (r c : nat) (s : nat) :
  rect r c A ->
  (1 <= r ->
   forall (f : value -> value) (k : value),
   exists Af Ak,
     apply A f s = Ok Af s /\ rect r c Af /\
     (forall i j, i < r -> j < c -> cell Af i j = f (cell A i j)) /\
     scalarMult A k s = Ok Ak s /\ rect r c Ak /\
     (forall i j, i < r -> j < c -> cell Ak i j = vmul (cell A i j) k)) /\
  (r = 0 ->
   forall (f : value -> value) (k : value),
     apply A f s = TypeError /\ scalarMult A k s = TypeError).
Proof.
  intros HA. split.
  - intros Hr f k.
    exists (mat_map f A), (mat_map (fun x => vmul x k) A).
    split; [now apply (apply_spec sample_random f r c)|].
    split; [now apply rect_mat_map|].
    split; [intros i j Hi Hj; now apply (cell_mat_map f r c)|].
    split; [now apply (scalarMult_spec sample_random k r c)|].
    split; [now apply rect_mat_map|].
    intros i j Hi Hj.
    exact (cell_mat_map (fun x => vmul x k) r c A i j HA Hi Hj).
  - intros -> f k. assert (E : data A = []).
    { destruct HA as [Hlen _]. now apply length_zero_iff_nil. }
    split.
    + unfold apply. now rewrite (bind_TypeError_l _ _ _ _ s (size_empty A s E)).
    + unfold scalarMult.
      now rewrite (bind_TypeError_l _ _ _ _ s (size_empty A s E)).
Qed.

(** X7 at [[1]], [sigmoid] and the multiplier [2]. *)
Lemma apply_and_scalarMult_witness :
  exists Af Ak,
    apply (mkMatrix [[Num 1]]) sigmoid 0 = Ok Af 0 /\
    cell Af 0 0 = sigmoid (Num 1) /\
    scalarMult (mkMatrix [[Num 1]]) (Num 2) 0 = Ok Ak 0 /\
    cell Ak 0 0 = vmul (Num 1) (Num 2).
Proof.
  destruct (apply_and_scalarMult (mkMatrix [[Num 1]]) 1 1 0
              (rect_one_row [Num 1])) as [Hrun _].
  destruct (Hrun (le_n 1) sigmoid (Num 2))
    as (Af & Ak & Hf & _ & Hcf & Hk & _ & Hck).
  exists Af, Ak. split; [assumption|].
  split; [apply (Hcf 0 0); lia|]. split; [assumption|]. apply (Hck 0 0); lia.
Defined.

(** X9 at the sample network, whose last layer holds [0], and target [1]. *)
Lemma getCost_never_negative_witness :
  exists cost,
    getCost sample_net (column (map Num [1%R])) 0 = Ok (Num cost) 0 /\
    (0 <= cost)%R.
Proof.
  apply (getCost_never_negative sample_net [0%R] [1%R] 0);
    [cbv; lia|reflexivity|reflexivity|reflexivity].
Defined.

(* ================================================================== *)
(** * [calculate] on matrices that do not fit *)

Lemma nrows_mat_mul A B : nrows (mat_mul A B) = nrows A.
Proof. unfold mat_mul. apply nrows_tab. Qed.

Lemma ncols_mat_mul A B : 1 <= nrows A -> ncols (mat_mul A B) = ncols B.
Proof.
  intros HA. unfold mat_mul.
  exact (rect_ncols _ _ _ (rect_tab (nrows A) (ncols B) _) HA).
Qed.

(** X19.  [calculate(l)] never checks the [false] that [mult] and [add]
    answer on matrices that do not fit, so for [l >= 1] it throws when
    the columns of [weights[l-1]] are not as many as the rows of
    [activations[l-1]], and when [biases[l-1]] has not the shape of
    their product; it also throws when [weights[l-1]] or
    [activations[l-1]] is missing. *)
Theorem calculate_throws_on_misfit
        (R : nat -> Rdefinitions.R) (net : NNetwork) (l s : nat) :
  1 <= l ->
  (aref (weights net) (l - 1) = VUndef \/
   aref (activations net) (l - 1) = VUndef ->
   calculate R net (Z.of_nat l) s = TypeError) /\
  (forall W a,
     aref (weights net) (l - 1) = VMat W ->
     aref (activations net) (l - 1) = VMat a ->
     1 <= nrows W -> ncols W <> nrows a ->
     calculate R net (Z.of_nat l) s = TypeError) /\
  (forall W a b,
     aref (weights net) (l - 1) = VMat W ->
     aref (activations net) (l - 1) = VMat a ->
     aref (biases net) (l - 1) = VMat b ->
     1 <= nrows W -> 1 <= nrows a -> 1 <= nrows b -> ncols W = nrows a ->
     nrows b <> nrows W \/ ncols b <> ncols a ->
     calculate R net (Z.of_nat l) s = TypeError).
Proof.
  intros Hl. unfold calculate.
  replace (Z.of_nat l <? 1)%Z with false by (symmetry; apply Z.ltb_ge; lia).
  cbv zeta. rewrite Nat2Z.id.
  assert (Hdata : forall m, 1 <= nrows m -> data m <> []).
  { intros m Hm E. unfold nrows in Hm. rewrite E in Hm. simpl in Hm. lia. }
  split; [|split].
  - intros [E|E].
    + now rewrite E.
    + rewrite E. unfold bind.
      now destruct (as_mat (aref (weights net) (l - 1)) s).
  - intros W a EW Ea HW Hne. rewrite EW, Ea.
    rewrite (bind_Ok _ _ _ _ _ _ _ (as_mat_VMat W s)).
    rewrite (bind_Ok _ _ _ _ _ _ _ (as_mat_VMat a s)).
    rewrite (bind_Ok _ _ _ _ _ _ _ (mult_false R W a s (Hdata W HW) Hne)).
    reflexivity.
  - intros W a b EW Ea Eb HW Ha Hb Hfit Hmis. rewrite EW, Ea, Eb.
    rewrite (bind_Ok _ _ _ _ _ _ _ (as_mat_VMat W s)).
    rewrite (bind_Ok _ _ _ _ _ _ _ (as_mat_VMat a s)).
    rewrite (bind_Ok _ _ _ _ _ _ _
               (mult_spec R W a s (Hdata W HW) (Hdata a Ha) Hfit)).
    rewrite (bind_Ok _ _ _ _ _ _ _ (as_mat_VMat (mat_mul W a) _)).
    rewrite (bind_Ok _ _ _ _ _ _ _ (as_mat_VMat b _)).
    assert (Hfalse : add R (mat_mul W a) b (s + nrows W * ncols a)
                     = Ok VFalse (s + nrows W * ncols a)).
    { apply elementwise_false.
      - apply Hdata. now rewrite nrows_mat_mul.
      - now apply Hdata.
      - rewrite nrows_mat_mul, ncols_mat_mul by assumption.
        destruct Hmis as [H|H]; [left|right]; congruence. }
    rewrite (bind_Ok _ _ _ _ _ _ _ Hfalse). unfold bind.
    now destruct (as_mat (aref (Z net) l) (s + nrows W * ncols a)).
Qed.

(** X19 at a network whose only weight matrix has two columns for a
    layer of one neuron. *)
Lemma calculate_misfit_witness :
  calculate sample_random
    (mkNNetwork [VMat (mkMatrix [[Num 1; Num 1]])]
                [VMat (mkMatrix [[Num 0]]); VMat (mkMatrix [[Num 0]])]
                [VMat (mkMatrix [[Num 0]]); VMat (mkMatrix [[Num 0]])]
                [VMat (mkMatrix [[Num 0]])] 2 [1; 1] (1 / 100))
    (Z.of_nat 1) 0 = TypeError.
Proof.
  match goal with
  | |- calculate _ ?net _ _ = _ =>
    refine (proj1 (proj2 (calculate_throws_on_misfit sample_random net 1 0
                            (le_n 1)))
                  (mkMatrix [[Num 1; Num 1]]) (mkMatrix [[Num 0]])
                  eq_refl eq_refl _ _)
  end; cbv; lia.
Defined.
